(** * memex-langserver: text buffer, reference keys, store and task scheduler

    A shallow embedding of the parts of the language server that keep a
    document's text in step with the editor ([FullTextDocument] in
    src/types/document.ts), classify reference keys ([Reference.type] in
    types/queryWrappers.ts), memoise derived tables ([memoize] in util.ts,
    [Document], [Workspace]) and schedule analysis jobs ([TaskManager],
    [Server]).  JavaScript numbers are integers of [Z] or [nat] here, arrays
    are lists, a thrown exception is [None]. *)

From stdpp Require Import gmap strings list.
From Stdlib Require Import ZArith Ascii Lia.

Local Open Scope Z_scope.

(* ===================================================================== *)
(** ** The text buffer: src/types/document.ts, class FullTextDocument     *)
(* ===================================================================== *)

Module TextDocument.

(** A JavaScript string is a sequence of code units; [text.charCodeAt(i)] is
    the [i]-th element, [text.length] the length of the list. *)
Definition text := list ascii.

Definition len (s : text) : Z := Z.of_nat (length s).

(** [const enum CharCode]. *)
Definition LineFeed : ascii := "010"%char.
Definition CarriageReturn : ascii := "013"%char.

Record Position := mkPosition { line : Z; character : Z }.
Record Range := mkRange { start : Position; end_ : Position }.

(** The body of the [for] loop of [computeLineOffsets], on the suffix of the
    text that starts at index [i]: the head of the list is
    [text.charCodeAt(i)], the second element [text.charCodeAt(i + 1)].  A
    carriage return followed by a line feed advances [i] once more before the
    push, so that the pair yields the single offset [textOffset + i + 2]. *)
Fixpoint computeLineOffsets_loop (suffix : text) (i textOffset : Z) : list Z :=
  match suffix with
  | [] => []
  | ch :: rest =>
      if Ascii.eqb ch CarriageReturn || Ascii.eqb ch LineFeed then
        match rest with
        | ch' :: rest' =>
            if Ascii.eqb ch CarriageReturn && Ascii.eqb ch' LineFeed
            then (textOffset + (i + 1) + 1)
                   :: computeLineOffsets_loop rest' (i + 1 + 1) textOffset
            else (textOffset + i + 1)
                   :: computeLineOffsets_loop rest (i + 1) textOffset
        | [] => (textOffset + i + 1)
                  :: computeLineOffsets_loop rest (i + 1) textOffset
        end
      else computeLineOffsets_loop rest (i + 1) textOffset
  end.

Definition computeLineOffsets (t : text) (isAtLineStart : bool) (textOffset : Z)
  : list Z :=
  (if isAtLineStart then [textOffset] else [])
    ++ computeLineOffsets_loop t 0 textOffset.

(** [getWellformedRange]. *)
Definition getWellformedRange (range : Range) : Range :=
  let s := start range in
  let e := end_ range in
  if (line s >? line e) || ((line s =? line e) && (character s >? character e))
  then {| start := e; end_ := s |}
  else range.

(** A number as JavaScript computes it once a line offset is missing: an
    integer or [NaN].  A cell of an array holds a number or is a hole, which
    reads as [undefined]. *)
Inductive jsnum := Fin (z : Z) | NaN.
Definition cell : Type := option jsnum.

(** The argument of [tree.edit]. *)
Record TreeEdit := mkTreeEdit {
  startIndex : jsnum; oldEndIndex : jsnum; newEndIndex : jsnum;
  startPosition : Position; oldEndPosition : Position;
  newEndPosition : Z * jsnum }.

(** A stand-in for the parse tree.  The parser is an external dependency,
    and what it returns depends on the text and on the earlier tree it is
    given to reuse; so a tree is identified by the text it was parsed from,
    the tree that was handed to the parser (none for a parse from scratch),
    and the edits applied to it since. *)
#[warnings="-register-all"] Inductive Tree :=
| mkTree (text_ : text) (edits : list TreeEdit) (previous : option Tree).

Definition tree_text (t : Tree) : text := match t with mkTree x _ _ => x end.
Definition tree_edits (t : Tree) : list TreeEdit := match t with mkTree _ e _ => e end.
Definition tree_previous (t : Tree) : option Tree := match t with mkTree _ _ p => p end.

(** [parser.parse(content)] and [parser.parse(content, oldTree)]. *)
Definition parse (content : text) : Tree := mkTree content [] None.
Definition parse_with (content : text) (oldTree : Tree) : Tree :=
  mkTree content [] (Some oldTree).

(** [tree.edit(e)]. *)
Definition tree_edit (t : Tree) (e : TreeEdit) : Tree :=
  mkTree (tree_text t) (tree_edits t ++ [e]) (tree_previous t).

Record FullTextDocument := mkDoc {
  _version : Z;
  _content : text;
  _tree : Tree;
  _lineOffsets : option (list Z) }.

(** [new FullTextDocument(uri, languageId, version, content)]. *)
Definition create (version : Z) (content : text) : FullTextDocument :=
  {| _version := version; _content := content;
     _tree := parse content; _lineOffsets := None |}.

(** [getLineOffsets] fills [_lineOffsets] on first use and returns it. *)
Definition lineOffsetsOf (d : FullTextDocument) : list Z :=
  match _lineOffsets d with
  | Some l => l
  | None => computeLineOffsets (_content d) true 0
  end.

Definition getLineOffsets (d : FullTextDocument) : list Z * FullTextDocument :=
  (lineOffsetsOf d,
   {| _version := _version d; _content := _content d; _tree := _tree d;
      _lineOffsets := Some (lineOffsetsOf d) |}).

(** [lineOffsets[i]] for an index the guards of the callers keep in range. *)
Definition at_ (l : list Z) (i : Z) : Z := nth (Z.to_nat i) l 0.

(** The [while (low < high)] loop of [positionAt].  Every turn shrinks
    [high - low], so [length lineOffsets] turns are enough
    (lemma [search_fuel]). *)
Fixpoint positionAt_search (fuel : nat) (lineOffsets : list Z)
    (ioffset low high : Z) : Z :=
  match fuel with
  | O => low
  | S fuel' =>
      if low <? high then
        let mid := (low + high) / 2 in
        if at_ lineOffsets mid >? ioffset
        then positionAt_search fuel' lineOffsets ioffset low mid
        else positionAt_search fuel' lineOffsets ioffset (mid + 1) high
      else low
  end.

Definition positionAt_in (content : text) (lineOffsets : list Z) (offset : Z)
  : Position :=
  let ioffset := Z.max (Z.min offset (len content)) 0 in
  let high := Z.of_nat (length lineOffsets) in
  if high =? 0 then {| line := 0; character := ioffset |}
  else
    let low := positionAt_search (length lineOffsets) lineOffsets ioffset 0 high in
    let line := low - 1 in
    {| line := line; character := ioffset - at_ lineOffsets line |}.

Definition positionAt (d : FullTextDocument) (offset : Z) : Position :=
  positionAt_in (_content d) (lineOffsetsOf d) offset.

Definition offsetAt_in (content : text) (lineOffsets : list Z) (position : Position)
  : Z :=
  if line position >=? Z.of_nat (length lineOffsets) then len content
  else if line position <? 0 then 0
  else
    let lineOffset := at_ lineOffsets (line position) in
    let nextLineOffset :=
      if line position + 1 <? Z.of_nat (length lineOffsets)
      then at_ lineOffsets (line position + 1)
      else len content in
    Z.max (Z.min (lineOffset + character position) nextLineOffset) lineOffset.

Definition offsetAt (d : FullTextDocument) (position : Position) : Z :=
  offsetAt_in (_content d) (lineOffsetsOf d) position.

Definition lineCount (d : FullTextDocument) : Z :=
  Z.of_nat (length (lineOffsetsOf d)).

(** [String.prototype.substring(a, b)]: both ends are clamped to the string
    and swapped when [a > b]. *)
Definition substring (s : text) (a b : Z) : text :=
  let a' := Z.max 0 (Z.min a (len s)) in
  let b' := Z.max 0 (Z.min b (len s)) in
  let lo := Z.min a' b' in
  let hi := Z.max a' b' in
  firstn (Z.to_nat (hi - lo)) (skipn (Z.to_nat lo) s).

(** [TextDocumentContentChangeEvent], as told apart by [isIncremental] and
    [isFull]; [Unrecognised] is an event that passes neither guard. *)
Inductive TextDocumentContentChangeEvent :=
| Incremental (range : Range) (newText : text)
| Full (newText : text)
| Unrecognised.

(** *** The line table once it has holes

    An assignment past the end of a JavaScript array leaves holes in it, and
    the buffer carries on: a hole reads as [undefined], arithmetic on it
    gives [NaN], and a comparison with either is false.  A document whose
    table went through such an assignment is followed with the table as an
    array of cells. *)
Record HoledDocument := mkHoled {
  h_version : Z;
  h_content : text;
  h_tree : Tree;
  h_lineOffsets : list cell }.

Definition js_add (a b : jsnum) : jsnum :=
  match a, b with Fin x, Fin y => Fin (x + y) | _, _ => NaN end.
Definition js_sub (a b : jsnum) : jsnum :=
  match a, b with Fin x, Fin y => Fin (x - y) | _, _ => NaN end.
Definition js_min (a b : jsnum) : jsnum :=
  match a, b with Fin x, Fin y => Fin (Z.min x y) | _, _ => NaN end.
Definition js_max (a b : jsnum) : jsnum :=
  match a, b with Fin x, Fin y => Fin (Z.max x y) | _, _ => NaN end.
Definition js_gt (a b : jsnum) : bool :=
  match a, b with Fin x, Fin y => x >? y | _, _ => false end.

(** [undefined] as a number is [NaN]; [NaN] as a string index is 0. *)
Definition to_number (c : cell) : jsnum :=
  match c with Some n => n | None => NaN end.
Definition to_integer (n : jsnum) : Z :=
  match n with Fin z => z | NaN => 0 end.

(** [lineOffsets[i]]: [undefined] outside the array and in a hole. *)
Definition cell_at (l : list cell) (i : Z) : cell :=
  if i <? 0 then None else nth (Z.to_nat i) l None.

Definition holed_table (l : list Z) : list cell := map (fun z => Some (Fin z)) l.

Fixpoint positionAt_search_holed (fuel : nat) (lineOffsets : list cell)
    (ioffset : jsnum) (low high : Z) : Z :=
  match fuel with
  | O => low
  | S fuel' =>
      if low <? high then
        let mid := (low + high) / 2 in
        if js_gt (to_number (cell_at lineOffsets mid)) ioffset
        then positionAt_search_holed fuel' lineOffsets ioffset low mid
        else positionAt_search_holed fuel' lineOffsets ioffset (mid + 1) high
      else low
  end.

(** [positionAt] and [offsetAt] on such a table. *)
Definition positionAt_holed (content : text) (lineOffsets : list cell) (offset : jsnum)
  : Z * jsnum :=
  let ioffset := js_max (js_min offset (Fin (len content))) (Fin 0) in
  let high := Z.of_nat (length lineOffsets) in
  if high =? 0 then (0, ioffset)
  else
    let low := positionAt_search_holed (length lineOffsets) lineOffsets ioffset 0 high in
    let line := low - 1 in
    (line, js_sub ioffset (to_number (cell_at lineOffsets line))).

Definition offsetAt_holed (content : text) (lineOffsets : list cell) (position : Position)
  : jsnum :=
  if line position >=? Z.of_nat (length lineOffsets) then Fin (len content)
  else if line position <? 0 then Fin 0
  else
    let lineOffset := to_number (cell_at lineOffsets (line position)) in
    let nextLineOffset :=
      if line position + 1 <? Z.of_nat (length lineOffsets)
      then to_number (cell_at lineOffsets (line position + 1))
      else Fin (len content) in
    js_max (js_min (js_add lineOffset (Fin (character position))) nextLineOffset)
      lineOffset.

(** [computeLineOffsets(text, false, textOffset)] with an offset that may be
    [NaN]: every entry is [textOffset + i + 1]. *)
Definition computeLineOffsets_holed (t : text) (textOffset : jsnum) : list cell :=
  map (fun z => Some (js_add textOffset (Fin z))) (computeLineOffsets t false 0).

(** [lineOffsets[i] = v] on an array: past the end the array grows, with
    holes before the new element. *)
Definition array_set_holed (l : list cell) (i : nat) (v : cell) : list cell :=
  if (i <? length l)%nat then firstn i l ++ v :: skipn (S i) l
  else l ++ repeat None (i - length l) ++ [v].

Fixpoint overwrite_from_holed (l : list cell) (at0 : nat) (added : list cell)
  : list cell :=
  match added with
  | [] => l
  | v :: more => overwrite_from_holed (array_set_holed l at0 v) (S at0) more
  end.

(** [lineOffsets[i] += diff] from an index on. *)
Definition shift_from_holed (l : list cell) (from : nat) (diff : jsnum) : list cell :=
  firstn from l ++ map (fun c => Some (js_add (to_number c) diff)) (skipn from l).

(** The incremental branch of [update] on such a document. *)
Definition applyIncremental_holed (h : HoledDocument) (range0 : Range)
    (newText : text) : HoledDocument :=
  let range := getWellformedRange range0 in
  (* update content *)
  let lo0 := h_lineOffsets h in
  let startOffset := offsetAt_holed (h_content h) lo0 (start range) in
  let endOffset := offsetAt_holed (h_content h) lo0 (end_ range) in
  let content' :=
    substring (h_content h) 0 (to_integer startOffset) ++ newText
      ++ substring (h_content h) (to_integer endOffset) (len (h_content h)) in
  (* update the offsets *)
  let startLine := Z.max (line (start range)) 0 in
  let endLine := Z.max (line (end_ range)) 0 in
  let addedLineOffsets := computeLineOffsets_holed newText startOffset in
  let added := Z.of_nat (length addedLineOffsets) in
  let lo1 :=
    if endLine - startLine =? added then
      overwrite_from_holed lo0 (Z.to_nat (startLine + 1)) addedLineOffsets
    else if added <? 10000 then
      firstn (Z.to_nat (startLine + 1)) lo0 ++ addedLineOffsets
        ++ skipn (Z.to_nat (startLine + 1) + Z.to_nat (endLine - startLine)) lo0
    else
      firstn (Z.to_nat (startLine + 1)) lo0 ++ addedLineOffsets
        ++ skipn (Z.to_nat (endLine + 1)) lo0 in
  let diff := js_sub (Fin (len newText)) (js_sub endOffset startOffset) in
  let lo2 :=
    match diff with
    | Fin 0 => lo1
    | _ => shift_from_holed lo1 (Z.to_nat (startLine + 1 + added)) diff
    end in
  (* update tree *)
  let newEndOffset := js_add startOffset (Fin (len newText)) in
  let newEnd := positionAt_holed content' lo2 newEndOffset in
  {| h_version := h_version h;
     h_content := content';
     h_tree := tree_edit (h_tree h)
       {| startIndex := startOffset; oldEndIndex := endOffset;
          newEndIndex := newEndOffset;
          startPosition := start range;
          oldEndPosition := end_ range;
          newEndPosition := newEnd |};
     h_lineOffsets := lo2 |}.

(** *** The update of a document *)

(** What one call of [update] can come to: the document with a table
    without holes, a thrown error, or the document with a table that has
    been assigned past its end. *)
Inductive outcome (A : Type) :=
| Ok (a : A)
| Throws (msg : string)
| Sparse (h : HoledDocument).
Arguments Ok {A} a.
Arguments Throws {A} msg.
Arguments Sparse {A} h.

(** [lineOffsets[i] = v].  Inside the array the element is replaced, at
    [i = length] the array grows by one; further out the array gets holes
    ([None]), and the change is followed by [applyIncremental_holed]. *)
Definition array_set (l : list Z) (i : nat) (v : Z) : option (list Z) :=
  if (i <? length l)%nat then Some (firstn i l ++ v :: skipn (S i) l)
  else if (i =? length l)%nat then Some (l ++ [v])
  else None.

(** [for (i = 0; i < len; i++) lineOffsets[i + startLine + 1] = added[i]]. *)
Fixpoint overwrite_from (l : list Z) (at0 : nat) (added : list Z)
  : option (list Z) :=
  match added with
  | [] => Some l
  | v :: more =>
      match array_set l at0 v with
      | Some l' => overwrite_from l' (S at0) more
      | None => None
      end
  end.

(** [for (i = from; i < lineOffsets.length; i++) lineOffsets[i] += diff]. *)
Definition shift_from (l : list Z) (from : nat) (diff : Z) : list Z :=
  firstn from l ++ map (fun x => x + diff) (skipn from l).

(** A document seen with its table as an array of cells. *)
Definition holed_of (version : Z) (content : text) (tree : Tree) (table : list Z)
  : HoledDocument :=
  {| h_version := version; h_content := content; h_tree := tree;
     h_lineOffsets := holed_table table |}.

(** The incremental branch of the [forEach] body of [update]. *)
Definition applyIncremental (d : FullTextDocument) (range0 : Range)
    (newText : text) : outcome FullTextDocument :=
  let range := getWellformedRange range0 in
  (* update content *)
  let lo0 := lineOffsetsOf d in
  let startOffset := offsetAt_in (_content d) lo0 (start range) in
  let endOffset := offsetAt_in (_content d) lo0 (end_ range) in
  let content' :=
    substring (_content d) 0 startOffset ++ newText
      ++ substring (_content d) endOffset (len (_content d)) in
  (* update the offsets *)
  let startLine := Z.max (line (start range)) 0 in
  let endLine := Z.max (line (end_ range)) 0 in
  let addedLineOffsets := computeLineOffsets newText false startOffset in
  let added := Z.of_nat (length addedLineOffsets) in
  let spliced :=
    if endLine - startLine =? added then
      overwrite_from lo0 (Z.to_nat (startLine + 1)) addedLineOffsets
    else if added <? 10000 then
      (* lineOffsets.splice(startLine + 1, endLine - startLine, ...added) *)
      Some (firstn (Z.to_nat (startLine + 1)) lo0 ++ addedLineOffsets
              ++ skipn (Z.to_nat (startLine + 1) + Z.to_nat (endLine - startLine)) lo0)
    else
      Some (firstn (Z.to_nat (startLine + 1)) lo0 ++ addedLineOffsets
              ++ skipn (Z.to_nat (endLine + 1)) lo0) in
  match spliced with
  | None =>
      Sparse (applyIncremental_holed
                (holed_of (_version d) (_content d) (_tree d) lo0) range0 newText)
  | Some lo1 =>
      let diff := len newText - (endOffset - startOffset) in
      let lo2 :=
        if diff =? 0 then lo1
        else shift_from lo1 (Z.to_nat (startLine + 1 + added)) diff in
      (* update tree *)
      let newEndOffset := startOffset + len newText in
      let newEnd := positionAt_in content' lo2 newEndOffset in
      Ok {| _version := _version d;
            _content := content';
            _tree := tree_edit (_tree d)
              {| startIndex := Fin startOffset; oldEndIndex := Fin endOffset;
                 newEndIndex := Fin newEndOffset;
                 startPosition := start range;
                 oldEndPosition := end_ range;
                 newEndPosition := (line newEnd, Fin (character newEnd)) |};
            _lineOffsets := Some lo2 |}
  end.

Definition applyChange (d : FullTextDocument)
    (change : TextDocumentContentChangeEvent) : outcome FullTextDocument :=
  match change with
  | Incremental range newText => applyIncremental d range newText
  | Full newText =>
      Ok {| _version := _version d; _content := newText; _tree := _tree d;
            _lineOffsets := None |}
  | Unrecognised => Throws "Unknown change event received"
  end.

(** The body of the [forEach] on a document with a holed table: a
    whole-text change drops the table, and the document is an ordinary one
    again. *)
Definition applyChange_holed (h : HoledDocument)
    (change : TextDocumentContentChangeEvent) : outcome FullTextDocument :=
  match change with
  | Incremental range newText => Sparse (applyIncremental_holed h range newText)
  | Full newText =>
      Ok {| _version := h_version h; _content := newText; _tree := h_tree h;
            _lineOffsets := None |}
  | Unrecognised => Throws "Unknown change event received"
  end.

Fixpoint applyChanges (d : FullTextDocument)
    (changes : list TextDocumentContentChangeEvent) : outcome FullTextDocument :=
  match changes with
  | [] => Ok d
  | c :: more =>
      match applyChange d c with
      | Ok d' => applyChanges d' more
      | Throws m => Throws m
      | Sparse h => applyChanges_holed h more
      end
  end
with applyChanges_holed (h : HoledDocument)
    (changes : list TextDocumentContentChangeEvent) : outcome FullTextDocument :=
  match changes with
  | [] => Sparse h
  | c :: more =>
      match applyChange_holed h c with
      | Ok d' => applyChanges d' more
      | Throws m => Throws m
      | Sparse h' => applyChanges_holed h' more
      end
  end.

(** What [update] does after the changes: the text is parsed again, with
    the tree the changes have left handed to the parser, and the version is
    set. *)
Definition finish_update (version : Z) (r : outcome FullTextDocument)
  : outcome FullTextDocument :=
  match r with
  | Ok d' =>
      Ok {| _version := version; _content := _content d';
            _tree := parse_with (_content d') (_tree d');
            _lineOffsets := _lineOffsets d' |}
  | Throws m => Throws m
  | Sparse h =>
      Sparse {| h_version := version; h_content := h_content h;
                h_tree := parse_with (h_content h) (h_tree h);
                h_lineOffsets := h_lineOffsets h |}
  end.

(** [update(changes, version)], on a document and on one with a holed
    table. *)
Definition update (d : FullTextDocument)
    (changes : list TextDocumentContentChangeEvent) (version : Z)
  : outcome FullTextDocument :=
  finish_update version (applyChanges d changes).

Definition update_holed (h : HoledDocument)
    (changes : list TextDocumentContentChangeEvent) (version : Z)
  : outcome FullTextDocument :=
  finish_update version (applyChanges_holed h changes).

(** [reparse()]: a parse from scratch. *)
Definition reparse (d : FullTextDocument) : FullTextDocument :=
  {| _version := _version d; _content := _content d;
     _tree := parse (_content d); _lineOffsets := _lineOffsets d |}.

(** *** The text document as its owner holds it

    A [Document] keeps one text document for good and updates it in place,
    so what it holds is the document in either shape: with a table without
    holes, or with one that was assigned past its end. *)
Inductive TreeSitterTextDocument :=
| Clean (d : FullTextDocument)
| Holed (h : HoledDocument).

Definition ts_version (t : TreeSitterTextDocument) : Z :=
  match t with Clean d => _version d | Holed h => h_version h end.
Definition ts_text (t : TreeSitterTextDocument) : text :=
  match t with Clean d => _content d | Holed h => h_content h end.
Definition ts_tree (t : TreeSitterTextDocument) : Tree :=
  match t with Clean d => _tree d | Holed h => h_tree h end.

(** The document after a call that returned; [None] when it threw. *)
Definition returned (r : outcome FullTextDocument) : option TreeSitterTextDocument :=
  match r with
  | Ok d => Some (Clean d)
  | Throws _ => None
  | Sparse h => Some (Holed h)
  end.

(** [TreeSitterTextDocument.update(document, changes, version)] and
    [TreeSitterTextDocument.reparse(document)]. *)
Definition ts_update (t : TreeSitterTextDocument)
    (changes : list TextDocumentContentChangeEvent) (version : Z)
  : option TreeSitterTextDocument :=
  match t with
  | Clean d => returned (update d changes version)
  | Holed h => returned (update_holed h changes version)
  end.

Definition ts_reparse (t : TreeSitterTextDocument) : TreeSitterTextDocument :=
  match t with
  | Clean d => Clean (reparse d)
  | Holed h =>
      Holed {| h_version := h_version h; h_content := h_content h;
               h_tree := parse (h_content h); h_lineOffsets := h_lineOffsets h |}
  end.

Definition ofString (s : string) : text := String.list_ascii_of_string s.

(** What the loop leaves in [low]: the least index whose line offset is
    larger than the offset sought, or the length of the table. *)
Definition search_post (l : list Z) (x r : Z) : Prop :=
  0 <= r <= Z.of_nat (length l) /\
  (forall k, 0 <= k < r -> at_ l k <= x) /\
  (forall k, r <= k < Z.of_nat (length l) -> x < at_ l k).

(** A range whose start lies after its end, and the range with the two
    positions exchanged. *)
Definition malformed (r : Range) : Prop :=
  line (start r) > line (end_ r)
  \/ (line (start r) = line (end_ r) /\ character (start r) > character (end_ r)).

Definition swap (r : Range) : Range := {| start := end_ r; end_ := start r |}.

(** [getText(range?)]. *)
Definition getText (d : FullTextDocument) (range : option Range) : text :=
  match range with
  | Some r => substring (_content d) (offsetAt d (start r)) (offsetAt d (end_ r))
  | None => _content d
  end.

(** The offset [positionAt] works with: [Math.max(Math.min(offset, length), 0)]. *)
Definition clamp (content : text) (offset : Z) : Z :=
  Z.max (Z.min offset (len content)) 0.

(** Positions in reading order. *)
Definition pos_le (p q : Position) : Prop :=
  line p < line q \/ (line p = line q /\ character p <= character q).

Definition pos_lt (p q : Position) : Prop :=
  line p < line q \/ (line p = line q /\ character p < character q).

End TextDocument.

(* ===================================================================== *)
(** ** Reference keys: types/queryWrappers.ts, class Reference           *)
(* ===================================================================== *)

Module QueryWrappers.

Inductive ReferenceType := mail | media | record | web | unknown.

(** The regular expressions of [Reference.type], as syntax, and a matcher by
    derivatives.  [Class p] is a character class, [Empty] matches the empty
    string, [Never] matches nothing. *)
Inductive regex :=
| Never
| Empty
| Class (p : ascii -> bool)
| Seq (r1 r2 : regex)
| Alt (r1 r2 : regex)
| Star (r : regex).

Fixpoint nullable (r : regex) : bool :=
  match r with
  | Never => false
  | Empty => true
  | Class _ => false
  | Seq r1 r2 => nullable r1 && nullable r2
  | Alt r1 r2 => nullable r1 || nullable r2
  | Star _ => true
  end.

Fixpoint deriv (c : ascii) (r : regex) : regex :=
  match r with
  | Never => Never
  | Empty => Never
  | Class p => if p c then Empty else Never
  | Seq r1 r2 =>
      if nullable r1 then Alt (Seq (deriv c r1) r2) (deriv c r2)
      else Seq (deriv c r1) r2
  | Alt r1 r2 => Alt (deriv c r1) (deriv c r2)
  | Star r => Seq (deriv c r) (Star r)
  end.

(** [/^r/.test(s)]: the pattern is anchored at the start only, so the test
    succeeds when some prefix of [s] matches [r]. *)
Fixpoint test (r : regex) (s : list ascii) : bool :=
  nullable r ||
  match s with
  | [] => false
  | c :: s' => test (deriv c r) s'
  end.

Definition lit (c : ascii) : regex := Class (Ascii.eqb c).

Fixpoint word (w : list ascii) : regex :=
  match w with
  | [] => Empty
  | c :: w' => Seq (lit c) (word w')
  end.

Definition plus (r : regex) : regex := Seq r (Star r).
Definition opt (r : regex) : regex := Alt r Empty.

Fixpoint times (n : nat) (r : regex) : regex :=
  match n with
  | O => Empty
  | S n' => Seq r (times n' r)
  end.

(** [[^. ]] and [[a-z]]. *)
Definition notDotSpace (c : ascii) : bool :=
  negb (Ascii.eqb c "."%char || Ascii.eqb c " "%char).

Definition lower (c : ascii) : bool :=
  ((97 <=? nat_of_ascii c) && (nat_of_ascii c <=? 122))%nat.

Definition chars (s : string) : list ascii := String.list_ascii_of_string s.

(** [/^https?:\/\//]. *)
Definition web_pattern : regex :=
  Seq (word (chars "http")) (Seq (opt (lit "s"%char)) (word (chars "://"))).

(** [/^[^. ]+\.[^. ]+\.[a-z]{8}/]. *)
Definition record_pattern : regex :=
  Seq (plus (Class notDotSpace))
    (Seq (lit "."%char)
       (Seq (plus (Class notDotSpace))
          (Seq (lit "."%char) (times 8 (Class lower))))).

(** [key.includes(' ')] and [key.slice(0, n) === w]. *)
Definition includes_space (key : list ascii) : bool :=
  existsb (Ascii.eqb " "%char) key.

Definition list_ascii_eqb (a b : list ascii) : bool :=
  bool_decide (a = b).

Definition slice_is (n : nat) (key w : list ascii) : bool :=
  list_ascii_eqb (firstn n key) w.

(** [get type()]. *)
Definition type (key : string) : ReferenceType :=
  let k := chars key in
  if includes_space k then unknown
  else if slice_is 5 k (chars "mail:") then mail
  else if slice_is 1 k (chars "/") then media
  else if test web_pattern k then web
  else if test record_pattern k then record
  else unknown.

(** *** The classification as the specification words it

    Kept apart from [type]: whitespace of any kind, and a third
    dot-separated segment of exactly eight characters. *)
Definition is_whitespace (c : ascii) : bool :=
  let n := nat_of_ascii c in
  ((n =? 32) || ((9 <=? n) && (n <=? 13)))%nat.

Fixpoint split_on (sep : ascii) (s : list ascii) : list (list ascii) :=
  match s with
  | [] => [[]]
  | c :: s' =>
      if Ascii.eqb c sep then [] :: split_on sep s'
      else match split_on sep s' with
           | seg :: segs => (c :: seg) :: segs
           | [] => [[c]]
           end
  end.

Definition type_spec (key : string) : ReferenceType :=
  let k := chars key in
  if existsb is_whitespace k then unknown
  else if slice_is 5 k (chars "mail:") then mail
  else if slice_is 1 k (chars "/") then media
  else if slice_is 7 k (chars "http://") || slice_is 8 k (chars "https://") then web
  else match nth_error (split_on "."%char k) 2 with
       | Some seg => if (length seg =? 8)%nat then record else unknown
       | None => unknown
       end.

(** Regular-expression matching as a relation, to say what [test] decides. *)
Inductive matches : regex -> list ascii -> Prop :=
| m_empty : matches Empty []
| m_class p c : p c = true -> matches (Class p) [c]
| m_seq r1 r2 s1 s2 : matches r1 s1 -> matches r2 s2 -> matches (Seq r1 r2) (s1 ++ s2)
| m_alt_l r1 r2 s : matches r1 s -> matches (Alt r1 r2) s
| m_alt_r r1 r2 s : matches r2 s -> matches (Alt r1 r2) s
| m_star_nil r : matches (Star r) []
| m_star_cons r s1 s2 : matches r s1 -> matches (Star r) s2 -> matches (Star r) (s1 ++ s2).

(** The shape the record rule accepts: two non-empty segments free of dots
    and spaces, each followed by a dot, then eight lower-case letters (and
    anything after them). *)
Definition record_shape (k : list ascii) : Prop :=
  exists a b w rest,
    k = a ++ "."%char :: b ++ "."%char :: w ++ rest /\
    a <> [] /\ b <> [] /\
    forallb notDotSpace a = true /\ forallb notDotSpace b = true /\
    length w = 8%nat /\ forallb lower w = true.

Definition web_shape (k : list ascii) : Prop :=
  exists rest, k = chars "http://" ++ rest \/ k = chars "https://" ++ rest.

(** A key with a tab and no space. *)
Definition tab_key : string :=
  String.append "mail:a" (String (ascii_of_nat 9) "b").

End QueryWrappers.

(* ===================================================================== *)
(** ** Store, task manager and server: store.ts, taskManager.ts, server.ts *)
(* ===================================================================== *)

Module Server.

Local Open Scope nat_scope.

Inductive DocumentState := editing | indexing.
Inductive TaskOperation := audit | extract | index.
Inductive WorkspaceType := single_file | multi_file.

(** The entities of the store, with the fields the scheduler and the
    open/close handlers read.  Associations ([doc.workspace], [task.job],
    [job.task], ...) are store queries, as in the source. *)
Record Workspace := mkWorkspace { ws_id : nat; ws_uri : string }.

Record Document := mkDocument {
  doc_id : nat; doc_uri : string; doc_workspaceId : nat;
  doc_state : DocumentState }.

Record Task := mkTask {
  task_id : nat; operation : TaskOperation;
  documentId : option nat; workspaceId : option nat;
  dependencyIds : list nat; lastCompleted : option nat }.

(** A [Job] owns its promise; the completion handle is identified with the
    job id. *)
Record Job := mkJob { job_id : nat; taskId : nat }.

(** What can be observed of a run: [executeTask(task)] is entered,
    [task.lastCompleted] is stamped, [job.fulfill()] settles the handle. *)
Inductive Event :=
| ExecStart (jobId tId : nat)
| Completed (tId now : nat)
| Fulfilled (jobId : nat).

(** The four collections of [Store], the static [idCounter]s of the model
    classes, and the fields of [TaskManager].  [suspended] holds the
    activations of [processJob] that wait at [await this.executeTask(task)],
    as pairs of job id and task id. *)
Record State := mkState {
  documents : list Document;
  workspaces : list Workspace;
  tasks : list Task;
  jobs : list Job;
  workspaceIdCounter : nat;
  documentIdCounter : nat;
  taskIdCounter : nat;
  jobIdCounter : nat;
  priorityQueue : list nat;
  cancelled : gset nat;
  suspended : list (nat * nat);
  trace : list Event }.

Definition set_documents (v : list Document) (s : State) : State :=
  mkState v (workspaces s) (tasks s) (jobs s) (workspaceIdCounter s)
    (documentIdCounter s) (taskIdCounter s) (jobIdCounter s) (priorityQueue s)
    (cancelled s) (suspended s) (trace s).
Definition set_workspaces (v : list Workspace) (s : State) : State :=
  mkState (documents s) v (tasks s) (jobs s) (workspaceIdCounter s)
    (documentIdCounter s) (taskIdCounter s) (jobIdCounter s) (priorityQueue s)
    (cancelled s) (suspended s) (trace s).
Definition set_tasks (v : list Task) (s : State) : State :=
  mkState (documents s) (workspaces s) v (jobs s) (workspaceIdCounter s)
    (documentIdCounter s) (taskIdCounter s) (jobIdCounter s) (priorityQueue s)
    (cancelled s) (suspended s) (trace s).
Definition set_jobs (v : list Job) (s : State) : State :=
  mkState (documents s) (workspaces s) (tasks s) v (workspaceIdCounter s)
    (documentIdCounter s) (taskIdCounter s) (jobIdCounter s) (priorityQueue s)
    (cancelled s) (suspended s) (trace s).
Definition set_workspaceIdCounter (v : nat) (s : State) : State :=
  mkState (documents s) (workspaces s) (tasks s) (jobs s) v
    (documentIdCounter s) (taskIdCounter s) (jobIdCounter s) (priorityQueue s)
    (cancelled s) (suspended s) (trace s).
Definition set_documentIdCounter (v : nat) (s : State) : State :=
  mkState (documents s) (workspaces s) (tasks s) (jobs s) (workspaceIdCounter s)
    v (taskIdCounter s) (jobIdCounter s) (priorityQueue s)
    (cancelled s) (suspended s) (trace s).
Definition set_taskIdCounter (v : nat) (s : State) : State :=
  mkState (documents s) (workspaces s) (tasks s) (jobs s) (workspaceIdCounter s)
    (documentIdCounter s) v (jobIdCounter s) (priorityQueue s)
    (cancelled s) (suspended s) (trace s).
Definition set_jobIdCounter (v : nat) (s : State) : State :=
  mkState (documents s) (workspaces s) (tasks s) (jobs s) (workspaceIdCounter s)
    (documentIdCounter s) (taskIdCounter s) v (priorityQueue s)
    (cancelled s) (suspended s) (trace s).
Definition set_priorityQueue (v : list nat) (s : State) : State :=
  mkState (documents s) (workspaces s) (tasks s) (jobs s) (workspaceIdCounter s)
    (documentIdCounter s) (taskIdCounter s) (jobIdCounter s) v
    (cancelled s) (suspended s) (trace s).
Definition set_cancelled (v : gset nat) (s : State) : State :=
  mkState (documents s) (workspaces s) (tasks s) (jobs s) (workspaceIdCounter s)
    (documentIdCounter s) (taskIdCounter s) (jobIdCounter s) (priorityQueue s)
    v (suspended s) (trace s).
Definition set_suspended (v : list (nat * nat)) (s : State) : State :=
  mkState (documents s) (workspaces s) (tasks s) (jobs s) (workspaceIdCounter s)
    (documentIdCounter s) (taskIdCounter s) (jobIdCounter s) (priorityQueue s)
    (cancelled s) v (trace s).
Definition set_trace (v : list Event) (s : State) : State :=
  mkState (documents s) (workspaces s) (tasks s) (jobs s) (workspaceIdCounter s)
    (documentIdCounter s) (taskIdCounter s) (jobIdCounter s) (priorityQueue s)
    (cancelled s) (suspended s) v.

(** *** Collection lookups ([collection.by(field, value)], [find]) *)

Definition documents_by_uri (s : State) (uri : string) : option Document :=
  List.find (fun d => String.eqb (doc_uri d) uri) (documents s).
Definition documents_by_id (s : State) (id : nat) : option Document :=
  List.find (fun d => doc_id d =? id) (documents s).
Definition workspaces_by_uri (s : State) (uri : string) : option Workspace :=
  List.find (fun w => String.eqb (ws_uri w) uri) (workspaces s).
Definition workspaces_by_id (s : State) (id : nat) : option Workspace :=
  List.find (fun w => ws_id w =? id) (workspaces s).
Definition tasks_by_id (s : State) (id : nat) : option Task :=
  List.find (fun t => task_id t =? id) (tasks s).
Definition jobs_by_id (s : State) (id : nat) : option Job :=
  List.find (fun j => job_id j =? id) (jobs s).
Definition jobs_by_taskId (s : State) (tid : nat) : option Job :=
  List.find (fun j => taskId j =? tid) (jobs s).

Definition mem (x : nat) (l : list nat) : bool := existsb (Nat.eqb x) l.

Definition documentId_is (id : nat) (t : Task) : bool :=
  match documentId t with Some d => d =? id | None => false end.

(** [task.dependencies]: the stored tasks whose id is in [dependencyIds], in
    store order.  [doc.tasks], [doc.auditTask], [workspace.documents]. *)
Definition dependencies (s : State) (t : Task) : list Task :=
  List.filter (fun d => mem (task_id d) (dependencyIds t)) (tasks s).
Definition doc_tasks (s : State) (d : Document) : list Task :=
  List.filter (documentId_is (doc_id d)) (tasks s).
Definition auditTask (s : State) (d : Document) : option Task :=
  List.find (fun t => documentId_is (doc_id d) t
                      && match operation t with audit => true | _ => false end)
    (tasks s).
Definition ws_documents (s : State) (w : Workspace) : list Document :=
  List.filter (fun d => doc_workspaceId d =? ws_id w) (documents s).

(** [/\.rst$/.test(this.uri)]. *)
Definition ends_with_rst (uri : string) : bool :=
  bool_decide (firstn 4 (rev (String.list_ascii_of_string uri))
               = rev (String.list_ascii_of_string ".rst")).

Definition ws_type (w : Workspace) : WorkspaceType :=
  if ends_with_rst (ws_uri w) then single_file else multi_file.

(** *** TaskManager *)

(** [jobCompare]; [None] when a [safeCollectionGet] or a property access on
    an undefined task throws. *)
Definition jobCompare (s : State) (jobId1 jobId2 : nat) : option Z :=
  if bool_decide (jobId1 ∈ cancelled s) then Some 1%Z
  else if bool_decide (jobId2 ∈ cancelled s) then Some (-1)%Z
  else
    match jobs_by_id s jobId1, jobs_by_id s jobId2 with
    | Some job1, Some job2 =>
        match tasks_by_id s (taskId job1), tasks_by_id s (taskId job2) with
        | Some task1, Some task2 =>
            if mem (task_id task2) (dependencyIds task1) then Some (-1)%Z
            else if mem (task_id task1) (dependencyIds task2) then Some 1%Z
            else Some 0%Z
        | _, _ => None
        end
    | _, _ => None
    end.

(** The priority queue of the [priorityqueue] package, which is not part of
    the repository: [push] adds an id, [pop] removes and returns an id that
    is greatest under the comparator.  Every reachable state has an empty
    queue between two calls (lemma [queue_empty]), so that only the
    behaviour on a one-element queue is ever relied on. *)
Fixpoint pq_top (cmp : nat -> nat -> option Z) (best : nat) (rest : list nat)
  : option nat :=
  match rest with
  | [] => Some best
  | y :: rest' =>
      match cmp y best with
      | Some c => pq_top cmp (if (0 <? c)%Z then y else best) rest'
      | None => None
      end
  end.

Fixpoint remove_first (x : nat) (l : list nat) : list nat :=
  match l with
  | [] => []
  | y :: l' => if y =? x then l' else y :: remove_first x l'
  end.

Definition pq_push (q : list nat) (x : nat) : list nat := q ++ [x].

Definition pq_pop (cmp : nat -> nat -> option Z) (q : list nat)
  : option (nat * list nat) :=
  match q with
  | [] => None
  | x :: rest =>
      match pq_top cmp x rest with
      | Some top => Some (top, remove_first top q)
      | None => None
      end
  end.

(** [cancelJob]. *)
Definition cancelJob (jobId : nat) (s : State) : State :=
  set_cancelled ({[jobId]} ∪ cancelled s) s.

(** [processJob], up to its [await]: a cancelled id is unmarked and dropped;
    otherwise [executeTask(task)] is entered and the activation is suspended
    until the promise of [executeTask] settles.  A failing lookup rejects the
    promise of [processJob], which nobody observes. *)
Definition processJob (jobId : nat) (s : State) : State :=
  if bool_decide (jobId ∈ cancelled s) then
    set_cancelled (cancelled s ∖ {[jobId]}) s
  else
    match jobs_by_id s jobId with
    | None => s
    | Some job =>
        match tasks_by_id s (taskId job) with
        | None => s
        | Some task =>
            set_suspended (suspended s ++ [(jobId, task_id task)])
              (set_trace (trace s ++ [ExecStart jobId (task_id task)]) s)
        end
    end.

(** The subscriber of [jobQueue$].  A [Subject] of rxjs calls its
    subscribers inside [next], so this runs, up to the [await] of
    [processJob], before [next] returns. *)
Definition signal (s : State) : State :=
  match pq_pop (jobCompare s) (priorityQueue s) with
  | Some (jobId, q') => processJob jobId (set_priorityQueue q' s)
  | None => s
  end.

(** [store.jobs.insert(newJob)]: the collection has the unique keys [id] and
    [taskId]; a duplicate key throws. *)
Definition jobs_insert (j : Job) (s : State) : option State :=
  if existsb (fun j' => (job_id j' =? job_id j) || (taskId j' =? taskId j)) (jobs s)
  then None
  else Some (set_jobs (jobs s ++ [j]) s).

(** [executeTask] of an audit task reads and updates the document of the
    task; the promise rejects when there is none. *)
Definition executeTask_resolves (s : State) (t : Task) : bool :=
  match operation t with
  | audit =>
      match documentId t with
      | Some d => match documents_by_id s d with Some _ => true | None => false end
      | None => false
      end
  | _ => true
  end.

(** [submitTask].  The recursion of the source follows the dependencies and
    need not end (a task that depends on itself); [fuel] bounds the depth of
    the calls, and [None] is a thrown exception or the exhausted bound. *)
Fixpoint submitTask (fuel : nat) (task : Task) (s : State) : option (nat * State) :=
  match fuel with
  | O => None
  | S fuel' =>
      match jobs_by_taskId s (task_id task) with
      | Some job => Some (job_id job, s)
      | None =>
          let forEach :=
            fold_left
              (fun acc depTask =>
                 match acc with
                 | None => None
                 | Some s' =>
                     match lastCompleted depTask, jobs_by_taskId s' (task_id depTask) with
                     | None, None =>  (* unscheduled *)
                         match submitTask fuel' depTask s' with
                         | Some (_, s'') => Some s''
                         | None => None
                         end
                     | _, _ => Some s'
                     end
                 end)
              (dependencies s task) (Some s) in
          match forEach with
          | None => None
          | Some s1 =>
              let newJob := mkJob (S (jobIdCounter s1)) (task_id task) in
              match jobs_insert newJob (set_jobIdCounter (S (jobIdCounter s1)) s1) with
              | None => None
              | Some s2 =>
                  let s3 := set_priorityQueue (pq_push (priorityQueue s2) (job_id newJob)) s2 in
                  Some (job_id newJob, signal s3)
              end
          end
      end
  end.

(** [submitTask(taskIdent)] with a number: [safeCollectionGet] first. *)
Definition submitTask_id (fuel : nat) (tid : nat) (s : State) : option (nat * State) :=
  match tasks_by_id s tid with
  | Some task => submitTask fuel task s
  | None => None
  end.

(** The rest of [processJob], run when the promise of [executeTask] has
    settled: [task.lastCompleted = Date.now()], [store.tasks.update(task)],
    [job.fulfill()], [store.jobs.findAndRemove({ id })].  The activation ends
    without these when [executeTask] rejected, or when the task is no longer
    in the collection, where [update] throws.  [None]: no activation of that
    job is suspended. *)
Definition resume (jobId now : nat) (s : State) : option State :=
  match List.find (fun p => fst p =? jobId) (suspended s) with
  | None => None
  | Some (_, tid) =>
      let s1 := set_suspended (List.filter (fun p => negb (fst p =? jobId)) (suspended s)) s in
      match tasks_by_id s tid with
      | None => Some s1
      | Some task =>
          if executeTask_resolves s task then
            let task' := mkTask (task_id task) (operation task) (documentId task)
                           (workspaceId task) (dependencyIds task) (Some now) in
            Some (set_jobs (List.filter (fun j => negb (job_id j =? jobId)) (jobs s1))
                    (set_trace (trace s1 ++ [Completed tid now; Fulfilled jobId])
                       (set_tasks (map (fun t => if task_id t =? tid then task' else t)
                                     (tasks s1)) s1)))
          else Some s1
      end
  end.

(** *** Server *)

(** [dropDocument]: every task of the document loses its job (cancelled and
    removed) and is removed, then the document. *)
Definition dropTask (s : State) (t : Task) : State :=
  let s1 :=
    match jobs_by_taskId s (task_id t) with
    | Some job =>
        let s' := cancelJob (job_id job) s in
        set_jobs (List.filter (fun j => negb (job_id j =? job_id job)) (jobs s')) s'
    | None => s
    end in
  set_tasks (List.filter (fun t' => negb (task_id t' =? task_id t)) (tasks s1)) s1.

Definition dropDocument (d : Document) (s : State) : State :=
  let s1 := fold_left dropTask (doc_tasks s d) s in
  set_documents (List.filter (fun d' => negb (doc_id d' =? doc_id d)) (documents s1)) s1.

(** [dropWorkspace] on a workspace object, and on a uri
    ([normalizeWorkspace] throws when no workspace has it). *)
Definition dropWorkspace (w : Workspace) (s : State) : State :=
  let s1 := fold_left (fun acc d => dropDocument d acc) (ws_documents s w) s in
  set_workspaces (List.filter (fun w' => negb (ws_id w' =? ws_id w)) (workspaces s1)) s1.

Definition dropWorkspace_uri (uri : string) (s : State) : option State :=
  match workspaces_by_uri s uri with
  | Some w => Some (dropWorkspace w s)
  | None => None
  end.

Definition documents_update (d : Document) (s : State) : State :=
  set_documents (map (fun d' => if doc_id d' =? doc_id d then d else d') (documents s)) s.

(** [onDidCloseTextDocument].  The test under [every] reads [doc.state], the
    state of the document that is being closed, as the source does. *)
Definition onDidCloseTextDocument (uri : string) (s : State) : option State :=
  match documents_by_uri s uri with
  | None => None
  | Some doc =>
      match workspaces_by_id s (doc_workspaceId doc) with
      | None => None
      | Some ws =>
          match ws_type ws with
          | single_file => dropWorkspace_uri uri s
          | multi_file =>
              let noRemainingDocsOpen :=
                forallb (fun idoc =>
                           String.eqb (doc_uri idoc) uri
                           || match doc_state doc with indexing => true | editing => false end)
                  (ws_documents s ws) in
              if noRemainingDocsOpen then Some (dropWorkspace ws s)
              else
                Some (documents_update
                        (mkDocument (doc_id doc) (doc_uri doc) (doc_workspaceId doc) indexing) s)
          end
      end
  end.

(** [addWorkspace]; [docUris] is what [resolveWorkspaceDocuments] finds on
    disk for a multi-file workspace.  The collections reject a second
    workspace or document with the same uri. *)
Definition addDocument (wsUri : string) (wsId : nat) (acc : option State) (furi : string)
  : option State :=
  match acc with
  | None => None
  | Some s =>
      let id := S (documentIdCounter s) in
      let s1 := set_documentIdCounter id s in
      match documents_by_uri s1 furi with
      | Some _ => None
      | None =>
          let st := if String.eqb wsUri furi then editing else indexing in
          Some (set_documents (documents s1 ++ [mkDocument id furi wsId st]) s1)
      end
  end.

Definition addTask (s : State) (docId : nat) : State :=
  let id := S (taskIdCounter s) in
  set_tasks (tasks s ++ [mkTask id audit (Some docId) None [] None])
    (set_taskIdCounter id s).

Definition addWorkspace (uri : string) (docUris : list string) (s : State)
  : option State :=
  let w := mkWorkspace (S (workspaceIdCounter s)) uri in
  let s1 := set_workspaceIdCounter (ws_id w) s in
  match workspaces_by_uri s1 uri with
  | Some _ => None
  | None =>
      let s2 := set_workspaces (workspaces s1 ++ [w]) s1 in
      let docPaths := match ws_type w with single_file => [uri] | multi_file => docUris end in
      match fold_left (addDocument uri (ws_id w)) docPaths (Some s2) with
      | None => None
      | Some s3 =>
          let newDocs := skipn (length (documents s2)) (documents s3) in
          Some (fold_left addTask (map doc_id newDocs) s3)
      end
  end.

(** [getDiagnostics(doc)] and the [audit] request: [submitTask(doc.auditTask)]. *)
Definition audit_request (fuel : nat) (uri : string) (s : State) : option (nat * State) :=
  match documents_by_uri s uri with
  | None => None
  | Some doc =>
      match auditTask s doc with
      | Some t => submitTask fuel t s
      | None => None
      end
  end.

(** [onDidOpenTextDocument] for a document whose workspace is in the store. *)
Definition onDidOpenTextDocument (fuel : nat) (uri : string) (s : State) : option State :=
  match documents_by_uri s uri with
  | None => None
  | Some doc =>
      let s1 := documents_update
                  (mkDocument (doc_id doc) (doc_uri doc) (doc_workspaceId doc) editing) s in
      match audit_request fuel uri s1 with
      | Some (_, s2) => Some s2
      | None => None
      end
  end.

(** *** Runs *)

(** What the server and its callers can do between two turns of the event
    loop.  [Resume] is the event loop itself, continuing a suspended
    [processJob]. *)
Inductive action :=
| SubmitTask (fuel : nat) (tid : nat)
| CancelJob (jobId : nat)
| Resume (jobId now : nat)
| Audit (fuel : nat) (uri : string)
| DidOpen (fuel : nat) (uri : string)
| DidClose (uri : string)
| DropDocument (docId : nat)
| DropWorkspace (uri : string)
| AddWorkspace (uri : string) (docUris : list string).

Definition step (a : action) (s : State) : option State :=
  match a with
  | SubmitTask fuel tid =>
      match submitTask_id fuel tid s with Some (_, s') => Some s' | None => None end
  | CancelJob jobId => Some (cancelJob jobId s)
  | Resume jobId now => resume jobId now s
  | Audit fuel uri =>
      match audit_request fuel uri s with Some (_, s') => Some s' | None => None end
  | DidOpen fuel uri => onDidOpenTextDocument fuel uri s
  | DidClose uri => onDidCloseTextDocument uri s
  | DropDocument docId =>
      match documents_by_id s docId with
      | Some d => Some (dropDocument d s)
      | None => None
      end
  | DropWorkspace uri => dropWorkspace_uri uri s
  | AddWorkspace uri docUris => addWorkspace uri docUris s
  end.

Fixpoint run (acts : list action) (s : State) : option State :=
  match acts with
  | [] => Some s
  | a :: more =>
      match step a s with
      | Some s' => run more s'
      | None => None
      end
  end.

(** [TaskManager.cancelJob] is public, but the server calls it from
    [dropDocument] only; a run of the server has no bare [CancelJob]. *)
Definition server_action (a : action) : bool :=
  match a with CancelJob _ => false | _ => true end.

Definition empty : State :=
  mkState [] [] [] [] 0 0 0 0 [] ∅ [] [].

(** *** Notions used to state the properties *)

(** The part of [submitTask] after the [forEach]: a new job is created,
    inserted, pushed and the queue is signalled. *)
Definition schedule (task : Task) (s1 : State) : option (nat * State) :=
  let newJob := mkJob (S (jobIdCounter s1)) (task_id task) in
  match jobs_insert newJob (set_jobIdCounter (S (jobIdCounter s1)) s1) with
  | None => None
  | Some s2 =>
      let s3 := set_priorityQueue (pq_push (priorityQueue s2) (job_id newJob)) s2 in
      Some (job_id newJob, signal s3)
  end.

(** The callback of the [forEach] over the dependencies. *)
Definition visit (rec : Task -> State -> option (nat * State))
    (acc : option State) (depTask : Task) : option State :=
  match acc with
  | None => None
  | Some s' =>
      match lastCompleted depTask, jobs_by_taskId s' (task_id depTask) with
      | None, None =>
          match rec depTask s' with
          | Some (_, s'') => Some s''
          | None => None
          end
      | _, _ => Some s'
      end
  end.

Definition event_job (e : Event) : option nat :=
  match e with
  | ExecStart j _ => Some j
  | Completed _ _ => None
  | Fulfilled j => Some j
  end.

Definition is_ExecStart_of (tid : nat) (e : Event) : bool :=
  match e with ExecStart _ t => t =? tid | _ => false end.

(** How often the unit of work of a task has been entered. *)
Definition executions (tid : nat) (tr : list Event) : nat :=
  length (List.filter (is_ExecStart_of tid) tr).

(** The state between two turns: the queue is drained, job ids are unique
    and were handed out by the counter, at most one job is stored per task,
    and so for the suspended activations and the events. *)
Record wf (s : State) : Prop := mk_wf {
  wf_queue : priorityQueue s = [];
  wf_job_ids : Forall (fun j => job_id j <= jobIdCounter s) (jobs s);
  wf_job_id_unique : List.NoDup (map job_id (jobs s));
  wf_job_task_unique : List.NoDup (map taskId (jobs s));
  wf_suspended_ids : Forall (fun p => fst p <= jobIdCounter s) (suspended s);
  wf_suspended_unique : List.NoDup (map fst (suspended s));
  wf_trace_ids :
    Forall (fun e => match event_job e with Some j => j <= jobIdCounter s | None => True end)
      (trace s);
  wf_task_ids : Forall (fun t => task_id t <= taskIdCounter s) (tasks s) }.

(** No job id has been cancelled before the job exists. *)
Definition cancelled_past (s : State) : Prop :=
  forall id, id ∈ cancelled s -> id <= jobIdCounter s.


(** A state in which nothing has been scheduled yet. *)
Definition idle (s : State) : Prop :=
  jobs s = [] /\ priorityQueue s = [] /\ cancelled s = ∅
  /\ suspended s = [] /\ trace s = []
  /\ Forall (fun t => task_id t <= taskIdCounter s) (tasks s).

(** What [submitTask] may change. *)
Record grows (s s' : State) : Prop := mk_grows {
  g_documents : documents s' = documents s;
  g_workspaces : workspaces s' = workspaces s;
  g_tasks : tasks s' = tasks s;
  g_taskIdCounter : taskIdCounter s' = taskIdCounter s;
  g_counter : jobIdCounter s <= jobIdCounter s';
  g_jobs : exists nj, jobs s' = jobs s ++ nj
             /\ Forall (fun j => jobIdCounter s < job_id j) nj;
  g_trace : exists ev, trace s' = trace s ++ ev
              /\ Forall (fun e => exists j t, e = ExecStart j t /\ jobIdCounter s < j
                                             /\ (j ∉ cancelled s)
                                             /\ In (mkJob j t) (jobs s')) ev;
  g_suspended : exists su, suspended s' = suspended s ++ su
                  /\ Forall (fun p => jobIdCounter s < fst p /\ (fst p ∉ cancelled s)) su;
  g_cancelled : forall id, id ∈ cancelled s' -> id ∈ cancelled s;
  g_cancelled_old : forall id, id ∈ cancelled s ->
                      id <= jobIdCounter s \/ jobIdCounter s' < id -> id ∈ cancelled s' }.


(** What the removal of documents and workspaces may change. *)
Record drops (s s' : State) : Prop := mk_drops {
  d_jobs : exists f, jobs s' = List.filter f (jobs s);
  d_tasks : exists f, tasks s' = List.filter f (tasks s);
  d_counter : jobIdCounter s' = jobIdCounter s;
  d_taskIdCounter : taskIdCounter s' = taskIdCounter s;
  d_queue : priorityQueue s' = priorityQueue s;
  d_suspended : suspended s' = suspended s;
  d_trace : trace s' = trace s;
  d_cancelled : forall id, id ∈ cancelled s -> id ∈ cancelled s';
  d_cancelled_new : forall id, id ∈ cancelled s' ->
      id ∈ cancelled s
      \/ (In id (map job_id (jobs s)) /\ ~ In id (map job_id (jobs s')));
  d_removed : forall j, In j (jobs s) -> ~ In j (jobs s') ->
      tasks_by_id s' (taskId j) = None }.

(** What one action may change, whichever it is. *)
Record effect (s s' : State) : Prop := mk_effect {
  e_counter : jobIdCounter s <= jobIdCounter s';
  e_taskIdCounter : taskIdCounter s <= taskIdCounter s';
  e_jobs_new : forall j, In j (jobs s') -> In j (jobs s) \/ jobIdCounter s < job_id j;
  e_jobs_kept : forall j, In j (jobs s) ->
      In j (jobs s') \/ In (Fulfilled (job_id j)) (trace s')
      \/ tasks_by_id s' (taskId j) = None;
  e_trace : exists ev, trace s' = trace s ++ ev
      /\ Forall (fun e => match e with
                          | ExecStart j t =>
                              jobIdCounter s < j /\ (j ∉ cancelled s)
                              /\ In (mkJob j t) (jobs s')
                          | Fulfilled j =>
                              In j (map fst (suspended s))
                              /\ ~ In j (map job_id (jobs s'))
                          | Completed _ _ => True
                          end) ev;
  e_suspended : forall p, In p (suspended s') ->
      In p (suspended s) \/ (jobIdCounter s < fst p /\ (fst p ∉ cancelled s));
  e_cancelled_kept : forall id, id ∈ cancelled s ->
      id <= jobIdCounter s \/ jobIdCounter s' < id -> id ∈ cancelled s';
  e_tasks_gone : forall tid, tasks_by_id s tid = None -> tid <= taskIdCounter s ->
      tasks_by_id s' tid = None }.

(** An action of the server cancels a job only as it removes it. *)
Definition cancels_removed (s s' : State) : Prop :=
  forall id, id ∈ cancelled s' ->
    id ∈ cancelled s
    \/ (id <= jobIdCounter s /\ ~ In id (map job_id (jobs s'))).

(** What the handlers that touch neither jobs nor the queue may change:
    documents, workspaces, and tasks added with fresh ids. *)
Record adds (s s' : State) : Prop := mk_adds {
  a_jobs : jobs s' = jobs s;
  a_counter : jobIdCounter s' = jobIdCounter s;
  a_queue : priorityQueue s' = priorityQueue s;
  a_cancelled : cancelled s' = cancelled s;
  a_suspended : suspended s' = suspended s;
  a_trace : trace s' = trace s;
  a_taskIdCounter : taskIdCounter s <= taskIdCounter s';
  a_tasks : exists nt, tasks s' = tasks s ++ nt
              /\ Forall (fun t => taskIdCounter s < task_id t <= taskIdCounter s') nt }.

(** *** Scenarios *)

(** A single-file workspace is opened and audited twice before the analysis
    completes, audited again after it has completed, and closed while the
    last analysis is still running. *)
Definition notes_session : list action :=
  [AddWorkspace "file:///notes.rst" []; Audit 1 "file:///notes.rst";
   Audit 1 "file:///notes.rst"; Resume 1 42; Audit 1 "file:///notes.rst";
   DidClose "file:///notes.rst"].

(** Two stored tasks, the second of which depends on the first; neither has
    run or is scheduled. *)
Definition taskA : Task := mkTask 1 audit (Some 1) None [] None.
Definition taskB : Task := mkTask 2 audit (Some 2) None [1] None.

Definition two_tasks : State :=
  mkState [mkDocument 1 "file:///w/a.rst" 1 indexing;
           mkDocument 2 "file:///w/b.rst" 1 editing]
    [mkWorkspace 1 "file:///w"] [taskA; taskB] [] 1 2 2 0 [] ∅ [] [].

(** Job [id] has not started and cannot start: the trace has no event of
    it, and either it is marked cancelled and no job has that id yet, or the
    id has been handed out and no activation of it waits to be resumed. *)
Definition never_runs (id : nat) (s : State) : Prop :=
  (forall e, In e (trace s) -> event_job e <> Some id)
  /\ ((id ∈ cancelled s /\ jobIdCounter s < id)
      \/ (id <= jobIdCounter s /\ ~ In id (map fst (suspended s)))).

(** What two submissions of one task share: the job [h] of the task is
    live and the unit of the task has started [n] times, or the job is
    fulfilled, or the task is gone. *)
Definition shared (h tid n : nat) (s : State) : Prop :=
  In (Fulfilled h) (trace s)
  \/ tasks_by_id s tid = None
  \/ (In (mkJob h tid) (jobs s) /\ executions tid (trace s) = n).

End Server.

(* ===================================================================== *)
(** ** Memoised facts and tables: util.ts [memoize], Document, Workspace   *)
(* ===================================================================== *)

Module Cache.

Import TextDocument.

Local Open Scope nat_scope.

Inductive DocumentState := editing | indexing.

(** A wrapped query match: the uri of the owning document and the texts of
    the captures the workspace tables read ([key] or title, [citekey]). *)
Record Captures := mkCaptures { cap_key : string; cap_citekey : option string }.
Record Fact := mkFact { fact_uri : string; fact_key : string;
                        fact_citekey : option string }.

Definition wrap (uri : string) (c : Captures) : Fact :=
  mkFact uri (cap_key c) (cap_citekey c).

(** [memoizer(name, func)]: the getter reads the cache of its object under
    the name of the property and computes the value only when there is no
    entry. *)
Definition memoizer {V : Type} (name : string) (func : V) (cache : gmap string V)
  : V * gmap string V :=
  match cache !! name with
  | Some v => (v, cache)
  | None => (func, <[name := func]> cache)
  end.

Section WithQueries.

(** The grammar and the query engine are external: what the queries of
    [Document.queries] match under the root node of a tree. *)
Variable referenceListings_matches : Tree -> list Captures.
Variable section_matches : nat -> Tree -> list Captures.
Variable SectionTreeNode : Type.

Record Document := mkDocument {
  doc_id : nat; doc_uri : string; doc_workspaceId : nat;
  doc_state : DocumentState;
  tsDoc : TreeSitterTextDocument;
  doc_cache : gmap string (list Fact) }.

Inductive WsValue :=
| Table (m : gmap string Fact)
| Outline (t : SectionTreeNode).

Record Workspace := mkWorkspace {
  ws_id : nat; ws_uri : string; ws_cache : gmap string WsValue }.

(** The collections of the store, and the files [saveToDisk] has written.
    The collection of documents keeps a binary index on [workspaceId]; what
    is kept of it here is the order in which it lists the documents, by
    their ids. *)
Record State := mkState {
  documents : list Document;
  documents_workspaceId_index : list nat;
  workspaces : list Workspace;
  disk : list (string * text) }.

(** The store library is external: how [collection.update(doc)] rearranges
    the index (old index, documents, updated document).  So are the nodes
    of the trees and the directory listing that [SectionTreeBuilder] reads:
    what it returns for an index document, with the documents and the
    workspace it reaches through the store ([None]: it throws). *)
Variable reindex : list nat -> list Document -> Document -> list nat.
Variable SectionTreeBuilder_run : Document -> State -> option SectionTreeNode.

(** [doc.tree] is the tree of [tsDoc]; the queries run on its root node. *)
Definition doc_tree (d : Document) : Tree := ts_tree (tsDoc d).

Definition set_tsDoc_cache (t : TreeSitterTextDocument) (c : gmap string (list Fact))
    (d : Document) : Document :=
  mkDocument (doc_id d) (doc_uri d) (doc_workspaceId d) (doc_state d) t c.

(** *** Document *)

(** What the getters compute when there is no entry: the matches in the
    tree the document holds. *)
Definition referenceListings_fresh (d : Document) : list Fact :=
  map (wrap (doc_uri d)) (referenceListings_matches (doc_tree d)).

Definition sections_fresh (d : Document) : list Fact :=
  map (wrap (doc_uri d))
    (section_matches 1 (doc_tree d) ++ section_matches 2 (doc_tree d)
     ++ section_matches 3 (doc_tree d) ++ section_matches 4 (doc_tree d)
     ++ section_matches 5 (doc_tree d)).

(** [@memoize get referenceListings()] and [@memoize get sections()]. *)
Definition referenceListings (d : Document) : list Fact * Document :=
  let '(v, c) := memoizer "referenceListings" (referenceListings_fresh d) (doc_cache d) in
  (v, set_tsDoc_cache (tsDoc d) c d).

Definition sections (d : Document) : list Fact * Document :=
  let '(v, c) := memoizer "sections" (sections_fresh d) (doc_cache d) in
  (v, set_tsDoc_cache (tsDoc d) c d).

(** [clearCache], [update] and [reparse] of [Document]; [None] when the
    update of the text document throws. *)
Definition doc_clearCache (d : Document) : Document :=
  set_tsDoc_cache (tsDoc d) ∅ d.

Definition doc_update (d : Document) (version : Z)
    (changes : list TextDocumentContentChangeEvent) : option Document :=
  match ts_update (tsDoc d) changes version with
  | Some t => Some (doc_clearCache (set_tsDoc_cache t (doc_cache d) d))
  | None => None
  end.

Definition doc_reparse (d : Document) : Document :=
  set_tsDoc_cache (ts_reparse (tsDoc d)) (doc_cache d) d.

(** *** Store *)

Definition documents_by_uri (s : State) (uri : string) : option Document :=
  List.find (fun d => String.eqb (doc_uri d) uri) (documents s).
Definition documents_by_id (docs : list Document) (id : nat) : option Document :=
  List.find (fun d => doc_id d =? id) docs.
Definition workspaces_by_id (s : State) (id : nat) : option Workspace :=
  List.find (fun w => ws_id w =? id) (workspaces s).

(** A document object is shared between the store and whoever looked it
    up: a change of the object is a change of the stored document. *)
Definition documents_put (d : Document) (docs : list Document) : list Document :=
  map (fun d' => if doc_id d' =? doc_id d then d else d') docs.

Definition documents_mutate (d : Document) (s : State) : State :=
  mkState (documents_put d (documents s)) (documents_workspaceId_index s)
    (workspaces s) (disk s).

(** [store.documents.update(doc)]. *)
Definition documents_update (d : Document) (s : State) : State :=
  mkState (documents_put d (documents s))
    (reindex (documents_workspaceId_index s) (documents s) d)
    (workspaces s) (disk s).

(** [store.documents.find({ workspaceId })]: the documents of that
    workspace, in the order of the index. *)
Definition find_workspaceId (s : State) (wsId : nat) : list Document :=
  flat_map (fun id =>
              match documents_by_id (documents s) id with
              | Some d => if doc_workspaceId d =? wsId then [d] else []
              | None => []
              end) (documents_workspaceId_index s).

(** *** Workspace *)

(** [get documents()] and [getDocument(relativePath)]. *)
Definition ws_documents (w : Workspace) (s : State) : list Document :=
  find_workspaceId s (ws_id w).

Definition ws_getDocument (w : Workspace) (s : State) (relativePath : string)
  : option Document :=
  documents_by_uri s (String.append (ws_uri w) (String.append "/" relativePath)).

(** [this.documents.forEach(doc => doc.<getter>.forEach(...))]: the getter
    of every document found is read, in the order found; the reads fill the
    caches of the stored documents. *)
Fixpoint read_documents (getter : Document -> list Fact * Document)
    (found : list nat) (docs : list Document) : list Fact * list Document :=
  match found with
  | [] => ([], docs)
  | id :: more =>
      match documents_by_id docs id with
      | Some d =>
          let '(v, d') := getter d in
          let '(facts, docs') := read_documents getter more (documents_put d' docs) in
          (v ++ facts, docs')
      | None => read_documents getter more docs
      end
  end.

(** What the stored document of an id contributes to a read that computes
    [fresh] for it. *)
Definition contribution (fresh : Document -> list Fact) (docs : list Document)
    (id : nat) : list Fact :=
  match documents_by_id docs id with Some d => fresh d | None => [] end.

(** [table.set(ref.key, ref)] and [if (ref.citekey) table.set(ref.citekey, ref)]
    over the facts in order. *)
Definition table_by_key (facts : list Fact) : gmap string Fact :=
  fold_left (fun m f => <[fact_key f := f]> m) facts ∅.

Definition table_by_citekey (facts : list Fact) : gmap string Fact :=
  fold_left (fun m f =>
               match fact_citekey f with
               | Some c => if String.eqb c EmptyString then m else <[c := f]> m
               | None => m
               end) facts ∅.

Definition set_ws_cache (c : gmap string WsValue) (w : Workspace) : Workspace :=
  mkWorkspace (ws_id w) (ws_uri w) c.

Definition workspaces_update (w : Workspace) (s : State) : State :=
  mkState (documents s) (documents_workspaceId_index s)
    (map (fun w' => if ws_id w' =? ws_id w then w else w') (workspaces s))
    (disk s).

(** A memoised getter of [Workspace] that builds a table: a hit returns the
    entry and leaves everything as it is; a miss computes the value from the
    documents of the workspace and stores it. *)
Definition ws_memo (name : string) (getter : Document -> list Fact * Document)
    (build : list Fact -> WsValue) (w : Workspace) (s : State) : WsValue * State :=
  match ws_cache w !! name with
  | Some v => (v, s)
  | None =>
      let '(facts, docs') :=
        read_documents getter (map doc_id (ws_documents w s)) (documents s) in
      let v := build facts in
      (v, workspaces_update (set_ws_cache (<[name := v]> (ws_cache w)) w)
            (mkState docs' (documents_workspaceId_index s) (workspaces s) (disk s)))
  end.

Definition referencesByKey :=
  ws_memo "referencesByKey" referenceListings (fun fs => Table (table_by_key fs)).
Definition referencesByCitekey :=
  ws_memo "referencesByCitekey" referenceListings (fun fs => Table (table_by_citekey fs)).
Definition sectionsByCitekey :=
  ws_memo "sectionsByCitekey" sections (fun fs => Table (table_by_citekey fs)).

(** [@memoize get sectionTree()]: [this.index] is the document
    [index.rst] of the workspace, and there must be one; the builder starts
    from it.  [None]: [assertDefined] or the builder throws, and nothing is
    stored. *)
Definition ws_index (w : Workspace) (s : State) : option Document :=
  ws_getDocument w s "index.rst".

Definition sectionTree (w : Workspace) (s : State) : option (WsValue * State) :=
  match ws_cache w !! "sectionTree" with
  | Some v => Some (v, s)
  | None =>
      match ws_index w s with
      | None => None
      | Some index =>
          match SectionTreeBuilder_run index s with
          | None => None
          | Some t =>
              let v := Outline t in
              Some (v, workspaces_update
                         (set_ws_cache (<[ "sectionTree" := v]> (ws_cache w)) w) s)
          end
      end
  end.

Definition ws_clearCache (w : Workspace) : Workspace := set_ws_cache ∅ w.

(** *** Server *)

(** [onDidChangeTextDocument]: [doc.update], [store.documents.update(doc)],
    [doc.workspace.clearCache()].  (The debounced [analyzeDocument] that
    follows belongs to the scheduler.) *)
Definition onDidChangeTextDocument (uri : string) (version : Z)
    (contentChanges : list TextDocumentContentChangeEvent) (s : State)
  : option State :=
  match documents_by_uri s uri with
  | None => None
  | Some doc =>
      match doc_update doc version contentChanges with
      | Some doc' =>
          let s1 := documents_update doc' s in
          match workspaces_by_id s1 (doc_workspaceId doc') with
          | Some ws => Some (workspaces_update (ws_clearCache ws) s1)
          | None => None
          end
      | None => None
      end
  end.

(** The loop of [onRename] over [targetsByUri]: a document that is open in
    the editor gets its edits sent back; a document in state [indexing] is
    updated in place, with the next version, and written to disk. *)
Definition TextDocumentEdit : Type :=
  string * Z * list TextDocumentContentChangeEvent.

Fixpoint onRename_targets
    (targetsByUri : list (string * list TextDocumentContentChangeEvent))
    (s : State) : option (list TextDocumentEdit * State) :=
  match targetsByUri with
  | [] => Some ([], s)
  | (iuri, contentChanges) :: more =>
      match documents_by_uri s iuri with
      | None => None
      | Some idoc =>
          match doc_state idoc with
          | editing =>
              match onRename_targets more s with
              | Some (changes, s') =>
                  Some ((iuri, ts_version (tsDoc idoc), contentChanges) :: changes, s')
              | None => None
              end
          | indexing =>
              match doc_update idoc (ts_version (tsDoc idoc) + 1) contentChanges with
              | Some idoc' =>
                  (* saveToDisk *)
                  onRename_targets more
                    (mkState (documents (documents_mutate idoc' s))
                       (documents_workspaceId_index s) (workspaces s)
                       ((doc_uri idoc', ts_text (tsDoc idoc')) :: disk s))
              | None => None
              end
          end
      end
  end.

(** The tables a workspace would compute from the trees its documents hold
    now, whatever the caches say. *)
Definition fresh_table (name : string) (w : Workspace) (s : State) : option WsValue :=
  let docs := ws_documents w s in
  if String.eqb name "referencesByKey" then
    Some (Table (table_by_key (concat (map referenceListings_fresh docs))))
  else if String.eqb name "referencesByCitekey" then
    Some (Table (table_by_citekey (concat (map referenceListings_fresh docs))))
  else if String.eqb name "sectionsByCitekey" then
    Some (Table (table_by_citekey (concat (map sections_fresh docs))))
  else None.

(** No entry of the cache of a document disagrees with the tree the
    document holds. *)
Definition doc_coherent (d : Document) : Prop :=
  (forall v, doc_cache d !! "referenceListings" = Some v -> v = referenceListings_fresh d) /\
  (forall v, doc_cache d !! "sections" = Some v -> v = sections_fresh d).

End WithQueries.

(** *** A scenario

    A multi-file workspace with one document that is not open in the editor.
    The query engine is instantiated by the simplest extractor there is: the
    text a tree was parsed from is one reference key, and there are no
    sections; the index keeps its order on an update. *)
Definition whole_text (t : Tree) : list Captures :=
  [mkCaptures (String.string_of_list_ascii (tree_text t)) None].
Definition no_sections (level : nat) (t : Tree) : list Captures := [].
Definition keep_index (index : list nat) (docs : list (Document))
    (d : Document) : list nat := index.

Definition rename_workspace : Workspace (list string) :=
  mkWorkspace (list string) 1 "file:///w" ∅.

Definition rename_before : State (list string) :=
  mkState (list string)
    [mkDocument 1 "file:///w/a.rst" 1 indexing (Clean (create 1 (ofString "old"))) ∅]
    [1] [rename_workspace] [].

Definition rename_targets : list (string * list TextDocumentContentChangeEvent) :=
  [("file:///w/a.rst",
    [Incremental (mkRange (mkPosition 0 0) (mkPosition 0 3)) (ofString "new")])].

(** Two documents of one workspace that the index lists in the other
    order. *)
Definition two_documents : State (list string) :=
  mkState (list string)
    [mkDocument 1 "file:///w/a.rst" 1 editing (Clean (create 1 (ofString "x"))) ∅;
     mkDocument 2 "file:///w/b.rst" 1 editing (Clean (create 1 (ofString "y"))) ∅]
    [2; 1] [rename_workspace] [].

Definition table_of (v : WsValue (list string)) : gmap string Fact :=
  match v with Table _ m => m | Outline _ _ => ∅ end.

End Cache.

(* ===================================================================== *)
(** ** Helpers: util.ts, and the path functions of Workspace              *)
(* ===================================================================== *)

Module Util.

Import TextDocument.

(** *** Conversions *)

(** A [Point] of tree-sitter. *)
Record Point := mkPoint { row : Z; column : Z }.

Definition lspPositionToTsPoint (position : Position) : Point :=
  {| row := line position; column := character position |}.

Definition tsPointToLspPosition (point : Point) : Position :=
  {| line := row point; character := column point |}.

Definition tsEndpointsToLspRange (s e : Point) : Range :=
  {| start := tsPointToLspPosition s; end_ := tsPointToLspPosition e |}.

(** [tsPointCompare]: -1 if [p1 < p2]; 0 if equal; 1 if [p1] greater. *)
Definition tsPointCompare (p1 p2 : Point) : Z :=
  if row p1 <? row p2 then -1
  else if row p1 =? row p2 then
    if column p1 <? column p2 then -1
    else if column p1 =? column p2 then 0
    else 1
  else 1.

(** [pathToUri] and [uriToPath]: [`file://${filePath}`] and [uri.slice(7)]. *)
Definition pathToUri (filePath : text) : text := ofString "file://" ++ filePath.
Definition uriToPath (uri : text) : text := skipn 7 uri.

(** *** Ranges *)

(** [rangeIntersection].  The two ranges are sorted by the line of their
    start; [Array.prototype.sort] is stable, so that two ranges that start on
    the same line keep the order of the arguments.  [None] is [null]. *)
Definition rangeIntersection (range1 range2 : Range) : option Range :=
  let '(r1, r2) :=
    if line (start range1) - line (start range2) >? 0
    then (range2, range1) else (range1, range2) in
  if line (end_ r1) <? line (start r2) then None
  else if (line (end_ r1) =? line (start r2))
          && (character (end_ r1) <? character (start r2)) then None
  else
    let s := start r2 in
    let e :=
      if line (end_ r1) <? line (end_ r2) then end_ r1
      else if (line (end_ r1) =? line (end_ r2))
              && (character (end_ r1) <? character (end_ r2)) then end_ r1
      else end_ r2 in
    Some {| start := s; end_ := e |}.

(** *** Maps *)

(** A JavaScript [Map] with its insertion order: [has], [get], and [set],
    which replaces the value of a key in place and appends a new key. *)
Section Maps.

Context {K V : Type} `{EqDecision K}.

Definition jsmap : Type := list (K * V).

Fixpoint map_get (m : jsmap) (k : K) : option V :=
  match m with
  | [] => None
  | (k', v) :: m' => if decide (k' = k) then Some v else map_get m' k
  end.

Definition map_has (m : jsmap) (k : K) : bool :=
  match map_get m k with Some _ => true | None => false end.

Fixpoint map_set (m : jsmap) (k : K) (v : V) : jsmap :=
  match m with
  | [] => [(k, v)]
  | (k', v') :: m' =>
      if decide (k' = k) then (k', v) :: m' else (k', v') :: map_set m' k v
  end.

End Maps.

Arguments jsmap : clear implicits.

(** [groupBy]: the array stored under a key is extended in place. *)
Definition groupBy {T U : Type} `{EqDecision U} (ary : list T) (mapFunc : T -> U)
  : jsmap U (list T) :=
  fold_left
    (fun result elem =>
       let key := mapFunc elem in
       if map_has result key then
         match map_get result key with
         | Some group => map_set result key (group ++ [elem])
         | None => result
         end
       else map_set result key [elem])
    ary [].

(** *** Cached value *)

(** [TimeCachedValue]; [None] in [storedValue] and in the result of the
    compute function is [undefined]. *)
Record TimeCachedValue (T : Type) := mkTimeCachedValue {
  storedValue : option T;
  timeLastComputed : option Z;
  lifespan : Z }.
Arguments mkTimeCachedValue {T}.
Arguments storedValue {T}.
Arguments timeLastComputed {T}.
Arguments lifespan {T}.

(** [isStale()], at the time [now]. *)
Definition isStale {T} (now : Z) (c : TimeCachedValue T) : bool :=
  match timeLastComputed c with
  | None => true
  | Some t => now - t >? lifespan c
  end.

(** [get value()].  [Date.now()] is read in [isStale] ([now]) and again after
    the computation ([stamp]).  The result is the cache after the call and
    what the getter returns; [assertDefined] throws ([None]) on an undefined
    value, after the cache has been written. *)
Definition value {T} (now stamp : Z) (computeFunction : option T)
    (c : TimeCachedValue T) : TimeCachedValue T * option T :=
  let c' :=
    if isStale now c
    then mkTimeCachedValue computeFunction (Some stamp) (lifespan c)
    else c in
  (c', storedValue c').

(** *** Symbols *)

(** [x[0] === '/']. *)
Definition starts_with_slash (x : text) : bool :=
  match x with
  | c :: _ => Ascii.eqb c "/"%char
  | [] => false
  end.

Definition ensureLeadingSlash (x : text) : text :=
  if starts_with_slash x then x else "/"%char :: x.

(** [x.substr(1)] drops the first code unit. *)
Definition removeLeadingSlash (x : text) : text :=
  if starts_with_slash x then skipn 1 x else x.

(** [adjustSymbolNewName], for a target of the given type and node text. *)
Definition adjustSymbolNewName (targetType : text) (nodeText : text) (newName : text)
  : text :=
  if bool_decide (targetType = ofString "media-file-path") then
    if starts_with_slash nodeText then ensureLeadingSlash newName
    else if negb (starts_with_slash nodeText) then removeLeadingSlash newName
    else newName
  else newName.

(** *** Workspace paths *)

(** [docUriToRelativePath] of a workspace with uri [wsUri]; [None] is the
    thrown error. *)
Definition docUriToRelativePath (wsUri uri : text) : option text :=
  if bool_decide (wsUri <> firstn (length wsUri) uri) then None
  else Some (skipn (length wsUri + 1) uri).

Definition relativePathToDocUri (wsUri relPath : text) : text :=
  wsUri ++ "/"%char :: relPath.

(** *** Notions used to state the properties *)

(** The later of two positions and the earlier of two positions, in reading
    order; two closed ranges overlap when each starts no later than the
    other ends. *)
Definition pos_leb (p q : Position) : bool :=
  (line p <? line q) || ((line p =? line q) && (character p <=? character q)).
Definition pos_max (p q : Position) : Position := if pos_leb p q then q else p.
Definition pos_min (p q : Position) : Position := if pos_leb p q then p else q.
Definition overlap (a b : Range) : Prop :=
  pos_le (start a) (end_ b) /\ pos_le (start b) (end_ a).

End Util.

(* ===================================================================== *)
(** ** Properties of the text buffer                                      *)
(* ===================================================================== *)

Module TextDocumentTheory.

Import TextDocument.

Local Open Scope Z_scope.

(** Where lines start, said without the skip of the loop: after every line
    feed, and after every carriage return that no line feed follows. *)
Definition next_is_LineFeed (rest : text) : bool :=
  match rest with
  | ch :: _ => Ascii.eqb ch LineFeed
  | [] => false
  end.

Fixpoint line_starts (t : text) (i textOffset : Z) : list Z :=
  match t with
  | [] => []
  | ch :: rest =>
      if Ascii.eqb ch LineFeed
         || (Ascii.eqb ch CarriageReturn && negb (next_is_LineFeed rest))
      then (textOffset + i + 1) :: line_starts rest (i + 1) textOffset
      else line_starts rest (i + 1) textOffset
  end.

Fixpoint ends_in_CarriageReturn (t : text) : bool :=
  match t with
  | [] => false
  | ch :: rest =>
      match rest with
      | [] => Ascii.eqb ch CarriageReturn
      | _ :: _ => ends_in_CarriageReturn rest
      end
  end.

(** [ascending lo l]: the elements of [l] grow strictly and exceed [lo]. *)
Fixpoint ascending (lo : Z) (l : list Z) : Prop :=
  match l with
  | [] => True
  | x :: l' => lo < x /\ ascending x l'
  end.

(** A table [positionAt] and [offsetAt] can search: it starts at 0, grows
    strictly and stays within the text. *)
Definition valid_table (n : Z) (l : list Z) : Prop :=
  exists l', l = 0 :: l' /\ ascending 0 l' /\ Forall (fun x => x <= n) l'.

(** Induction on a text two characters at a time, as the loop reads it. *)
Lemma text_ind2 (P : text -> Prop) :
  P [] ->
  (forall ch, P [ch]) ->
  (forall ch ch' rest, P (ch' :: rest) -> P rest -> P (ch :: ch' :: rest)) ->
  forall t, P t.
Proof.
  intros Hnil Hone Hstep t.
  assert (H : P t /\ forall ch, P (ch :: t)).
  { induction t as [|c t [IH1 IH2]].
    - split; [exact Hnil | exact Hone].
    - split; [apply IH2 | intros ch; apply Hstep; [apply IH2 | exact IH1]]. }
  exact (proj1 H).
Qed.

Lemma CarriageReturn_not_LineFeed : Ascii.eqb CarriageReturn LineFeed = false.
Proof. reflexivity. Qed.

Lemma line_starts_cons ch rest i off :
  line_starts (ch :: rest) i off
  = if Ascii.eqb ch LineFeed
       || (Ascii.eqb ch CarriageReturn && negb (next_is_LineFeed rest))
    then (off + i + 1) :: line_starts rest (i + 1) off
    else line_starts rest (i + 1) off.
Proof. reflexivity. Qed.

Lemma loop_CR_LF rest i off :
  computeLineOffsets_loop (CarriageReturn :: LineFeed :: rest) i off
  = (off + (i + 1) + 1) :: computeLineOffsets_loop rest (i + 1 + 1) off.
Proof. reflexivity. Qed.

Lemma loop_cons ch rest i off :
  Ascii.eqb ch CarriageReturn && next_is_LineFeed rest = false ->
  computeLineOffsets_loop (ch :: rest) i off
  = if Ascii.eqb ch CarriageReturn || Ascii.eqb ch LineFeed
    then (off + i + 1) :: computeLineOffsets_loop rest (i + 1) off
    else computeLineOffsets_loop rest (i + 1) off.
Proof.
  intros H. cbn [computeLineOffsets_loop].
  destruct rest as [|ch' rest']; [reflexivity|].
  cbn [next_is_LineFeed] in H. rewrite H. reflexivity.
Qed.

Lemma loop_is_line_starts t : forall i off,
  computeLineOffsets_loop t i off = line_starts t i off.
Proof.
  induction t as [|ch|ch ch' rest IH1 IH2] using text_ind2; intros i off.
  - reflexivity.
  - simpl. destruct (Ascii.eqb ch CarriageReturn) eqn:Hcr;
      destruct (Ascii.eqb ch LineFeed) eqn:Hlf; reflexivity.
  - destruct (Ascii.eqb ch CarriageReturn && next_is_LineFeed (ch' :: rest)) eqn:Hpair.
    + apply andb_true_iff in Hpair as [Hcr Hlf].
      apply Ascii.eqb_eq in Hcr. cbn in Hlf. apply Ascii.eqb_eq in Hlf.
      subst ch ch'. rewrite loop_CR_LF, IH2.
      rewrite !line_starts_cons. cbn [next_is_LineFeed].
      rewrite CarriageReturn_not_LineFeed, Ascii.eqb_refl. cbn [orb andb negb].
      reflexivity.
    + rewrite (line_starts_cons ch (ch' :: rest)), (loop_cons _ _ _ _ Hpair), IH1.
      destruct (Ascii.eqb ch CarriageReturn) eqn:Hcr.
      * cbn [andb] in Hpair. rewrite Hpair. cbn [orb andb negb].
        rewrite orb_true_r. reflexivity.
      * cbn [orb andb]. rewrite orb_false_r. reflexivity.
Qed.

Lemma line_starts_shift t : forall i off,
  line_starts t i off = line_starts t 0 (off + i).
Proof.
  induction t as [|ch rest IH]; intros i off; [reflexivity|].
  cbn [line_starts]. rewrite (IH (i + 1) off), (IH (0 + 1) (off + i)).
  replace (off + i + (0 + 1)) with (off + (i + 1)) by lia.
  replace (off + i + 0 + 1) with (off + i + 1) by lia.
  reflexivity.
Qed.

Lemma next_is_LineFeed_app a b :
  a <> [] -> next_is_LineFeed (a ++ b) = next_is_LineFeed a.
Proof. destruct a; [congruence | reflexivity]. Qed.

(** Two texts can be scanned apart unless the cut falls inside a CR LF pair. *)
Lemma line_starts_app a : forall b i off,
  ends_in_CarriageReturn a && next_is_LineFeed b = false ->
  line_starts (a ++ b) i off
  = line_starts a i off ++ line_starts b (i + len a) off.
Proof.
  induction a as [|ch rest IH]; intros b i off Hcut.
  - cbn. unfold len. cbn. f_equal. lia.
  - cbn [app line_starts].
    assert (Hrest : ends_in_CarriageReturn rest && next_is_LineFeed b = false).
    { destruct rest as [|c r]; [reflexivity | exact Hcut]. }
    rewrite (IH b (i + 1) off Hrest).
    replace (i + 1 + len rest) with (i + len (ch :: rest))
      by (unfold len; cbn [length]; lia).
    destruct rest as [|c r].
    + cbn [app next_is_LineFeed ends_in_CarriageReturn] in *.
      destruct (Ascii.eqb ch CarriageReturn) eqn:Hcr; cbn [andb] in Hcut.
      * rewrite Hcut. destruct (_ || _); reflexivity.
      * rewrite !andb_false_l. destruct (_ || _); reflexivity.
    + cbn [app next_is_LineFeed]. destruct (_ || _); reflexivity.
Qed.

Lemma line_starts_bounds t : forall i off,
  ascending (off + i) (line_starts t i off)
  /\ Forall (fun x => x <= off + i + len t) (line_starts t i off).
Proof.
  induction t as [|ch rest IH]; intros i off; [split; constructor|].
  cbn [line_starts]. destruct (IH (i + 1) off) as [Hasc Hle].
  assert (Hlen : len (ch :: rest) = len rest + 1)
    by (unfold len; cbn [length]; lia).
  assert (Hweak : forall lo l, lo <= off + (i + 1) -> ascending (off + (i + 1)) l
                               -> ascending lo l).
  { intros lo l Hlo. destruct l; cbn; [trivial|]. intros [? ?]. split; [lia|assumption]. }
  assert (Hle' : Forall (fun x => x <= off + i + len (ch :: rest))
                   (line_starts rest (i + 1) off)).
  { eapply Forall_impl; [exact Hle|]. cbn. intros x Hx. lia. }
  destruct (_ || _).
  - split.
    + cbn. split; [lia|]. replace (off + i + 1) with (off + (i + 1)) by lia.
      exact Hasc.
    + constructor; [rewrite Hlen; unfold len; lia | exact Hle'].
  - split; [apply Hweak; [lia | exact Hasc] | exact Hle'].
Qed.

Lemma computeLineOffsets_line_starts t off :
  computeLineOffsets t true off = off :: line_starts t 0 off.
Proof. unfold computeLineOffsets. cbn. f_equal. apply loop_is_line_starts. Qed.

Lemma computeLineOffsets_valid t :
  valid_table (len t) (computeLineOffsets t true 0).
Proof.
  exists (line_starts t 0 0). split; [apply computeLineOffsets_line_starts|].
  destruct (line_starts_bounds t 0 0) as [H1 H2]. split; [exact H1|].
  eapply Forall_impl; [exact H2|]. cbn. intros; lia.
Qed.

(** *** The binary search of [positionAt] *)

Lemma at_cons x l k : 0 < k -> at_ (x :: l) k = at_ l (k - 1).
Proof.
  intros Hk. unfold at_.
  replace (Z.to_nat k) with (S (Z.to_nat (k - 1))) by lia. reflexivity.
Qed.

Lemma ascending_at l : forall lo k,
  ascending lo l -> 0 <= k < Z.of_nat (length l) -> lo < at_ l k.
Proof.
  induction l as [|x l IH]; intros lo k Hasc Hk; cbn [length] in Hk; [lia|].
  destruct Hasc as [Hx Hl].
  destruct (Z.eq_dec k 0) as [->|Hne]; [exact Hx|].
  rewrite at_cons by lia.
  specialize (IH x (k - 1) Hl). lia.
Qed.

Lemma ascending_mono l : forall lo j k,
  ascending lo l -> 0 <= j < k -> k < Z.of_nat (length l) -> at_ l j < at_ l k.
Proof.
  induction l as [|x l IH]; intros lo j k Hasc Hjk Hk; cbn [length] in Hk; [lia|].
  destruct Hasc as [Hx Hl].
  rewrite (at_cons x l k) by lia.
  destruct (Z.eq_dec j 0) as [->|Hne].
  - change (at_ (x :: l) 0) with x. apply (ascending_at l x (k - 1) Hl). lia.
  - rewrite at_cons by lia. apply (IH x (j - 1) (k - 1) Hl); lia.
Qed.

Lemma search_fuel l x :
  (forall j k, 0 <= j < k -> k < Z.of_nat (length l) -> at_ l j < at_ l k) ->
  forall fuel low high,
    0 <= low <= high -> high <= Z.of_nat (length l) ->
    high - low <= Z.of_nat fuel ->
    (forall k, 0 <= k < low -> at_ l k <= x) ->
    (forall k, high <= k < Z.of_nat (length l) -> x < at_ l k) ->
    search_post l x (positionAt_search fuel l x low high).
Proof.
  intros Hmono fuel. induction fuel as [|fuel IH]; intros low high Hlh Hhigh Hfuel Hlo Hhi.
  - cbn. assert (low = high) by lia. subst high.
    split; [lia|]. split; assumption.
  - cbn [positionAt_search]. destruct (Z.ltb_spec low high) as [Hlt|Hge].
    + cbv zeta. set (mid := (low + high) / 2).
      assert (Hmid : low <= mid < high) by (unfold mid; split;
        [apply Z.div_le_lower_bound | apply Z.div_lt_upper_bound]; lia).
      destruct (Z.gtb_spec (at_ l mid) x) as [Hgt|Hle].
      * apply IH; try lia; [exact Hlo|].
        intros k Hk. destruct (Z.eq_dec k mid) as [->|Hne]; [lia|].
        destruct (Z_lt_le_dec k high) as [Hkh|Hkh]; [|apply Hhi; lia].
        specialize (Hmono mid k). lia.
      * apply IH; try lia; [|exact Hhi].
        intros k Hk. destruct (Z.eq_dec k mid) as [->|Hne]; [lia|].
        destruct (Z_lt_le_dec k low) as [Hkl|Hkl]; [apply Hlo; lia|].
        specialize (Hmono k mid). lia.
    + assert (low = high) by lia. subst high.
      split; [lia|]. split; assumption.
Qed.

Lemma search_post_unique l x r r' :
  search_post l x r -> search_post l x r' -> r = r'.
Proof.
  intros (Hr & Hlo & Hhi) (Hr' & Hlo' & Hhi').
  destruct (Z.lt_trichotomy r r') as [Hlt|[Heq|Hgt]]; [|exact Heq|].
  - specialize (Hlo' r). specialize (Hhi r). lia.
  - specialize (Hlo r'). specialize (Hhi' r'). lia.
Qed.

Section ValidTable.

Variable content : text.
Variable table : list Z.
Hypothesis Hvalid : valid_table (len content) table.

Lemma valid_table_mono j k :
  0 <= j < k -> k < Z.of_nat (length table) -> at_ table j < at_ table k.
Proof.
  destruct Hvalid as (l' & -> & Hasc & _).
  apply (ascending_mono (0 :: l') (-1)). cbn. split; [lia | exact Hasc].
Qed.

Lemma valid_table_nonempty : 0 < Z.of_nat (length table).
Proof. destruct Hvalid as (l' & -> & _). cbn [length]. lia. Qed.

Lemma valid_table_head : at_ table 0 = 0.
Proof. destruct Hvalid as (l' & -> & _). reflexivity. Qed.

Lemma valid_table_range k :
  0 <= k < Z.of_nat (length table) -> 0 <= at_ table k <= len content.
Proof.
  intros Hk. destruct Hvalid as (l' & -> & Hasc & Hle).
  destruct (Z.eq_dec k 0) as [->|Hne].
  - change (at_ (0 :: l') 0) with 0. unfold len. lia.
  - cbn [length] in Hk. rewrite at_cons by lia. split.
    + pose proof (ascending_at l' 0 (k - 1) Hasc). lia.
    + rewrite Forall_forall in Hle. apply Hle. unfold at_.
      apply list_elem_of_In, nth_In. lia.
Qed.

Lemma offsetAt_in_range p : 0 <= offsetAt_in content table p <= len content.
Proof.
  unfold offsetAt_in.
  destruct (Z.geb_spec (line p) (Z.of_nat (length table))); [unfold len; lia|].
  destruct (Z.ltb_spec (line p) 0); [unfold len; lia|].
  pose proof (valid_table_range (line p)).
  destruct (Z.ltb_spec (line p + 1) (Z.of_nat (length table))).
  - pose proof (valid_table_range (line p + 1)). lia.
  - lia.
Qed.

Lemma positionAt_in_line o :
  0 <= o <= len content ->
  let r := line (positionAt_in content table o) + 1 in
  search_post table o r /\ 1 <= r
  /\ character (positionAt_in content table o) = o - at_ table (r - 1).
Proof.
  intros Ho. unfold positionAt_in.
  pose proof valid_table_nonempty as Hne.
  replace (Z.max (Z.min o (len content)) 0) with o by lia.
  destruct (Z.eqb_spec (Z.of_nat (length table)) 0); [lia|].
  cbn [line character].
  set (low := positionAt_search _ _ _ _ _).
  assert (Hpost : search_post table o low).
  { apply search_fuel; try lia; [apply valid_table_mono | intros; lia..]. }
  cbv zeta. replace (low - 1 + 1) with low by lia.
  split; [exact Hpost|]. split; [|reflexivity].
  destruct Hpost as (Hr & _ & Hhi).
  destruct (Z_lt_le_dec low 1); [|lia].
  specialize (Hhi 0). rewrite valid_table_head in Hhi. lia.
Qed.

Lemma roundtrip_valid p :
  offsetAt_in content table
    (positionAt_in content table (offsetAt_in content table p))
  = offsetAt_in content table p.
Proof.
  pose proof (offsetAt_in_range p) as Ho.
  set (o := offsetAt_in content table p) in *.
  destruct (positionAt_in_line o Ho) as ((Hr & Hlo & Hhi) & Hr1 & Hch).
  set (q := positionAt_in content table o) in *.
  unfold offsetAt_in. rewrite Hch.
  destruct (Z.geb_spec (line q) (Z.of_nat (length table))); [lia|].
  destruct (Z.ltb_spec (line q) 0); [lia|].
  replace (line q + 1 - 1) with (line q) by lia.
  specialize (Hlo (line q)).
  destruct (Z.ltb_spec (line q + 1) (Z.of_nat (length table))).
  - specialize (Hhi (line q + 1)). lia.
  - lia.
Qed.

End ValidTable.

(** C6.  For every text and every position (whatever its line and
    character, valid or out of range), converting the position to an offset,
    the offset back to a position and that position to an offset again gives
    the first offset: offsetAt(positionAt(offsetAt(p))) = offsetAt(p). *)
Theorem offsetAt_positionAt_offsetAt (version : Z) (content : text) (p : Position) :
  offsetAt (create version content)
    (positionAt (create version content) (offsetAt (create version content) p))
  = offsetAt (create version content) p.
Proof.
  unfold offsetAt, positionAt, lineOffsetsOf. cbn [create _lineOffsets _content].
  apply roundtrip_valid, computeLineOffsets_valid.
Qed.

(** The same for a document whose table has been filled or maintained, as
    long as it is a valid table of the content; and [offsetAt] clamps. *)
Lemma offsetAt_positionAt_offsetAt_doc (d : FullTextDocument) (p : Position) :
  valid_table (len (_content d)) (lineOffsetsOf d) ->
  offsetAt d (positionAt d (offsetAt d p)) = offsetAt d p
  /\ 0 <= offsetAt d p <= len (_content d).
Proof.
  intros Hv. split; [apply roundtrip_valid, Hv | apply offsetAt_in_range, Hv].
Qed.

Lemma getLineOffsets_same (d : FullTextDocument) :
  lineOffsetsOf (snd (getLineOffsets d)) = lineOffsetsOf d
  /\ fst (getLineOffsets d) = lineOffsetsOf d.
Proof. split; reflexivity. Qed.

(** *** CR LF is one line terminator *)

Lemma at_app_l (a b : list Z) k :
  0 <= k < Z.of_nat (length a) -> at_ (a ++ b) k = at_ a k.
Proof. intros Hk. unfold at_. apply app_nth1. lia. Qed.

Lemma at_app_r (a b : list Z) k :
  0 <= k -> at_ (a ++ b) (Z.of_nat (length a) + k) = at_ b k.
Proof.
  intros Hk. unfold at_. rewrite app_nth2 by lia. f_equal. lia.
Qed.

Lemma line_starts_length t : forall i off i' off',
  length (line_starts t i off) = length (line_starts t i' off').
Proof.
  induction t as [|ch rest IH]; intros i off i' off'; [reflexivity|].
  rewrite !line_starts_cons. destruct (_ || _); cbn [length];
    rewrite (IH (i + 1) off (i' + 1) off'); reflexivity.
Qed.

Lemma len_app (a b : text) : len (a ++ b) = len a + len b.
Proof. unfold len. rewrite length_app. lia. Qed.

Lemma table_split (pre sep post : text) :
  ends_in_CarriageReturn pre && next_is_LineFeed (sep ++ post) = false ->
  (forall i off, line_starts (sep ++ post) i off
                 = (off + i + len sep) :: line_starts post (i + len sep) off) ->
  computeLineOffsets (pre ++ sep ++ post) true 0
  = computeLineOffsets pre true 0
      ++ computeLineOffsets post true (len pre + len sep).
Proof.
  intros Hcut Hsep. rewrite !computeLineOffsets_line_starts.
  rewrite line_starts_app by exact Hcut.
  rewrite Hsep. cbn [app]. do 2 f_equal.
  rewrite (line_starts_shift post (0 + len pre + len sep) 0). f_equal.
Qed.

Lemma table_CR_LF (pre post : text) :
  computeLineOffsets (pre ++ CarriageReturn :: LineFeed :: post) true 0
  = computeLineOffsets pre true 0 ++ computeLineOffsets post true (len pre + 2).
Proof.
  apply (table_split pre [CarriageReturn; LineFeed] post).
  - cbn. apply andb_false_r.
  - intros i off. unfold len. cbn. f_equal; try lia; f_equal; lia.
Qed.

Lemma table_lone_CR (pre post : text) :
  next_is_LineFeed post = false ->
  computeLineOffsets (pre ++ CarriageReturn :: post) true 0
  = computeLineOffsets pre true 0 ++ computeLineOffsets post true (len pre + 1).
Proof.
  intros Hpost. apply (table_split pre [CarriageReturn] post).
  - cbn. apply andb_false_r.
  - intros i off. cbn [app]. rewrite line_starts_cons, Hpost. unfold len. cbn.
    f_equal; try lia; f_equal; lia.
Qed.

Lemma table_lone_LF (pre post : text) :
  ends_in_CarriageReturn pre = false ->
  computeLineOffsets (pre ++ LineFeed :: post) true 0
  = computeLineOffsets pre true 0 ++ computeLineOffsets post true (len pre + 1).
Proof.
  intros Hpre. apply (table_split pre [LineFeed] post).
  - rewrite Hpre. reflexivity.
  - intros i off. unfold len. cbn. f_equal; try lia; f_equal; lia.
Qed.

Lemma positionAt_after_prefix (content : text) (a b : list Z) (x o : Z) :
  valid_table (len content) (a ++ x :: b) ->
  a <> [] -> 0 <= o <= len content ->
  (forall k, 0 <= k < Z.of_nat (length a) -> at_ a k <= o) ->
  (o < x -> line (positionAt_in content (a ++ x :: b) o) = Z.of_nat (length a) - 1)
  /\ (o = x -> positionAt_in content (a ++ x :: b) o
               = {| line := Z.of_nat (length a); character := 0 |}).
Proof.
  intros Hv Ha Ho Hale.
  destruct (positionAt_in_line content _ Hv o Ho) as (Hpost & Hr1 & Hch).
  assert (Hx : at_ (a ++ x :: b) (Z.of_nat (length a)) = x).
  { rewrite <- (Z.add_0_r (Z.of_nat (length a))), at_app_r by lia. reflexivity. }
  assert (Hlen : Z.of_nat (length (a ++ x :: b))
                 = Z.of_nat (length a) + 1 + Z.of_nat (length b)).
  { rewrite length_app. cbn [length]. lia. }
  assert (Hla : 0 < Z.of_nat (length a)) by (destruct a; [congruence | cbn; lia]).
  assert (Hbelow : forall k, 0 <= k < Z.of_nat (length a) -> at_ (a ++ x :: b) k <= o).
  { intros k Hk. rewrite at_app_l by lia. apply Hale, Hk. }
  assert (Habove : forall k, Z.of_nat (length a) < k < Z.of_nat (length (a ++ x :: b))
                             -> x < at_ (a ++ x :: b) k).
  { intros k Hk.
    pose proof (valid_table_mono content _ Hv (Z.of_nat (length a)) k) as Hm.
    rewrite Hx in Hm. apply Hm; lia. }
  split.
  - intros Hox.
    assert (Hr : search_post (a ++ x :: b) o (Z.of_nat (length a))).
    { split; [lia|]. split; [exact Hbelow|]. intros k Hk.
      destruct (Z.eq_dec k (Z.of_nat (length a))) as [->|Hne]; [lia|].
      specialize (Habove k). lia. }
    pose proof (search_post_unique _ _ _ _ Hpost Hr). lia.
  - intros ->.
    assert (Hr : search_post (a ++ x :: b) x (Z.of_nat (length a) + 1)).
    { split; [lia|]. split.
      - intros k Hk. destruct (Z.eq_dec k (Z.of_nat (length a))) as [->|Hne]; [lia|].
        apply Hbelow. lia.
      - intros k Hk. apply Habove. lia. }
    pose proof (search_post_unique _ _ _ _ Hpost Hr) as Hline.
    destruct (positionAt_in content (a ++ x :: b) x) as [ln chr] eqn:Hq.
    cbn [line character] in *. f_equal; [lia|].
    rewrite Hch. replace (ln + 1 - 1) with (Z.of_nat (length a)) by lia. lia.
Qed.

(** C10.  A carriage return followed by a line feed is one line terminator:
    the table of line offsets of [pre ++ CR LF ++ post] is the table of
    [pre], then the one line start after the pair, then the line starts of
    [post]; no line starts between the two characters.  A carriage return
    that no line feed follows, and a line feed that follows no carriage
    return, each start a line of their own.  So [lineCount] counts the pair
    once, the offset after the pair is column 0 of the next line, and the
    offset between the two characters is still on the line they end. *)
Theorem computeLineOffsets_CR_LF_single_terminator (v : Z) (pre post : text) :
  let d := create v (pre ++ CarriageReturn :: LineFeed :: post) in
  computeLineOffsets (pre ++ CarriageReturn :: LineFeed :: post) true 0
  = computeLineOffsets pre true 0
      ++ (len pre + 2) :: line_starts post 0 (len pre + 2)
  /\ (next_is_LineFeed post = false ->
      computeLineOffsets (pre ++ CarriageReturn :: post) true 0
      = computeLineOffsets pre true 0
          ++ (len pre + 1) :: line_starts post 0 (len pre + 1))
  /\ (ends_in_CarriageReturn pre = false ->
      computeLineOffsets (pre ++ LineFeed :: post) true 0
      = computeLineOffsets pre true 0
          ++ (len pre + 1) :: line_starts post 0 (len pre + 1))
  /\ lineCount d = lineCount (create v pre) + lineCount (create v post)
  /\ positionAt d (len pre + 2)
     = {| line := lineCount (create v pre); character := 0 |}
  /\ line (positionAt d (len pre + 1)) = lineCount (create v pre) - 1.
Proof.
  cbv zeta.
  assert (Htab := table_CR_LF pre post).
  rewrite (computeLineOffsets_line_starts post) in Htab.
  split; [exact Htab|].
  split; [intros H; rewrite (table_lone_CR pre post H);
          rewrite (computeLineOffsets_line_starts post); reflexivity|].
  split; [intros H; rewrite (table_lone_LF pre post H);
          rewrite (computeLineOffsets_line_starts post); reflexivity|].
  assert (Hv := computeLineOffsets_valid (pre ++ CarriageReturn :: LineFeed :: post)).
  rewrite Htab in Hv.
  assert (Hpre : forall k, 0 <= k < Z.of_nat (length (computeLineOffsets pre true 0)) ->
                           at_ (computeLineOffsets pre true 0) k <= len pre).
  { intros k Hk.
    apply (valid_table_range pre _ (computeLineOffsets_valid pre) k Hk). }
  assert (Hne : computeLineOffsets pre true 0 <> []).
  { rewrite computeLineOffsets_line_starts. discriminate. }
  assert (Hlen : len (pre ++ CarriageReturn :: LineFeed :: post) = len pre + 2 + len post).
  { rewrite len_app. unfold len. cbn [length]. lia. }
  assert (Hpost0 : 0 <= len post) by (unfold len; lia).
  assert (Hpre0 : 0 <= len pre) by (unfold len; lia).
  unfold lineCount, positionAt, lineOffsetsOf. cbn [create _lineOffsets _content].
  rewrite Htab. split.
  - rewrite length_app, (computeLineOffsets_line_starts post). cbn [length].
    rewrite (line_starts_length post 0 (len pre + 2) 0 0). lia.
  - split.
    + refine (proj2 (positionAt_after_prefix _ _ _ _ (len pre + 2) Hv Hne _ _) eq_refl);
        [lia|]. intros k Hk. specialize (Hpre k Hk). lia.
    + refine (proj1 (positionAt_after_prefix _ _ _ _ (len pre + 1) Hv Hne _ _) _);
        [lia| |lia]. intros k Hk. specialize (Hpre k Hk). lia.
Qed.

Lemma computeLineOffsets_CR_LF_witness :
  computeLineOffsets (ofString "ab" ++ CarriageReturn :: LineFeed :: ofString "c") true 0
    = [0; 4]
  /\ computeLineOffsets (ofString "ab" ++ CarriageReturn :: ofString "c") true 0 = [0; 3]
  /\ computeLineOffsets (ofString "ab" ++ LineFeed :: ofString "c") true 0 = [0; 3].
Proof.
  pose proof (computeLineOffsets_CR_LF_single_terminator 0 (ofString "ab") (ofString "c"))
    as (H1 & H2 & H3 & _).
  split; [exact H1|]. split; [apply H2; reflexivity | apply H3; reflexivity].
Defined.

(** *** Malformed ranges *)

Lemma getWellformedRange_malformed r : malformed r -> getWellformedRange r = swap r.
Proof.
  intros H. unfold getWellformedRange.
  destruct (_ || _) eqn:E; [reflexivity|].
  apply orb_false_iff in E as [E1 E2]. apply andb_false_iff in E2.
  destruct H as [H|[H1 H2]]; [lia|]. destruct E2; lia.
Qed.

Lemma getWellformedRange_wellformed r : ~ malformed r -> getWellformedRange r = r.
Proof.
  intros H. unfold getWellformedRange.
  destruct (_ || _) eqn:E; [|reflexivity].
  exfalso. apply H. apply orb_true_iff in E as [E|E]; [left; lia|].
  apply andb_true_iff in E as [E1 E2]. right. lia.
Qed.

Lemma swap_not_malformed r : malformed r -> ~ malformed (swap r).
Proof. unfold malformed, swap. cbn. lia. Qed.

Lemma applyIncremental_holed_swap h r t :
  malformed r -> applyIncremental_holed h r t = applyIncremental_holed h (swap r) t.
Proof.
  intros H. unfold applyIncremental_holed.
  rewrite (getWellformedRange_malformed r H).
  rewrite (getWellformedRange_wellformed (swap r) (swap_not_malformed r H)).
  reflexivity.
Qed.

Lemma applyIncremental_swap d r t :
  malformed r -> applyIncremental d r t = applyIncremental d (swap r) t.
Proof.
  intros H. unfold applyIncremental.
  rewrite (applyIncremental_holed_swap _ r t H).
  rewrite (getWellformedRange_malformed r H).
  rewrite (getWellformedRange_wellformed (swap r) (swap_not_malformed r H)).
  reflexivity.
Qed.

Lemma applyChanges_app_both pre post :
  (forall d, applyChanges d (pre ++ post)
             = match applyChanges d pre with
               | Ok d' => applyChanges d' post
               | Throws m => Throws m
               | Sparse h => applyChanges_holed h post
               end)
  /\ (forall h, applyChanges_holed h (pre ++ post)
                = match applyChanges_holed h pre with
                  | Ok d' => applyChanges d' post
                  | Throws m => Throws m
                  | Sparse h' => applyChanges_holed h' post
                  end).
Proof.
  induction pre as [|c pre [IHd IHh]]; [split; reflexivity|].
  split.
  - intros d. cbn. destruct (applyChange d c); [apply IHd | reflexivity | apply IHh].
  - intros h. cbn. destruct (applyChange_holed h c); [apply IHd | reflexivity | apply IHh].
Qed.

Lemma applyChanges_app d pre post :
  applyChanges d (pre ++ post)
  = match applyChanges d pre with
    | Ok d' => applyChanges d' post
    | Throws m => Throws m
    | Sparse h => applyChanges_holed h post
    end.
Proof. apply applyChanges_app_both. Qed.

Lemma applyChanges_holed_app h pre post :
  applyChanges_holed h (pre ++ post)
  = match applyChanges_holed h pre with
    | Ok d' => applyChanges d' post
    | Throws m => Throws m
    | Sparse h' => applyChanges_holed h' post
    end.
Proof. apply applyChanges_app_both. Qed.

(** C9.  An incremental edit whose range has its start after its end is
    applied as the edit with the two ends swapped: [update] gives the same
    result (text, line offsets, tree edit, version) for both, and the text
    that results replaces what lies between the end and the start of the
    range as given.  A range whose start is not after its end is passed
    through unchanged. *)
Theorem update_normalizes_malformed_range
    (d : FullTextDocument) (pre post : list TextDocumentContentChangeEvent)
    (r : Range) (t : text) (v : Z) :
  (malformed r ->
     getWellformedRange r = swap r
     /\ update d (pre ++ Incremental r t :: post) v
        = update d (pre ++ Incremental (swap r) t :: post) v
     /\ forall d', applyChange d (Incremental r t) = Ok d' ->
          _content d'
          = substring (_content d) 0 (offsetAt d (end_ r)) ++ t
              ++ substring (_content d) (offsetAt d (start r)) (len (_content d)))
  /\ (~ malformed r -> getWellformedRange r = r).
Proof.
  split; [|apply getWellformedRange_wellformed].
  intros H. split; [apply getWellformedRange_malformed, H|]. split.
  - unfold update. rewrite !applyChanges_app.
    destruct (applyChanges d pre) as [d1| |h1]; [|reflexivity|].
    + cbn [applyChanges applyChange]. rewrite (applyIncremental_swap d1 r t H).
      reflexivity.
    + cbn [applyChanges_holed applyChange_holed].
      rewrite (applyIncremental_holed_swap h1 r t H). reflexivity.
  - intros d'. cbn [applyChange]. unfold applyIncremental.
    rewrite (getWellformedRange_malformed r H). cbn [swap start end_].
    destruct (if _ =? _ then _ else _); [|discriminate].
    intros [= <-]. reflexivity.
Qed.

Lemma update_normalizes_malformed_range_witness :
  let d := create 1 (ofString "hello world") in
  let r := {| start := {| line := 0; character := 5 |};
              end_ := {| line := 0; character := 0 |} |} in
  malformed r
  /\ update d [Incremental r (ofString "HOWDY")] 2
     = update d [Incremental (swap r) (ofString "HOWDY")] 2
  /\ (exists d', update d [Incremental r (ofString "HOWDY")] 2 = Ok d'
                 /\ _content d' = ofString "HOWDY world").
Proof.
  cbv zeta.
  set (d := create 1 (ofString "hello world")).
  set (r := {| start := {| line := 0; character := 5 |};
               end_ := {| line := 0; character := 0 |} |}).
  assert (Hm : malformed r) by (right; cbn; lia).
  destruct (update_normalizes_malformed_range d [] [] r (ofString "HOWDY") 2)
    as [Hmal _].
  destruct (Hmal Hm) as (_ & Heq & _).
  split; [exact Hm|]. split; [exact Heq|].
  eexists. split; reflexivity.
Defined.

End TextDocumentTheory.

(* ===================================================================== *)
(** ** Properties of the key classification                               *)
(* ===================================================================== *)

Module QueryWrappersTheory.

Import QueryWrappers.

Local Open Scope nat_scope.

(** *** The matcher decides the relation *)

Lemma nullable_matches r : nullable r = true <-> matches r [].
Proof.
  split.
  - induction r; cbn; intros H; try discriminate.
    + constructor.
    + apply andb_true_iff in H as [H1 H2].
      change (@nil ascii) with (@nil ascii ++ []). constructor; auto.
    + apply orb_true_iff in H as [H|H]; [apply m_alt_l | apply m_alt_r]; auto.
    + constructor.
  - intros H. remember [] as s eqn:Hs. induction H; cbn; subst; try discriminate; auto.
    + apply app_eq_nil in Hs as [-> ->]. rewrite IHmatches1, IHmatches2; auto.
    + rewrite IHmatches; auto.
    + rewrite IHmatches; auto using orb_true_r.
Qed.

Lemma matches_star_cons_inv r c s :
  matches (Star r) (c :: s) ->
  exists s1 s2, s = s1 ++ s2 /\ matches r (c :: s1) /\ matches (Star r) s2.
Proof.
  intros H. remember (Star r) as r' eqn:Hr. remember (c :: s) as cs eqn:Hcs.
  revert s Hcs. induction H; intros s' Hcs; try discriminate.
  injection Hr as ->.
  destruct s1 as [|c1 s1].
  - cbn in Hcs. apply IHmatches2; auto.
  - cbn in Hcs. injection Hcs as Hc Hs. subst. exists s1, s2. auto.
Qed.

Lemma matches_never s : matches Never s <-> False.
Proof. split; intros H; inversion H. Qed.

Lemma matches_empty s : matches Empty s <-> s = [].
Proof. split; [intros H; inversion H; reflexivity | intros ->; constructor]. Qed.

Lemma matches_class p s : matches (Class p) s <-> exists c, s = [c] /\ p c = true.
Proof.
  split.
  - intros H. inversion H; subst. eauto.
  - intros (c & -> & H). constructor. exact H.
Qed.

Lemma matches_seq r1 r2 s :
  matches (Seq r1 r2) s <-> exists s1 s2, s = s1 ++ s2 /\ matches r1 s1 /\ matches r2 s2.
Proof.
  split.
  - intros H. inversion H; subst. eauto.
  - intros (s1 & s2 & -> & H1 & H2). constructor; auto.
Qed.

Lemma matches_alt r1 r2 s : matches (Alt r1 r2) s <-> matches r1 s \/ matches r2 s.
Proof.
  split.
  - intros H. inversion H; subst; auto.
  - intros [H|H]; [apply m_alt_l | apply m_alt_r]; exact H.
Qed.

Lemma deriv_matches r : forall c s, matches (deriv c r) s <-> matches r (c :: s).
Proof.
  induction r as [| |p|r1 IH1 r2 IH2|r1 IH1 r2 IH2|r IH]; intros c s; cbn [deriv].
  - rewrite !matches_never. reflexivity.
  - rewrite matches_never, matches_empty. split; [tauto | discriminate].
  - rewrite matches_class. destruct (p c) eqn:Hp.
    + rewrite matches_empty. split.
      * intros ->. exists c. auto.
      * intros (c' & [= <- ->] & _). reflexivity.
    + rewrite matches_never. split; [tauto|].
      intros (c' & [= <- ->] & H). congruence.
  - assert (Hseq : matches (Seq (deriv c r1) r2) s <->
                   exists s1 s2, s = s1 ++ s2 /\ matches r1 (c :: s1) /\ matches r2 s2).
    { rewrite matches_seq. split; intros (s1 & s2 & Hs & H1 & H2);
        exists s1, s2; (split; [exact Hs|]); (split; [apply IH1, H1 | exact H2]). }
    assert (Hinv : matches (Seq r1 r2) (c :: s) <->
                   (exists s1 s2, s = s1 ++ s2 /\ matches r1 (c :: s1) /\ matches r2 s2)
                   \/ (matches r1 [] /\ matches r2 (c :: s))).
    { rewrite matches_seq. split.
      - intros (s1 & s2 & Hs & H1 & H2). destruct s1 as [|c1 s1]; cbn in Hs.
        + right. subst. auto.
        + injection Hs as Hc Hs. subst. left. eauto.
      - intros [(s1 & s2 & -> & H1 & H2) | [H1 H2]].
        + exists (c :: s1), s2. auto.
        + exists [], (c :: s). auto. }
    rewrite Hinv. destruct (nullable r1) eqn:Hn.
    + rewrite matches_alt, Hseq, IH2. apply nullable_matches in Hn. tauto.
    + rewrite Hseq. split; [tauto|]. intros [H|[H _]]; [exact H|].
      apply nullable_matches in H. congruence.
  - rewrite !matches_alt, IH1, IH2. reflexivity.
  - rewrite matches_seq. split.
    + intros (s1 & s2 & -> & H1 & H2). apply IH in H1.
      change (c :: s1 ++ s2) with ((c :: s1) ++ s2). constructor; auto.
    + intros H. apply matches_star_cons_inv in H as (s1 & s2 & -> & H1 & H2).
      exists s1, s2. split; [reflexivity|]. split; [apply IH|]; auto.
Qed.

Lemma test_matches r : forall s,
  test r s = true <-> exists p q, s = p ++ q /\ matches r p.
Proof.
  intros s. revert r. induction s as [|c s IH]; intros r; cbn [test].
  - rewrite orb_false_r, nullable_matches. split.
    + intros H. exists [], []. auto.
    + intros (p & q & Hs & H). symmetry in Hs. apply app_eq_nil in Hs as [-> _]. exact H.
  - rewrite orb_true_iff, nullable_matches, IH. split.
    + intros [H|(p & q & -> & H)].
      * exists [], (c :: s). auto.
      * exists (c :: p), q. split; [reflexivity|]. apply deriv_matches, H.
    + intros (p & q & Hs & H). destruct p as [|c' p].
      * left. exact H.
      * cbn in Hs. injection Hs as <- ->. right. exists p, q.
        split; [reflexivity|]. apply deriv_matches, H.
Qed.

(** *** What the two patterns match *)

Lemma matches_lit c s : matches (lit c) s <-> s = [c].
Proof.
  unfold lit. split.
  - intros H. apply matches_class in H as (c' & -> & Hc).
    apply Ascii.eqb_eq in Hc. subst. reflexivity.
  - intros ->. constructor. apply Ascii.eqb_refl.
Qed.

Lemma matches_word w s : matches (word w) s <-> s = w.
Proof.
  revert s. induction w as [|c w IH]; intros s; cbn [word].
  - split; [intros H; inversion H; reflexivity | intros ->; constructor].
  - rewrite matches_seq. split.
    + intros (s1 & s2 & -> & H1 & H2). apply matches_lit in H1. apply IH in H2.
      subst. reflexivity.
    + intros ->. exists [c], w. split; [reflexivity|].
      split; [apply matches_lit | apply IH]; reflexivity.
Qed.

Lemma matches_star_class p s : matches (Star (Class p)) s <-> forallb p s = true.
Proof.
  split.
  - intros H. remember (Star (Class p)) as r eqn:Hr.
    induction H; try discriminate; [reflexivity|].
    injection Hr as ->. apply matches_class in H as (c & -> & Hc).
    cbn. rewrite Hc. cbn. auto.
  - induction s as [|c s IH]; cbn; intros H; [constructor|].
    apply andb_true_iff in H as [H1 H2].
    change (c :: s) with ([c] ++ s). constructor; [constructor|]; auto.
Qed.

Lemma matches_plus_class p s :
  matches (plus (Class p)) s <-> s <> [] /\ forallb p s = true.
Proof.
  unfold plus. rewrite matches_seq. split.
  - intros (s1 & s2 & -> & H1 & H2). apply matches_class in H1 as (c & -> & Hc).
    apply matches_star_class in H2. cbn. rewrite Hc, H2. split; [discriminate|reflexivity].
  - intros [Hne H]. destruct s as [|c s]; [congruence|]. cbn in H.
    apply andb_true_iff in H as [H1 H2]. exists [c], s.
    split; [reflexivity|]. split; [constructor | apply matches_star_class]; auto.
Qed.

Lemma matches_times_class n p : forall s,
  matches (times n (Class p)) s <-> length s = n /\ forallb p s = true.
Proof.
  induction n as [|n IH]; intros s; cbn [times].
  - split.
    + intros H. inversion H. split; reflexivity.
    + intros [H _]. destruct s; [constructor | discriminate].
  - rewrite matches_seq. split.
    + intros (s1 & s2 & -> & H1 & H2). apply matches_class in H1 as (c & -> & Hc).
      apply IH in H2 as [H2 H3]. cbn. rewrite Hc, H2, H3. split; reflexivity.
    + intros [Hl H]. destruct s as [|c s]; [discriminate|]. cbn in *.
      apply andb_true_iff in H as [H1 H2]. exists [c], s.
      split; [reflexivity|]. split; [constructor; auto | apply IH; split; [lia | auto]].
Qed.

Lemma matches_web_pattern s :
  matches web_pattern s <-> s = chars "http://" \/ s = chars "https://".
Proof.
  unfold web_pattern. rewrite matches_seq. split.
  - intros (s1 & s2 & -> & H1 & H2). apply matches_word in H1. subst s1.
    apply matches_seq in H2 as (s3 & s4 & -> & H3 & H4).
    apply matches_word in H4. subst s4.
    apply matches_alt in H3 as [Hs|He].
    + apply matches_lit in Hs. subst. right. reflexivity.
    + apply matches_empty in He. subst. left. reflexivity.
  - intros [-> | ->].
    + exists (chars "http"), (chars "://"). split; [reflexivity|].
      split; [apply matches_word; reflexivity|].
      apply matches_seq. exists [], (chars "://"). split; [reflexivity|].
      split; [apply m_alt_r; constructor | apply matches_word; reflexivity].
    + exists (chars "http"), (chars "s://"). split; [reflexivity|].
      split; [apply matches_word; reflexivity|].
      apply matches_seq. exists (chars "s"), (chars "://"). split; [reflexivity|].
      split; [apply m_alt_l, matches_lit; reflexivity | apply matches_word; reflexivity].
Qed.

Lemma matches_record_pattern s :
  matches record_pattern s <->
  exists a b w, s = a ++ "."%char :: b ++ "."%char :: w /\
    a <> [] /\ b <> [] /\
    forallb notDotSpace a = true /\ forallb notDotSpace b = true /\
    length w = 8 /\ forallb lower w = true.
Proof.
  unfold record_pattern. split.
  - intros H.
    apply matches_seq in H as (a & s1 & -> & Ha & H).
    apply matches_seq in H as (d1 & s2 & -> & Hd1 & H).
    apply matches_seq in H as (b & s3 & -> & Hb & H).
    apply matches_seq in H as (d2 & w & -> & Hd2 & Hw).
    apply matches_lit in Hd1, Hd2. subst d1 d2.
    apply matches_plus_class in Ha as [Ha1 Ha2], Hb as [Hb1 Hb2].
    apply matches_times_class in Hw as [Hw1 Hw2].
    exists a, b, w. repeat split; auto.
  - intros (a & b & w & -> & Ha1 & Hb1 & Ha2 & Hb2 & Hw1 & Hw2).
    apply matches_seq. exists a, ("."%char :: b ++ "."%char :: w).
    split; [reflexivity|]. split; [apply matches_plus_class; auto|].
    apply matches_seq. exists ["."%char], (b ++ "."%char :: w).
    split; [reflexivity|]. split; [apply matches_lit; reflexivity|].
    apply matches_seq. exists b, ("."%char :: w).
    split; [reflexivity|]. split; [apply matches_plus_class; auto|].
    apply matches_seq. exists ["."%char], w.
    split; [reflexivity|]. split; [apply matches_lit; reflexivity|].
    apply matches_times_class. auto.
Qed.

Lemma test_web_pattern k : test web_pattern k = true <-> web_shape k.
Proof.
  rewrite test_matches. unfold web_shape. split.
  - intros (p & q & -> & H). apply matches_web_pattern in H as [-> | ->]; eauto.
  - intros (rest & [-> | ->]); eexists _, rest;
      (split; [reflexivity|]); apply matches_web_pattern; auto.
Qed.

Lemma test_record_pattern k : test record_pattern k = true <-> record_shape k.
Proof.
  rewrite test_matches. unfold record_shape. split.
  - intros (p & q & -> & H).
    apply matches_record_pattern in H as (a & b & w & -> & H).
    exists a, b, w, q. split; [|exact H].
    rewrite <- !app_assoc. cbn. rewrite <- !app_assoc. reflexivity.
  - intros (a & b & w & rest & -> & H).
    exists (a ++ "."%char :: b ++ "."%char :: w), rest. split.
    + rewrite <- !app_assoc. cbn. rewrite <- !app_assoc. reflexivity.
    + apply matches_record_pattern. exists a, b, w. split; [reflexivity | exact H].
Qed.

Lemma includes_space_In k : includes_space k = true <-> In " "%char k.
Proof.
  unfold includes_space. rewrite existsb_exists. split.
  - intros (c & Hin & Hc). apply Ascii.eqb_eq in Hc. subst. exact Hin.
  - intros H. exists " "%char. split; [exact H | reflexivity].
Qed.

Lemma slice_is_true n k w : slice_is n k w = true <-> firstn n k = w.
Proof. unfold slice_is, list_ascii_eqb. apply bool_decide_eq_true. Qed.

(** C5, as the code has it.  The rules are tried in order: a space in the
    key gives unknown, whatever else the key looks like; otherwise the
    prefix "mail:" gives mail; otherwise the prefix "/" gives media;
    otherwise the prefix "http://" or "https://" gives web; otherwise a key
    that starts with two non-empty segments free of dots and spaces, each
    followed by a dot, and then eight lower-case letters (with anything
    after them) is a record; every other key is unknown.  The five keys of
    the specification are classified as it says. *)
Theorem type_ordered_rules (key : string) :
  (In " "%char (chars key) -> type key = unknown)
  /\ (~ In " "%char (chars key) ->
      (firstn 5 (chars key) = chars "mail:" -> type key = mail)
      /\ (firstn 5 (chars key) <> chars "mail:" ->
          (firstn 1 (chars key) = chars "/" -> type key = media)
          /\ (firstn 1 (chars key) <> chars "/" ->
              (web_shape (chars key) -> type key = web)
              /\ (~ web_shape (chars key) ->
                  (record_shape (chars key) -> type key = record)
                  /\ (~ record_shape (chars key) -> type key = unknown)))))
  /\ type "mail:alice@x.com" = mail
  /\ type "/img/a.png" = media
  /\ type "https://x.com" = web
  /\ type "a.b.abcdefgh" = record
  /\ type "has space" = unknown.
Proof.
  split; [|split; [|repeat split; reflexivity]].
  - intros H. apply includes_space_In in H. unfold type. rewrite H. reflexivity.
  - intros Hsp. unfold type.
    destruct (includes_space (chars key)) eqn:Esp;
      [apply includes_space_In in Esp; contradiction|].
    destruct (slice_is 5 (chars key) (chars "mail:")) eqn:Email.
    { apply slice_is_true in Email. split; [reflexivity | contradiction]. }
    split; [intros H; apply slice_is_true in H; congruence|]. intros _.
    destruct (slice_is 1 (chars key) (chars "/")) eqn:Emedia.
    { apply slice_is_true in Emedia. split; [reflexivity | contradiction]. }
    split; [intros H; apply slice_is_true in H; congruence|]. intros _.
    destruct (test web_pattern (chars key)) eqn:Eweb.
    { apply test_web_pattern in Eweb. split; [reflexivity | contradiction]. }
    split; [intros H; apply test_web_pattern in H; congruence|]. intros _.
    destruct (test record_pattern (chars key)) eqn:Erec.
    { apply test_record_pattern in Erec. split; [reflexivity | contradiction]. }
    split; [intros H; apply test_record_pattern in H; congruence | reflexivity].
Qed.

Lemma type_ordered_rules_witness :
  type "proj.notes.abcdefghXYZ" = record /\ type "a b" = unknown.
Proof.
  destruct (type_ordered_rules "proj.notes.abcdefghXYZ") as (_ & Hrules & _).
  destruct (type_ordered_rules "a b") as (Hspace & _).
  split.
  - assert (Hsp : ~ In " "%char (chars "proj.notes.abcdefghXYZ")).
    { cbn. intros H. repeat (destruct H as [H|H]; [discriminate H|]). exact H. }
    destruct (Hrules Hsp) as (_ & Hmail).
    destruct (Hmail ltac:(discriminate)) as (_ & Hmedia).
    destruct (Hmedia ltac:(discriminate)) as (_ & Hweb).
    assert (Hnw : ~ web_shape (chars "proj.notes.abcdefghXYZ")).
    { intros (rest & [H|H]); discriminate H. }
    destruct (Hweb Hnw) as (Hrec & _). apply Hrec.
    exists (chars "proj"), (chars "notes"), (chars "abcdefgh"), (chars "XYZ").
    repeat split; discriminate.
  - apply Hspace. cbn. auto.
Defined.

(** C5 as the specification states it fails on the code: a tab is
    whitespace, yet a key with a tab and the prefix "mail:" is classified
    mail; and a third segment of eight characters that are not lower-case
    letters does not make a record, while a longer third segment that starts
    with eight lower-case letters does. *)
Lemma type_spec_counterexample :
  (type "a.b.ABCDEFGH" = unknown /\ type_spec "a.b.ABCDEFGH" = record)
  /\ (type "a.b.abcdefghij" = record /\ type_spec "a.b.abcdefghij" = unknown)
  /\ (type tab_key = mail /\ type_spec tab_key = unknown)
  /\ ~ (forall key, type key = type_spec key).
Proof.
  repeat split; try reflexivity.
  intros H. specialize (H "a.b.ABCDEFGH"). discriminate H.
Qed.

End QueryWrappersTheory.

(* ===================================================================== *)
(** ** Properties of the scheduler and the server                         *)
(* ===================================================================== *)

Module ServerTheory.

Import Server.

Local Open Scope nat_scope.

Ltac fields :=
  cbn [documents workspaces tasks jobs workspaceIdCounter documentIdCounter
       taskIdCounter jobIdCounter priorityQueue cancelled suspended trace
       set_documents set_workspaces set_tasks set_jobs set_workspaceIdCounter
       set_documentIdCounter set_taskIdCounter set_jobIdCounter
       set_priorityQueue set_cancelled set_suspended set_trace
       job_id taskId fst snd] in *.

(** *** Lists *)

Lemma find_app {A} (f : A -> bool) l1 l2 :
  List.find f (l1 ++ l2)
  = match List.find f l1 with Some x => Some x | None => List.find f l2 end.
Proof. induction l1 as [|a l1 IH]; cbn; [reflexivity|]. destruct (f a); auto. Qed.

Lemma find_none_iff {A} (f : A -> bool) l :
  List.find f l = None <-> forall x, In x l -> f x = false.
Proof.
  split; [apply find_none|].
  induction l as [|a l IH]; cbn; intros H; [reflexivity|].
  rewrite (H a) by auto. apply IH. auto.
Qed.

Lemma NoDup_map_filter {A B} (g : A -> B) (f : A -> bool) l :
  List.NoDup (map g l) -> List.NoDup (map g (List.filter f l)).
Proof.
  induction l as [|a l IH]; cbn; intros H; [constructor|].
  apply NoDup_cons_iff in H as [Hn Hl]. destruct (f a); cbn; [|auto].
  apply NoDup_cons_iff. split; [|auto].
  intros Hin. apply Hn. apply in_map_iff in Hin as (x & Hx & Hin).
  apply filter_In in Hin as [Hin _]. apply in_map_iff. eauto.
Qed.

Lemma NoDup_snoc {A} (l : list A) x : List.NoDup l -> ~ In x l -> List.NoDup (l ++ [x]).
Proof.
  intros Hl Hx. induction l as [|a l IH]; cbn.
  - constructor; [intros []|constructor].
  - apply NoDup_cons_iff in Hl as [Ha Hl]. apply NoDup_cons_iff. split.
    + rewrite in_app_iff. cbn. intros [H|[H|[]]]; [auto|]. subst. apply Hx. left. reflexivity.
    + apply IH; [exact Hl|]. intros H. apply Hx. right. exact H.
Qed.

(** *** Scheduling one job *)

Lemma submitTask_S fuel task s :
  submitTask (S fuel) task s
  = match jobs_by_taskId s (task_id task) with
    | Some job => Some (job_id job, s)
    | None =>
        match fold_left (visit (submitTask fuel)) (dependencies s task) (Some s) with
        | None => None
        | Some s1 => schedule task s1
        end
    end.
Proof. reflexivity. Qed.

Lemma processJob_cancelled id s :
  id ∈ cancelled s -> processJob id s = set_cancelled (cancelled s ∖ {[id]}) s.
Proof. intros H. unfold processJob. rewrite bool_decide_eq_true_2 by exact H. reflexivity. Qed.

Lemma processJob_no_task id s job :
  id ∉ cancelled s -> jobs_by_id s id = Some job ->
  tasks_by_id s (taskId job) = None -> processJob id s = s.
Proof.
  intros H Hj Ht. unfold processJob. rewrite bool_decide_eq_false_2 by exact H.
  rewrite Hj, Ht. reflexivity.
Qed.

Lemma processJob_enters id s job t :
  id ∉ cancelled s -> jobs_by_id s id = Some job ->
  tasks_by_id s (taskId job) = Some t ->
  processJob id s
  = set_suspended (suspended s ++ [(id, taskId job)])
      (set_trace (trace s ++ [ExecStart id (taskId job)]) s).
Proof.
  intros H Hj Ht. unfold processJob. rewrite bool_decide_eq_false_2 by exact H.
  rewrite Hj, Ht. apply find_some in Ht as [_ Ht]. apply Nat.eqb_eq in Ht.
  rewrite Ht. reflexivity.
Qed.

(** What [schedule] does to a state between two turns. *)
Lemma schedule_cases task s1 h s' :
  wf s1 -> schedule task s1 = Some (h, s') ->
  h = S (jobIdCounter s1)
  /\ jobs_by_taskId s1 (task_id task) = None
  /\ documents s' = documents s1 /\ workspaces s' = workspaces s1
  /\ tasks s' = tasks s1 /\ taskIdCounter s' = taskIdCounter s1
  /\ documentIdCounter s' = documentIdCounter s1
  /\ workspaceIdCounter s' = workspaceIdCounter s1
  /\ jobIdCounter s' = h /\ priorityQueue s' = []
  /\ jobs s' = jobs s1 ++ [mkJob h (task_id task)]
  /\ (((h ∈ cancelled s1) /\ cancelled s' = cancelled s1 ∖ {[h]}
       /\ suspended s' = suspended s1 /\ trace s' = trace s1)
      \/ ((h ∉ cancelled s1) /\ cancelled s' = cancelled s1
          /\ ((tasks_by_id s1 (task_id task) = None
               /\ suspended s' = suspended s1 /\ trace s' = trace s1)
              \/ (tasks_by_id s1 (task_id task) <> None
                  /\ suspended s' = suspended s1 ++ [(h, task_id task)]
                  /\ trace s' = trace s1 ++ [ExecStart h (task_id task)])))).
Proof.
  intros Hwf Hs. unfold schedule, jobs_insert in Hs. fields.
  destruct (existsb _ (jobs s1)) eqn:Hdup; [discriminate|].
  unfold signal, pq_push in Hs. fields. rewrite (wf_queue _ Hwf) in Hs.
  cbn [app pq_pop pq_top remove_first] in Hs. rewrite Nat.eqb_refl in Hs.
  injection Hs as <- Hs.
  split; [reflexivity|].
  assert (Hold : forall j, In j (jobs s1) ->
                   job_id j <> S (jobIdCounter s1) /\ taskId j <> task_id task).
  { intros j Hj.
    assert (Hb : (job_id j =? S (jobIdCounter s1)) || (taskId j =? task_id task) = false).
    { apply not_true_iff_false. intros Hb. apply not_true_iff_false in Hdup.
      apply Hdup. apply existsb_exists. exists j. auto. }
    apply orb_false_iff in Hb as [H1 H2]. apply Nat.eqb_neq in H1, H2. auto. }
  split.
  { unfold jobs_by_taskId. apply find_none_iff. intros j Hj.
    apply Nat.eqb_neq, Hold, Hj. }
  set (h := S (jobIdCounter s1)) in *.
  set (base := set_priorityQueue [] _) in Hs.
  assert (Hjob : jobs_by_id base h = Some (mkJob h (task_id task))).
  { unfold jobs_by_id, base. fields. rewrite find_app.
    replace (List.find _ (jobs s1)) with (@None Job).
    - cbn. rewrite Nat.eqb_refl. reflexivity.
    - symmetry. apply find_none_iff. intros j Hj. apply Nat.eqb_neq, Hold, Hj. }
  destruct (decide (h ∈ cancelled s1)) as [Hc|Hc].
  - rewrite processJob_cancelled in Hs by exact Hc. subst s' base. fields.
    repeat (split; [reflexivity|]). left. auto.
  - destruct (tasks_by_id s1 (task_id task)) as [t|] eqn:Ht.
    + rewrite (processJob_enters h base _ t Hc Hjob Ht) in Hs. subst s' base. fields.
      repeat (split; [reflexivity|]). right. split; [exact Hc|]. split; [reflexivity|].
      right. split; [discriminate|]. split; reflexivity.
    + rewrite (processJob_no_task h base _ Hc Hjob Ht) in Hs. subst s' base. fields.
      repeat (split; [reflexivity|]). right. split; [exact Hc|]. split; [reflexivity|].
      left. auto.
Qed.

Lemma schedule_wf task s1 h s' :
  wf s1 -> schedule task s1 = Some (h, s') -> wf s'.
Proof.
  intros Hwf Hs.
  destruct (schedule_cases _ _ _ _ Hwf Hs)
    as (-> & Hnone & Hd & Hw & Ht & Htc & _ & _ & Hc & Hq & Hj & Hcases).
  destruct Hwf as [Wq Wids Wuid Wut Wsids Wsu Wtr Wtasks].
  assert (Hweak : forall (A : Type) (f : A -> nat) l,
            Forall (fun x => f x <= jobIdCounter s1) l ->
            Forall (fun x => f x <= S (jobIdCounter s1)) l).
  { intros A f l. apply List.Forall_impl. intros; lia. }
  assert (Hfresh : forall (A : Type) (f : A -> nat) l,
            Forall (fun x => f x <= jobIdCounter s1) l ->
            ~ In (S (jobIdCounter s1)) (map f l)).
  { intros A f l Hl Hin. apply in_map_iff in Hin as (x & Hx & Hin).
    rewrite List.Forall_forall in Hl. specialize (Hl x Hin). cbn in Hl. lia. }
  assert (Hsus : Forall (fun p => fst p <= jobIdCounter s') (suspended s')
                 /\ List.NoDup (map fst (suspended s'))
                 /\ Forall (fun e => match event_job e with
                                     | Some j => j <= jobIdCounter s'
                                     | None => True end) (trace s')).
  { rewrite Hc.
    assert (Htr' : Forall (fun e => match event_job e with
                                    | Some j => j <= S (jobIdCounter s1)
                                    | None => True end) (trace s1)).
    { revert Wtr. apply List.Forall_impl. intros e. destruct (event_job e); lia. }
    destruct Hcases as [(_ & _ & -> & ->) | (_ & _ & [(_ & -> & ->) | (_ & -> & ->)])];
      try (split; [apply (Hweak _ fst), Wsids | split; [exact Wsu | exact Htr']]).
    split; [|split].
    - apply Forall_app. split; [apply (Hweak _ fst), Wsids|]. repeat constructor.
    - rewrite map_app. apply NoDup_snoc; [exact Wsu | apply (Hfresh _ fst), Wsids].
    - apply Forall_app. split; [exact Htr'|]. repeat constructor. }
  destruct Hsus as (S1 & S2 & S3).
  constructor; try assumption.
  - rewrite Hj, Hc. apply Forall_app. split; [apply (Hweak _ job_id), Wids|].
    repeat constructor.
  - rewrite Hj, map_app. apply NoDup_snoc; [exact Wuid | apply (Hfresh _ job_id), Wids].
  - rewrite Hj, map_app. apply NoDup_snoc; [exact Wut|].
    intros Hin. apply in_map_iff in Hin as (j & Hjt & Hin).
    unfold jobs_by_taskId in Hnone.
    apply (proj1 (find_none_iff _ _) Hnone) in Hin. apply Nat.eqb_neq in Hin. auto.
  - rewrite Ht, Htc. exact Wtasks.
Qed.

Lemma grows_refl s : grows s s.
Proof.
  constructor; try reflexivity; try lia; try (exists []; rewrite app_nil_r; auto); auto.
Qed.

Lemma grows_trans s s' s'' : grows s s' -> grows s' s'' -> grows s s''.
Proof.
  intros [D1 W1 T1 TC1 C1 (nj1 & J1 & FJ1) (ev1 & E1 & FE1) (su1 & S1 & FS1) K1 KO1]
         [D2 W2 T2 TC2 C2 (nj2 & J2 & FJ2) (ev2 & E2 & FE2) (su2 & S2 & FS2) K2 KO2].
  constructor; try congruence; try lia.
  - exists (nj1 ++ nj2). split; [rewrite J2, J1, app_assoc; reflexivity|].
    apply Forall_app. split; [exact FJ1|].
    revert FJ2. apply List.Forall_impl. intros; lia.
  - exists (ev1 ++ ev2). split; [rewrite E2, E1, app_assoc; reflexivity|].
    apply Forall_app. split.
    + revert FE1. apply List.Forall_impl. intros e (j & t & -> & Hj & Hnc & Hin).
      exists j, t. split; [reflexivity|]. split; [exact Hj|]. split; [exact Hnc|].
      rewrite J2. apply in_or_app. left. exact Hin.
    + revert FE2. apply List.Forall_impl. intros e (j & t & -> & Hj & Hnc & Hin).
      exists j, t. split; [reflexivity|]. split; [lia|]. split; [|exact Hin].
      intros Hc. apply Hnc. apply KO1; [exact Hc | lia].
  - exists (su1 ++ su2). split; [rewrite S2, S1, app_assoc; reflexivity|].
    apply Forall_app. split; [exact FS1|].
    revert FS2. apply List.Forall_impl. intros p [Hp Hnc]. split; [lia|].
    intros Hc. apply Hnc. apply KO1; [exact Hc | lia].
  - auto.
  - intros id Hid Hle. apply KO2; [apply KO1; [assumption | lia] | lia].
Qed.

Lemma schedule_grows task s1 h s' :
  wf s1 -> schedule task s1 = Some (h, s') -> grows s1 s'.
Proof.
  intros Hwf Hs.
  destruct (schedule_cases _ _ _ _ Hwf Hs)
    as (-> & Hnone & Hd & Hw & Ht & Htc & _ & _ & Hc & Hq & Hj & Hcases).
  assert (Hin : In (mkJob (S (jobIdCounter s1)) (task_id task)) (jobs s')).
  { rewrite Hj. apply in_or_app. right. left. reflexivity. }
  constructor; try assumption; try lia.
  - exists [mkJob (S (jobIdCounter s1)) (task_id task)]. split; [exact Hj|].
    repeat constructor.
  - destruct Hcases as [(_ & _ & _ & ->) | (Hnc & _ & [(_ & _ & ->) | (_ & _ & ->)])];
      try (exists []; rewrite app_nil_r; split; [reflexivity | constructor]).
    eexists. split; [reflexivity|]. repeat constructor.
    exists (S (jobIdCounter s1)), (task_id task). auto.
  - destruct Hcases as [(_ & _ & -> & _) | (Hnc & _ & [(_ & -> & _) | (_ & -> & _)])];
      try (exists []; rewrite app_nil_r; split; [reflexivity | constructor]).
    eexists. split; [reflexivity|].
    constructor; [split; [cbn; lia | exact Hnc] | constructor].
  - intros id. destruct Hcases as [(_ & -> & _) | (_ & -> & _)]; [|auto].
    intros H. apply elem_of_difference in H as [H _]. exact H.
  - intros id Hid Hle. destruct Hcases as [(_ & -> & _) | (_ & -> & _)]; [|auto].
    apply elem_of_difference. split; [exact Hid|]. rewrite elem_of_singleton. lia.
Qed.

(** Whatever every [schedule] keeps, [submitTask] keeps. *)
Lemma submitTask_invariant (P : State -> Prop) :
  (forall task s1 h s', P s1 -> schedule task s1 = Some (h, s') -> P s') ->
  forall fuel task s h s', P s -> submitTask fuel task s = Some (h, s') -> P s'.
Proof.
  intros Hsch. induction fuel as [|fuel IH]; intros task s h s' HP Hs; [discriminate|].
  rewrite submitTask_S in Hs.
  destruct (jobs_by_taskId s (task_id task)); [injection Hs as <- <-; exact HP|].
  destruct (fold_left _ _ _) as [s1|] eqn:Hfold; [|discriminate].
  apply (Hsch task s1 h s'); [|exact Hs].
  assert (Hdeps : forall deps acc, fold_left (visit (submitTask fuel)) deps acc = Some s1 ->
            (forall s0, acc = Some s0 -> P s0) -> P s1).
  { clear Hfold Hs. induction deps as [|d deps IHd]; cbn [fold_left]; intros acc Hf Hacc.
    - apply Hacc, Hf.
    - apply (IHd _ Hf). intros s0 Hv. unfold visit in Hv.
      destruct acc as [s0'|]; [|discriminate]. specialize (Hacc _ eq_refl).
      destruct (lastCompleted d); [injection Hv as <-; exact Hacc|].
      destruct (jobs_by_taskId s0' (task_id d)); [injection Hv as <-; exact Hacc|].
      destruct (submitTask fuel d s0') as [[h0 s0'']|] eqn:Hsub; [|discriminate].
      injection Hv as <-. eapply IH; eauto. }
  apply (Hdeps _ _ Hfold). intros s0 [= <-]. exact HP.
Qed.

Lemma submitTask_wf_grows fuel task s h s' :
  wf s -> submitTask fuel task s = Some (h, s') -> wf s' /\ grows s s'.
Proof.
  intros Hwf Hs.
  apply (submitTask_invariant (fun x => wf x /\ grows s x)) with fuel task s h;
    [|split; [exact Hwf | apply grows_refl] | exact Hs].
  intros t s1 h1 s1' [Hw Hg] Hsch. split; [eapply schedule_wf; eauto|].
  eapply grows_trans; [exact Hg | eapply schedule_grows; eauto].
Qed.

(** More fuel does not change what a call returns. *)
Lemma submitTask_fuel_mono fuel : forall fuel' task s r,
  fuel <= fuel' -> submitTask fuel task s = Some r -> submitTask fuel' task s = Some r.
Proof.
  induction fuel as [|fuel IH]; intros fuel' task s r Hle Hs; [discriminate|].
  destruct fuel' as [|fuel']; [lia|]. rewrite submitTask_S in *.
  destruct (jobs_by_taskId s (task_id task)); [exact Hs|].
  destruct (fold_left (visit (submitTask fuel)) _ _) as [s1|] eqn:Hfold; [|discriminate].
  assert (Hdeps : forall deps acc,
            fold_left (visit (submitTask fuel)) deps acc = Some s1 ->
            fold_left (visit (submitTask fuel')) deps acc = Some s1).
  { clear Hfold Hs. induction deps as [|d deps IHd]; cbn [fold_left]; intros acc Hf; [exact Hf|].
    assert (Hnone : forall deps', fold_left (visit (submitTask fuel)) deps' None = None).
    { induction deps'; cbn; auto. }
    destruct (visit (submitTask fuel) acc d) as [sv|] eqn:Hv;
      [|rewrite Hnone in Hf; discriminate].
    replace (visit (submitTask fuel') acc d) with (Some sv); [apply IHd, Hf|].
    symmetry. unfold visit in *. destruct acc as [s0|]; [|discriminate].
    destruct (lastCompleted d); [exact Hv|].
    destruct (jobs_by_taskId s0 (task_id d)); [exact Hv|].
    destruct (submitTask fuel d s0) as [[h0 s0']|] eqn:Hsub; [|discriminate].
    rewrite (IH fuel' d s0 (h0, s0')); [exact Hv | lia | exact Hsub]. }
  rewrite (Hdeps _ _ Hfold). exact Hs.
Qed.

(** *** What each action does *)

Lemma tasks_by_id_eq s s' tid :
  tasks s' = tasks s -> tasks_by_id s' tid = tasks_by_id s tid.
Proof. unfold tasks_by_id. intros ->. reflexivity. Qed.

Lemma tasks_by_id_filter s s' f tid :
  tasks s' = List.filter f (tasks s) ->
  tasks_by_id s tid = None -> tasks_by_id s' tid = None.
Proof.
  unfold tasks_by_id. intros -> H. apply find_none_iff. intros t Ht.
  apply filter_In in Ht as [Ht _]. apply (proj1 (find_none_iff _ _) H), Ht.
Qed.

Lemma grows_effect s s' : grows s s' -> effect s s'.
Proof.
  intros [D W T TC C (nj & J & FJ) (ev & E & FE) (su & S & FS) K KO].
  constructor; try lia; auto.
  - intros j Hj. rewrite J in Hj. apply in_app_or in Hj as [Hj|Hj]; [auto|].
    right. rewrite List.Forall_forall in FJ. apply FJ, Hj.
  - intros j Hj. left. rewrite J. apply in_or_app. auto.
  - exists ev. split; [exact E|]. revert FE. apply List.Forall_impl.
    intros e (j & t & -> & H). exact H.
  - intros p Hp. rewrite S in Hp. apply in_app_or in Hp as [Hp|Hp]; [auto|].
    right. rewrite List.Forall_forall in FS. apply FS, Hp.
  - intros tid H _. rewrite (tasks_by_id_eq s s' tid T). exact H.
Qed.

Lemma effect_no_events s s' :
  jobIdCounter s' = jobIdCounter s -> taskIdCounter s <= taskIdCounter s' ->
  jobs s' = jobs s -> trace s' = trace s ->
  (forall p, In p (suspended s') -> In p (suspended s)) ->
  (forall id, id ∈ cancelled s -> id ∈ cancelled s') ->
  (forall tid, tasks_by_id s tid = None -> tid <= taskIdCounter s ->
               tasks_by_id s' tid = None) ->
  effect s s'.
Proof.
  intros C TC J T S K G. constructor; try lia; auto.
  - intros j Hj. rewrite J in Hj. auto.
  - intros j Hj. rewrite J. auto.
  - exists []. rewrite app_nil_r. split; [exact T | constructor].
Qed.

Lemma cancelJob_wf id s : wf s -> wf (cancelJob id s).
Proof. intros [? ? ? ? ? ? ? ?]. constructor; assumption. Qed.

Lemma cancelJob_effect id s : effect s (cancelJob id s).
Proof.
  apply effect_no_events; try reflexivity; auto.
  intros x Hx. unfold cancelJob. fields. apply elem_of_union. auto.
Qed.

Lemma Forall_filter_keeps {A} (P : A -> Prop) f l :
  Forall P l -> Forall P (List.filter f l).
Proof.
  rewrite !List.Forall_forall. intros H x Hx. apply filter_In in Hx as [Hx _]. auto.
Qed.

Lemma find_map_id {A} (key : A -> nat) (g : A -> A) l k :
  (forall x, key (g x) = key x) ->
  List.find (fun x => key x =? k) l = None ->
  List.find (fun x => key x =? k) (map g l) = None.
Proof.
  intros Hg H. apply find_none_iff. intros y Hy.
  apply in_map_iff in Hy as (x & <- & Hx). rewrite Hg.
  apply (proj1 (find_none_iff _ _) H), Hx.
Qed.

Lemma resume_cases jobId now s s' :
  resume jobId now s = Some s' ->
  In jobId (map fst (suspended s))
  /\ ((s' = set_suspended (List.filter (fun p => negb (fst p =? jobId)) (suspended s)) s)
      \/ exists tid task,
           In (jobId, tid) (suspended s) /\ tasks_by_id s tid = Some task
           /\ executeTask_resolves s task = true
           /\ s' = set_jobs (List.filter (fun j => negb (job_id j =? jobId)) (jobs s))
                     (set_trace (trace s ++ [Completed tid now; Fulfilled jobId])
                        (set_tasks
                           (map (fun t => if task_id t =? tid
                                          then mkTask (task_id task) (operation task)
                                                 (documentId task) (workspaceId task)
                                                 (dependencyIds task) (Some now)
                                          else t) (tasks s))
                           (set_suspended
                              (List.filter (fun p => negb (fst p =? jobId)) (suspended s)) s)))).
Proof.
  unfold resume. destruct (List.find _ (suspended s)) as [[j tid]|] eqn:Hf; [|discriminate].
  apply find_some in Hf as [Hin Hj]. cbn in Hj. apply Nat.eqb_eq in Hj. subst j.
  intros Hs. split; [apply in_map_iff; exists (jobId, tid); auto|].
  destruct (tasks_by_id s tid) as [task|] eqn:Ht; [|left; congruence].
  destruct (executeTask_resolves s task) eqn:Hr; [|left; congruence].
  right. exists tid, task. fields. injection Hs as <-. auto.
Qed.

Lemma resume_wf_effect jobId now s s' :
  wf s -> resume jobId now s = Some s' ->
  wf s' /\ effect s s' /\ cancelled s' = cancelled s.
Proof.
  intros Hwf Hs. destruct (resume_cases _ _ _ _ Hs) as [Hsus Hcases].
  pose proof Hwf as [Wq Wids Wuid Wut Wsids Wsu Wtr Wtasks].
  assert (Hle : jobId <= jobIdCounter s).
  { apply in_map_iff in Hsus as (p & <- & Hp).
    rewrite List.Forall_forall in Wsids. apply Wsids, Hp. }
  destruct Hcases as [-> | (tid & task & Hin & Ht & Hr & ->)].
  - split; [|split; [|reflexivity]].
    + constructor; fields; try assumption.
      * apply Forall_filter_keeps, Wsids.
      * apply NoDup_map_filter, Wsu.
    + apply effect_no_events; fields; try reflexivity; auto.
      intros p Hp. apply filter_In in Hp as [Hp _]. exact Hp.
  - assert (Hid : forall t, task_id (if task_id t =? tid
                                     then mkTask (task_id task) (operation task)
                                            (documentId task) (workspaceId task)
                                            (dependencyIds task) (Some now)
                                     else t) = task_id t).
    { intros t. destruct (task_id t =? tid) eqn:E; [|reflexivity]. cbn.
      apply Nat.eqb_eq in E. apply find_some in Ht as [_ Ht].
      apply Nat.eqb_eq in Ht. congruence. }
    split; [|split; [|reflexivity]].
    + constructor; fields; try assumption.
      * apply Forall_filter_keeps, Wids.
      * apply NoDup_map_filter, Wuid.
      * apply NoDup_map_filter, Wut.
      * apply Forall_filter_keeps, Wsids.
      * apply NoDup_map_filter, Wsu.
      * apply Forall_app. split; [exact Wtr|]. repeat constructor. cbn. exact Hle.
      * rewrite List.Forall_forall in *. intros t' Ht'.
        apply in_map_iff in Ht' as (t & <- & Hin'). rewrite Hid. apply Wtasks, Hin'.
    + constructor; fields; try lia; auto.
      * intros j Hj. apply filter_In in Hj as [Hj _]. auto.
      * intros j Hj. destruct (Nat.eq_dec (job_id j) jobId) as [E|E].
        -- right. left. rewrite E. apply in_or_app. right. right. left. reflexivity.
        -- left. apply filter_In. split; [exact Hj|].
           apply negb_true_iff, Nat.eqb_neq, E.
      * eexists. split; [reflexivity|]. repeat constructor; [exact Hsus|].
        intros Hj. apply in_map_iff in Hj as (j & Hjid & Hj).
        apply filter_In in Hj as [_ Hj]. apply negb_true_iff, Nat.eqb_neq in Hj. auto.
      * intros p Hp. apply filter_In in Hp as [Hp _]. auto.
      * intros tid' H _. unfold tasks_by_id in *. fields.
        apply (find_map_id task_id); assumption.
Qed.

(** *** Removal *)

Lemma drops_refl s : drops s s.
Proof.
  constructor; try reflexivity; auto.
  - exists (fun _ => true). symmetry. apply forallb_filter_id, forallb_forall. auto.
  - exists (fun _ => true). symmetry. apply forallb_filter_id, forallb_forall. auto.
  - intros j H1 H2. contradiction.
Qed.

Lemma filter_filter {A} (f g : A -> bool) l :
  List.filter f (List.filter g l) = List.filter (fun x => g x && f x) l.
Proof.
  induction l as [|a l IH]; cbn; [reflexivity|].
  destruct (g a); cbn; [destruct (f a); cbn|]; rewrite IH; reflexivity.
Qed.

Lemma drops_trans s s' s'' : drops s s' -> drops s' s'' -> drops s s''.
Proof.
  intros [(f1 & J1) (g1 & T1) C1 TC1 Q1 S1 E1 K1 KN1 R1]
         [(f2 & J2) (g2 & T2) C2 TC2 Q2 S2 E2 K2 KN2 R2].
  assert (Hsub : forall j, In j (jobs s'') -> In j (jobs s')).
  { intros j. rewrite J2. intros H. apply filter_In in H as [H _]. exact H. }
  assert (Hsub1 : forall j, In j (jobs s') -> In j (jobs s)).
  { intros j. rewrite J1. intros H. apply filter_In in H as [H _]. exact H. }
  constructor; try congruence; auto.
  - exists (fun x => f1 x && f2 x). rewrite J2, J1. apply filter_filter.
  - exists (fun x => g1 x && g2 x). rewrite T2, T1. apply filter_filter.
  - intros id Hid. destruct (KN2 id Hid) as [H | [H1 H2]].
    + destruct (KN1 id H) as [H' | [H1 H2]]; [auto|]. right. split; [exact H1|].
      intros Hin. apply H2. apply in_map_iff in Hin as (j & Hj & Hin).
      apply in_map_iff. exists j. auto.
    + right. split; [|exact H2]. apply in_map_iff in H1 as (j & Hj & Hin).
      apply in_map_iff. exists j. auto.
  - intros j Hj Hn. destruct (f1 j) eqn:E.
    + apply R2; [|exact Hn]. rewrite J1. apply filter_In. auto.
    + apply (tasks_by_id_filter s' s'' g2 _ T2). apply R1; [exact Hj|].
      rewrite J1. intros H. apply filter_In in H as [_ H]. congruence.
Qed.

Lemma drops_wf s s' : wf s -> drops s s' -> wf s'.
Proof.
  intros [Wq Wids Wuid Wut Wsids Wsu Wtr Wtasks]
         [(f & J) (g & T) C TC Q S E K KN R].
  constructor; rewrite ?J, ?T, ?C, ?TC, ?Q, ?S, ?E; try assumption.
  - apply Forall_filter_keeps, Wids.
  - apply NoDup_map_filter, Wuid.
  - apply NoDup_map_filter, Wut.
  - apply Forall_filter_keeps, Wtasks.
Qed.

Lemma NoDup_map_inj {A} (key : A -> nat) l x y :
  List.NoDup (map key l) -> In x l -> In y l -> key x = key y -> x = y.
Proof.
  induction l as [|a l IH]; cbn; intros Hnd Hx Hy Hk; [contradiction|].
  apply NoDup_cons_iff in Hnd as [Hn Hnd].
  destruct Hx as [->|Hx], Hy as [->|Hy]; auto.
  - exfalso. apply Hn. rewrite Hk. apply in_map, Hy.
  - exfalso. apply Hn. rewrite <- Hk. apply in_map, Hx.
Qed.

Lemma dropTask_drops s t : wf s -> drops s (dropTask s t).
Proof.
  intros Hwf. unfold dropTask, cancelJob.
  assert (Htasks : forall s1, tasks_by_id
            (set_tasks (List.filter (fun t' => negb (task_id t' =? task_id t)) (tasks s1)) s1)
            (task_id t) = None).
  { intros s1. unfold tasks_by_id. fields. apply find_none_iff. intros x Hx.
    apply filter_In in Hx as [_ Hx]. apply negb_true_iff in Hx. exact Hx. }
  destruct (jobs_by_taskId s (task_id t)) as [job|] eqn:Hjob.
  - apply find_some in Hjob as [Hin Htid]. apply Nat.eqb_eq in Htid.
    constructor; fields; try reflexivity; eauto.
    + intros id Hid. apply elem_of_union. auto.
    + intros id Hid. apply elem_of_union in Hid as [Hid|Hid]; [|auto].
      apply elem_of_singleton in Hid. subst id. right. split; [apply in_map, Hin|].
      intros H. apply in_map_iff in H as (j & Hj & H).
      apply filter_In in H as [_ H]. apply negb_true_iff, Nat.eqb_neq in H. auto.
    + intros j Hj Hn.
      assert (E : job_id j = job_id job).
      { destruct (Nat.eq_dec (job_id j) (job_id job)) as [E|E]; [exact E|].
        exfalso. apply Hn. apply filter_In. split; [exact Hj|].
        apply negb_true_iff, Nat.eqb_neq, E. }
      rewrite (NoDup_map_inj job_id (jobs s) j job (wf_job_id_unique _ Hwf) Hj Hin E).
      rewrite Htid. apply (Htasks (set_jobs _ (set_cancelled _ s))).
  - constructor; fields; try reflexivity; eauto.
    + exists (fun _ => true). symmetry. apply forallb_filter_id, forallb_forall. auto.
    + intros j H1 H2. contradiction.
Qed.

Lemma fold_drops {A} (f : State -> A -> State) l :
  (forall s x, wf s -> drops s (f s x)) ->
  forall s, wf s -> drops s (fold_left f l s).
Proof.
  intros Hf. induction l as [|x l IH]; intros s Hwf; cbn [fold_left]; [apply drops_refl|].
  eapply drops_trans; [apply Hf, Hwf|]. apply IH. eapply drops_wf; [exact Hwf | apply Hf, Hwf].
Qed.

Lemma drops_fields s s' :
  jobs s' = jobs s -> tasks s' = tasks s -> jobIdCounter s' = jobIdCounter s ->
  taskIdCounter s' = taskIdCounter s -> priorityQueue s' = priorityQueue s ->
  suspended s' = suspended s -> trace s' = trace s -> cancelled s' = cancelled s ->
  drops s s'.
Proof.
  intros J T C TC Q S E K. constructor; try assumption.
  - exists (fun _ => true). rewrite J. symmetry. apply forallb_filter_id, forallb_forall. auto.
  - exists (fun _ => true). rewrite T. symmetry. apply forallb_filter_id, forallb_forall. auto.
  - rewrite K. auto.
  - rewrite K. auto.
  - rewrite J. intros j H1 H2. contradiction.
Qed.

Lemma dropDocument_drops d s : wf s -> drops s (dropDocument d s).
Proof.
  intros Hwf. unfold dropDocument.
  eapply drops_trans; [apply (fold_drops dropTask); [intros; apply dropTask_drops; assumption | exact Hwf]|].
  apply drops_fields; reflexivity.
Qed.

Lemma dropWorkspace_drops w s : wf s -> drops s (dropWorkspace w s).
Proof.
  intros Hwf. unfold dropWorkspace.
  eapply drops_trans;
    [apply (fold_drops (fun acc d => dropDocument d acc));
       [intros; apply dropDocument_drops; assumption | exact Hwf]|].
  apply drops_fields; reflexivity.
Qed.

Lemma drops_effect s s' :
  wf s -> drops s s' -> effect s s' /\ cancels_removed s s'.
Proof.
  intros Hwf [(f & J) (g & T) C TC Q S E K KN R]. split.
  - constructor; try lia; auto.
    + intros j Hj. rewrite J in Hj. apply filter_In in Hj as [Hj _]. auto.
    + intros j Hj. destruct (f j) eqn:Ef.
      * left. rewrite J. apply filter_In. auto.
      * right. right. apply R; [exact Hj|]. rewrite J. intros H.
        apply filter_In in H as [_ H]. congruence.
    + exists []. rewrite app_nil_r. split; [exact E | constructor].
    + intros p Hp. rewrite S in Hp. auto.
    + intros tid H _. apply (tasks_by_id_filter s s' g tid T H).
  - intros id Hid. destruct (KN id Hid) as [H|[H1 H2]]; [auto|]. right.
    split; [|exact H2]. apply in_map_iff in H1 as (j & <- & Hj).
    pose proof (wf_job_ids _ Hwf) as W. rewrite List.Forall_forall in W. apply W, Hj.
Qed.

(** *** Documents, workspaces and new tasks *)

Lemma adds_fields s s' :
  jobs s' = jobs s -> tasks s' = tasks s -> jobIdCounter s' = jobIdCounter s ->
  taskIdCounter s' = taskIdCounter s -> priorityQueue s' = priorityQueue s ->
  suspended s' = suspended s -> trace s' = trace s -> cancelled s' = cancelled s ->
  adds s s'.
Proof.
  intros J T C TC Q S E K. constructor; try assumption; try lia.
  exists []. rewrite app_nil_r. split; [exact T | constructor].
Qed.

Lemma adds_trans s s' s'' : adds s s' -> adds s' s'' -> adds s s''.
Proof.
  intros [J1 C1 Q1 K1 S1 E1 TC1 (n1 & T1 & F1)] [J2 C2 Q2 K2 S2 E2 TC2 (n2 & T2 & F2)].
  constructor; try congruence; try lia.
  exists (n1 ++ n2). split; [rewrite T2, T1, app_assoc; reflexivity|].
  apply Forall_app. split.
  - revert F1. apply List.Forall_impl. intros; lia.
  - revert F2. apply List.Forall_impl. intros; lia.
Qed.

Lemma adds_wf s s' : wf s -> adds s s' -> wf s'.
Proof.
  intros [Wq Wids Wuid Wut Wsids Wsu Wtr Wtasks]
         [J C Q K S E TC (nt & T & F)].
  constructor; rewrite ?J, ?C, ?Q, ?S, ?E; try assumption.
  rewrite T. apply Forall_app. split.
  - revert Wtasks. apply List.Forall_impl. intros; lia.
  - revert F. apply List.Forall_impl. intros; lia.
Qed.

Lemma adds_tasks_gone s s' tid :
  adds s s' -> tasks_by_id s tid = None -> tid <= taskIdCounter s ->
  tasks_by_id s' tid = None.
Proof.
  intros [_ _ _ _ _ _ _ (nt & T & F)] H Hle. unfold tasks_by_id in *.
  rewrite T, find_app, H. apply find_none_iff. intros t Ht.
  rewrite List.Forall_forall in F. specialize (F t Ht). apply Nat.eqb_neq. lia.
Qed.

Lemma adds_effect s s' : adds s s' -> effect s s' /\ cancels_removed s s'.
Proof.
  intros Ha. pose proof Ha as [J C Q K S E TC _]. split.
  - apply effect_no_events; try assumption.
    + rewrite S. auto.
    + rewrite K. auto.
    + intros tid. apply adds_tasks_gone, Ha.
  - intros id. rewrite K. auto.
Qed.

Lemma adds_then_effect s s1 s' :
  adds s s1 -> effect s1 s' -> effect s s'.
Proof.
  intros Ha [C TC JN JK T SU CK TG]. pose proof Ha as [J C1 Q K S E TC1 _].
  rewrite ?J, ?C1, ?K, ?S, ?E in *.
  constructor; try assumption; try lia.
  intros tid H Hle. apply TG; [eapply adds_tasks_gone; eauto | lia].
Qed.

Lemma adds_then_cancels s s1 s' :
  adds s s1 -> cancels_removed s1 s' -> cancels_removed s s'.
Proof.
  intros [J C1 Q K S E TC1 _] H id Hid. specialize (H id Hid).
  rewrite K, C1 in H. exact H.
Qed.

Lemma documents_update_adds d s : adds s (documents_update d s).
Proof. apply adds_fields; reflexivity. Qed.

Lemma addTask_adds s docId : adds s (addTask s docId).
Proof.
  constructor; try reflexivity; unfold addTask; fields; try lia.
  eexists. split; [reflexivity|]. repeat constructor; cbn; lia.
Qed.

Lemma fold_addTask_adds ids : forall s, adds s (fold_left addTask ids s).
Proof.
  induction ids as [|i ids IH]; intros s; cbn [fold_left].
  - apply adds_fields; reflexivity.
  - eapply adds_trans; [apply addTask_adds | apply IH].
Qed.

Lemma fold_addDocument_adds uri wsId paths : forall s s',
  fold_left (addDocument uri wsId) paths (Some s) = Some s' -> adds s s'.
Proof.
  induction paths as [|p paths IH]; intros s s' H; cbn [fold_left] in H.
  - injection H as <-. apply adds_fields; reflexivity.
  - destruct (addDocument uri wsId (Some s) p) as [s1|] eqn:E.
    + eapply adds_trans; [|apply IH, H]. unfold addDocument in E.
      destruct (documents_by_uri _ p); [discriminate|]. injection E as <-.
      apply adds_fields; reflexivity.
    + exfalso. clear -H. induction paths; cbn in H; [discriminate | auto].
Qed.

Lemma addWorkspace_adds uri docUris s s' :
  addWorkspace uri docUris s = Some s' -> adds s s'.
Proof.
  unfold addWorkspace. destruct (workspaces_by_uri _ uri); [discriminate|].
  destruct (fold_left _ _ _) as [s3|] eqn:E; [|discriminate]. intros [= <-].
  eapply adds_trans; [|apply fold_addTask_adds].
  eapply adds_trans; [|eapply fold_addDocument_adds, E].
  apply adds_fields; reflexivity.
Qed.

(** *** Every action keeps the state well formed *)

Lemma submitTask_effect fuel task s h s' :
  wf s -> submitTask fuel task s = Some (h, s') ->
  wf s' /\ effect s s' /\ cancels_removed s s'.
Proof.
  intros Hwf Hs. destruct (submitTask_wf_grows _ _ _ _ _ Hwf Hs) as [Hwf' Hg].
  split; [exact Hwf'|]. split; [apply grows_effect, Hg|].
  intros id Hid. left. apply (g_cancelled _ _ Hg), Hid.
Qed.

Lemma audit_request_effect fuel uri s h s' :
  wf s -> audit_request fuel uri s = Some (h, s') ->
  wf s' /\ effect s s' /\ cancels_removed s s'.
Proof.
  intros Hwf. unfold audit_request.
  destruct (documents_by_uri s uri) as [doc|]; [|discriminate].
  destruct (auditTask s doc) as [t|]; [|discriminate].
  apply submitTask_effect, Hwf.
Qed.

Lemma step_wf_effect a s s' :
  wf s -> step a s = Some s' ->
  wf s' /\ effect s s' /\ (server_action a = true -> cancels_removed s s').
Proof.
  intros Hwf. destruct a as [fuel tid|jobId|jobId now|fuel uri|fuel uri|uri|docId|uri|uri docUris];
    cbn [step server_action].
  - unfold submitTask_id. destruct (tasks_by_id s tid) as [task|]; [|discriminate].
    destruct (submitTask fuel task s) as [[h s1]|] eqn:Hs; [|discriminate].
    intros [= <-]. destruct (submitTask_effect _ _ _ _ _ Hwf Hs) as (? & ? & ?). auto.
  - intros [= <-]. split; [apply cancelJob_wf, Hwf|].
    split; [apply cancelJob_effect | discriminate].
  - intros Hs. destruct (resume_wf_effect _ _ _ _ Hwf Hs) as (? & ? & K).
    split; [assumption|]. split; [assumption|]. intros _ id. rewrite K. auto.
  - destruct (audit_request fuel uri s) as [[h s1]|] eqn:Hs; [|discriminate].
    intros [= <-]. destruct (audit_request_effect _ _ _ _ _ Hwf Hs) as (? & ? & ?). auto.
  - unfold onDidOpenTextDocument. destruct (documents_by_uri s uri) as [doc|]; [|discriminate].
    set (s1 := documents_update _ s).
    destruct (audit_request fuel uri s1) as [[h s2]|] eqn:Hs; [|discriminate].
    intros [= <-]. pose proof (documents_update_adds
      (mkDocument (doc_id doc) (doc_uri doc) (doc_workspaceId doc) editing) s) as Ha.
    fold s1 in Ha.
    destruct (audit_request_effect _ _ _ _ _ (adds_wf _ _ Hwf Ha) Hs) as (? & ? & ?).
    split; [assumption|]. split; [eapply adds_then_effect; eauto|].
    intros _. eapply adds_then_cancels; eauto.
  - unfold onDidCloseTextDocument, dropWorkspace_uri.
    destruct (documents_by_uri s uri) as [doc|]; [|discriminate].
    destruct (workspaces_by_id s (doc_workspaceId doc)) as [ws|]; [|discriminate].
    destruct (ws_type ws).
    + destruct (workspaces_by_uri s uri) as [w|]; [|discriminate]. intros [= <-].
      pose proof (dropWorkspace_drops w s Hwf) as Hd.
      destruct (drops_effect _ _ Hwf Hd). split; [eapply drops_wf; eauto | auto].
    + destruct (forallb _ _).
      * intros [= <-]. pose proof (dropWorkspace_drops ws s Hwf) as Hd.
        destruct (drops_effect _ _ Hwf Hd). split; [eapply drops_wf; eauto | auto].
      * intros [= <-]. pose proof (documents_update_adds
          (mkDocument (doc_id doc) (doc_uri doc) (doc_workspaceId doc) indexing) s) as Ha.
        destruct (adds_effect _ _ Ha). split; [eapply adds_wf; eauto | auto].
  - destruct (documents_by_id s docId) as [d|]; [|discriminate]. intros [= <-].
    pose proof (dropDocument_drops d s Hwf) as Hd.
    destruct (drops_effect _ _ Hwf Hd). split; [eapply drops_wf; eauto | auto].
  - unfold dropWorkspace_uri. destruct (workspaces_by_uri s uri) as [w|]; [|discriminate].
    intros [= <-]. pose proof (dropWorkspace_drops w s Hwf) as Hd.
    destruct (drops_effect _ _ Hwf Hd). split; [eapply drops_wf; eauto | auto].
  - intros Hs. pose proof (addWorkspace_adds _ _ _ _ Hs) as Ha.
    destruct (adds_effect _ _ Ha). split; [eapply adds_wf; eauto | auto].
Qed.

Lemma idle_wf s : idle s -> wf s.
Proof.
  intros (J & Q & K & S & E & T). constructor; rewrite ?J, ?S, ?E; cbn;
    try assumption; constructor.
Qed.

Lemma run_wf acts : forall s s', wf s -> run acts s = Some s' -> wf s'.
Proof.
  induction acts as [|a acts IH]; intros s s' Hwf; cbn [run].
  - intros [= <-]. exact Hwf.
  - destruct (step a s) as [s1|] eqn:Hs; [|discriminate].
    apply IH. apply (step_wf_effect a s s1 Hwf Hs).
Qed.

(** The queue is drained between any two actions. *)
Lemma queue_empty s0 acts s :
  idle s0 -> run acts s0 = Some s -> priorityQueue s = [].
Proof. intros Hi Hr. apply wf_queue. eapply run_wf; [apply idle_wf, Hi | exact Hr]. Qed.

(** *** Runs of the server: no job kept past its handle *)



(** *** C3: cancellation before and after the pop *)

Lemma never_runs_step id s s' :
  wf s -> effect s s' -> never_runs id s -> never_runs id s'.
Proof.
  intros Hwf He [Htr Hcase].
  pose proof (wf_suspended_ids _ Hwf) as Wsus. rewrite List.Forall_forall in Wsus.
  pose proof (e_counter _ _ He) as Hc.
  split.
  - destruct (e_trace _ _ He) as (ev & E & Fev). rewrite E. intros e Hin.
    apply in_app_or in Hin as [Hin|Hin]; [auto|].
    rewrite List.Forall_forall in Fev. specialize (Fev e Hin).
    destruct e as [j t|t now|j]; cbn; [| discriminate |].
    + destruct Fev as (Hj & Hnc & _). intros [= ->].
      destruct Hcase as [[Hcan _]|[Hle _]]; [contradiction | lia].
    + destruct Fev as [Hsus _]. intros [= ->].
      destruct Hcase as [[_ Hlt]|[_ Hn]]; [|contradiction].
      apply in_map_iff in Hsus as (p & Hp & Hin'). specialize (Wsus p Hin'). cbn in Wsus. lia.
  - destruct Hcase as [[Hcan Hlt]|[Hle Hn]].
    + destruct (le_lt_dec id (jobIdCounter s')) as [Hle'|Hlt'].
      * right. split; [exact Hle'|]. intros Hin.
        apply in_map_iff in Hin as (p & Hp & Hin).
        destruct (e_suspended _ _ He p Hin) as [Hold|[_ Hnc]].
        -- specialize (Wsus p Hold). cbn in Wsus. lia.
        -- rewrite Hp in Hnc. contradiction.
      * left. split; [|exact Hlt']. apply (e_cancelled_kept _ _ He); auto.
    + right. split; [lia|]. intros Hin.
      apply in_map_iff in Hin as (p & Hp & Hin).
      destruct (e_suspended _ _ He p Hin) as [Hold|[Hnew _]]; [|lia].
      apply Hn. apply in_map_iff. eauto.
Qed.

Lemma never_runs_run id acts : forall s s',
  wf s -> never_runs id s -> run acts s = Some s' -> never_runs id s'.
Proof.
  induction acts as [|a acts IH]; intros s s' Hwf Hn; cbn [run].
  - intros [= <-]. exact Hn.
  - destruct (step a s) as [s1|] eqn:Hs; [|discriminate].
    destruct (step_wf_effect a s s1 Hwf Hs) as (Hwf1 & He & _).
    apply IH; [exact Hwf1 | exact (never_runs_step id s s1 Hwf He Hn)].
Qed.

Lemma resume_cancelJob id jobId now s :
  resume jobId now (cancelJob id s) = option_map (cancelJob id) (resume jobId now s).
Proof.
  unfold resume, cancelJob. fields.
  destruct (List.find _ (suspended s)) as [[j tid]|]; [|reflexivity].
  change (tasks_by_id (set_cancelled ({[id]} ∪ cancelled s) s) tid) with (tasks_by_id s tid).
  destruct (tasks_by_id s tid) as [task|]; [|reflexivity].
  change (executeTask_resolves (set_cancelled ({[id]} ∪ cancelled s) s) task)
    with (executeTask_resolves s task).
  destruct (executeTask_resolves s task); reflexivity.
Qed.

(** C3.  A job id that is cancelled before it is popped is never executed
    and its handle is never settled, whatever happens afterwards: the queue
    is popped in the call that pushes the id, so that "before the pop" is
    "before [submitTask] creates the job", and at the pop [processJob] only
    clears the mark.  Cancelling an id after its pop, while the activation
    waits for [executeTask], changes nothing but the set of cancelled ids:
    the run continues as it would have, and completes (stamps the task,
    fulfils the handle, removes the job) when the task is still stored and
    the unit of work resolves. *)
Theorem cancelJob_before_and_after_pop :
  (forall s id acts s',
     wf s -> jobIdCounter s < id -> run acts (cancelJob id s) = Some s' ->
     forall e, In e (trace s') -> e <> Fulfilled id /\ forall t, e <> ExecStart id t)
  /\ (forall s id, id ∈ cancelled s ->
        trace (processJob id s) = trace s
        /\ suspended (processJob id s) = suspended s
        /\ jobs (processJob id s) = jobs s /\ tasks (processJob id s) = tasks s)
  /\ (forall s id now,
        resume id now (cancelJob id s) = option_map (cancelJob id) (resume id now s))
  /\ (forall s id tid task now,
        wf s -> In (id, tid) (suspended s) -> tasks_by_id s tid = Some task ->
        executeTask_resolves s task = true ->
        exists s', resume id now (cancelJob id s) = Some s'
          /\ trace s' = trace s ++ [Completed tid now; Fulfilled id]
          /\ ~ In id (map job_id (jobs s'))).
Proof.
  split; [|split; [|split]].
  - intros s id acts s' Hwf Hlt Hrun e Hin.
    assert (Hn : never_runs id (cancelJob id s)).
    { split.
      - intros e' He'. pose proof (wf_trace_ids _ Hwf) as W.
        rewrite List.Forall_forall in W. specialize (W e' He').
        destruct (event_job e'); [|discriminate]. intros [= ->]. lia.
      - left. split; [|exact Hlt]. unfold cancelJob. fields.
        apply elem_of_union. left. apply elem_of_singleton. reflexivity. }
    destruct (never_runs_run id acts _ s' (cancelJob_wf id s Hwf) Hn Hrun) as [Htr _].
    specialize (Htr e Hin). split; [|intros t]; intros ->; apply Htr; reflexivity.
  - intros s id Hc. rewrite (processJob_cancelled id s Hc). auto.
  - intros s id now. apply resume_cancelJob.
  - intros s id tid task now Hwf Hin Ht Hr.
    rewrite resume_cancelJob. unfold resume.
    destruct (List.find _ (suspended s)) as [[j tid']|] eqn:Hf.
    + apply find_some in Hf as [Hin' Hj]. cbn in Hj. apply Nat.eqb_eq in Hj. subst j.
      assert (E : (id, tid') = (id, tid)).
      { apply (NoDup_map_inj fst (suspended s)); auto. apply (wf_suspended_unique _ Hwf). }
      injection E as ->. rewrite Ht, Hr. eexists. split; [reflexivity|].
      unfold cancelJob. fields. split; [reflexivity|].
      intros H. apply in_map_iff in H as (j & Hj & H).
      apply filter_In in H as [_ H]. apply negb_true_iff, Nat.eqb_neq in H. auto.
    + exfalso. apply (proj1 (find_none_iff _ _) Hf) in Hin. cbn in Hin.
      rewrite Nat.eqb_refl in Hin. discriminate.
Qed.

Lemma cancelJob_before_and_after_pop_witness :
  exists s', run [SubmitTask 2 2] (cancelJob 2 two_tasks) = Some s'
    /\ trace s' = [ExecStart 1 1]
    /\ forall e, In e (trace s') -> e <> Fulfilled 2 /\ forall t, e <> ExecStart 2 t.
Proof.
  destruct cancelJob_before_and_after_pop as (Hbefore & _).
  destruct (run [SubmitTask 2 2] (cancelJob 2 two_tasks)) as [s'|] eqn:E;
    [|vm_compute in E; discriminate E].
  exists s'. split; [reflexivity|]. split.
  - vm_compute in E. injection E as <-. reflexivity.
  - apply (Hbefore two_tasks 2 [SubmitTask 2 2] s').
    + constructor; cbn; repeat constructor; lia.
    + cbn. lia.
    + exact E.
Defined.

(** *** C1: submitters of one task share one job *)

Lemma executions_app tid a b :
  executions tid (a ++ b) = executions tid a + executions tid b.
Proof. unfold executions. rewrite List.filter_app, length_app. reflexivity. Qed.

Lemma filter_none {A} (f : A -> bool) l :
  (forall x, In x l -> f x = false) -> List.filter f l = [].
Proof.
  induction l as [|a l IH]; cbn; intros H; [reflexivity|].
  rewrite (H a) by auto. apply IH. auto.
Qed.

(** New events start no task that already has a job. *)
Lemma no_second_execution s s' h tid :
  wf s -> wf s' -> effect s s' ->
  In (mkJob h tid) (jobs s) -> In (mkJob h tid) (jobs s') ->
  executions tid (trace s') = executions tid (trace s).
Proof.
  intros Hwf Hwf' He Hin Hin'.
  destruct (e_trace _ _ He) as (ev & E & Fev). rewrite E, executions_app.
  assert (Hz : List.filter (is_ExecStart_of tid) ev = []).
  { apply filter_none. intros e Hev.
    rewrite List.Forall_forall in Fev. specialize (Fev e Hev).
    destruct e as [j t| |]; cbn; try reflexivity.
    destruct (Nat.eqb_spec t tid) as [->|]; [|reflexivity].
    destruct Fev as (Hj & _ & Hjob). exfalso.
    assert (Hsame : mkJob j tid = mkJob h tid).
    { apply (NoDup_map_inj taskId (jobs s')); auto. apply (wf_job_task_unique _ Hwf'). }
    injection Hsame as ->.
    pose proof (wf_job_ids _ Hwf) as W. rewrite List.Forall_forall in W.
    specialize (W _ Hin). cbn in W. lia. }
  unfold executions. rewrite Hz. cbn. lia.
Qed.

Lemma shared_step h tid n s s' :
  wf s -> wf s' -> effect s s' -> tid <= taskIdCounter s ->
  shared h tid n s -> shared h tid n s'.
Proof.
  intros Hwf Hwf' He Hle [Hf | [Hgone | [Hin Hex]]].
  - left. destruct (e_trace _ _ He) as (ev & -> & _). apply in_or_app. auto.
  - right. left. apply (e_tasks_gone _ _ He); assumption.
  - destruct (e_jobs_kept _ _ He _ Hin) as [Hin' | [Hf | Hgone]]; cbn in *.
    + right. right. split; [exact Hin'|].
      rewrite (no_second_execution s s' h tid); assumption.
    + left. exact Hf.
    + right. left. exact Hgone.
Qed.

Lemma shared_run h tid n acts : forall s s',
  wf s -> tid <= taskIdCounter s -> shared h tid n s ->
  run acts s = Some s' -> wf s' /\ shared h tid n s'.
Proof.
  induction acts as [|a acts IH]; intros s s' Hwf Hle Hsh; cbn [run].
  - intros [= <-]. auto.
  - destruct (step a s) as [s1|] eqn:Hs; [|discriminate].
    destruct (step_wf_effect a s s1 Hwf Hs) as (Hwf1 & He & _).
    apply IH; [exact Hwf1 | pose proof (e_taskIdCounter _ _ He); lia|].
    exact (shared_step h tid n s s1 Hwf Hwf1 He Hle Hsh).
Qed.

Lemma submitTask_existing_job fuel task job s :
  jobs_by_taskId s (task_id task) = Some job ->
  submitTask (S fuel) task s = Some (job_id job, s).
Proof. intros H. rewrite submitTask_S, H. reflexivity. Qed.

(** The first submission of a stored task that has no job creates one job
    and enters the unit of work once. *)
Lemma submitTask_first fuel task s h s1 :
  wf s -> cancelled_past s -> In task (tasks s) ->
  jobs_by_taskId s (task_id task) = None ->
  submitTask fuel task s = Some (h, s1) ->
  wf s1 /\ In (mkJob h (task_id task)) (jobs s1)
  /\ executions (task_id task) (trace s1) = S (executions (task_id task) (trace s))
  /\ exists s0, grows s s0 /\ wf s0 /\ schedule task s0 = Some (h, s1)
       /\ trace s1 = trace s0 ++ [ExecStart h (task_id task)].
Proof.
  intros Hwf Hpast Hin Hnone Hs.
  destruct fuel as [|fuel]; [discriminate|]. rewrite submitTask_S, Hnone in Hs.
  destruct (fold_left _ _ _) as [s0|] eqn:Hfold; [|discriminate].
  assert (H0 : wf s0 /\ grows s s0).
  { assert (Hdeps : forall deps acc, fold_left (visit (submitTask fuel)) deps acc = Some s0 ->
              (forall x, acc = Some x -> wf x /\ grows s x) -> wf s0 /\ grows s s0).
    { clear Hfold Hs. induction deps as [|d deps IHd]; cbn [fold_left]; intros acc Hf Hacc.
      - apply Hacc, Hf.
      - apply (IHd _ Hf). intros x Hv. unfold visit in Hv.
        destruct acc as [x0|]; [|discriminate]. destruct (Hacc _ eq_refl) as [Hw Hg].
        destruct (lastCompleted d); [injection Hv as <-; auto|].
        destruct (jobs_by_taskId x0 (task_id d)); [injection Hv as <-; auto|].
        destruct (submitTask fuel d x0) as [[h0 x1]|] eqn:Hsub; [|discriminate].
        injection Hv as <-. destruct (submitTask_wf_grows _ _ _ _ _ Hw Hsub) as [Hw1 Hg1].
        split; [exact Hw1 | eapply grows_trans; eauto]. }
    apply (Hdeps _ _ Hfold). intros x [= <-]. split; [exact Hwf | apply grows_refl]. }
  destruct H0 as [Hwf0 Hg0].
  destruct (schedule_cases _ _ _ _ Hwf0 Hs)
    as (Hh & Hnone0 & _ & _ & Ht & _ & _ & _ & _ & _ & Hj & Hcases).
  assert (Hnc : h ∉ cancelled s0).
  { intros Hc. apply (g_cancelled _ _ Hg0) in Hc. specialize (Hpast _ Hc).
    pose proof (g_counter _ _ Hg0). lia. }
  assert (Hstored : tasks_by_id s0 (task_id task) <> None).
  { unfold tasks_by_id. rewrite (g_tasks _ _ Hg0). intros Hf.
    apply (proj1 (find_none_iff _ _) Hf) in Hin. rewrite Nat.eqb_refl in Hin. discriminate. }
  destruct Hcases as [(Hc & _) | (_ & _ & [(Hn & _) | (_ & _ & Htr)])]; try contradiction.
  split; [eapply schedule_wf; eauto|].
  split; [rewrite Hj; apply in_or_app; right; left; reflexivity|].
  split; [|exists s0; auto].
  rewrite Htr, executions_app.
  replace (executions (task_id task) [ExecStart h (task_id task)]) with 1
    by (unfold executions; cbn; rewrite Nat.eqb_refl; reflexivity).
  destruct (g_trace _ _ Hg0) as (ev & -> & Fev). rewrite executions_app.
  assert (Hz : List.filter (is_ExecStart_of (task_id task)) ev = []).
  { apply filter_none. intros e Hev.
    rewrite List.Forall_forall in Fev. destruct (Fev e Hev) as (j & t & -> & _ & _ & Hjob).
    cbn. destruct (Nat.eqb_spec t (task_id task)) as [->|]; [|reflexivity].
    unfold jobs_by_taskId in Hnone0.
    apply (proj1 (find_none_iff _ _) Hnone0) in Hjob. cbn in Hjob.
    rewrite Nat.eqb_refl in Hjob. discriminate. }
  unfold executions. rewrite Hz. cbn. lia.
Qed.

(** C1.  A task that has a stored job is not scheduled again: [submitTask]
    returns the handle of that job and changes nothing.  So when a stored
    task without a job is submitted and, after anything else the server
    does, is submitted again while its handle is not fulfilled and the task
    is still stored, the second call returns the handle of the first, and
    the unit of work of the task has been entered exactly once. *)
Theorem submitTask_twice_shares_job :
  (forall s fuel task job,
     jobs_by_taskId s (task_id task) = Some job ->
     submitTask (S fuel) task s = Some (job_id job, s))
  /\ (forall s fuel task h s1 acts s2 fuel',
        wf s -> cancelled_past s -> In task (tasks s) ->
        jobs_by_taskId s (task_id task) = None ->
        submitTask fuel task s = Some (h, s1) ->
        run acts s1 = Some s2 ->
        ~ In (Fulfilled h) (trace s2) ->
        tasks_by_id s2 (task_id task) <> None ->
        submitTask_id (S fuel') (task_id task) s2 = Some (h, s2)
        /\ executions (task_id task) (trace s2)
           = S (executions (task_id task) (trace s))).
Proof.
  split; [intros; apply submitTask_existing_job; assumption|].
  intros s fuel task h s1 acts s2 fuel' Hwf Hpast Hin Hnone Hs Hrun Hnf Hstored.
  destruct (submitTask_first _ _ _ _ _ Hwf Hpast Hin Hnone Hs)
    as (Hwf1 & Hjob & Hex & s0 & Hg0 & _).
  assert (Hle : task_id task <= taskIdCounter s1).
  { pose proof (wf_task_ids _ Hwf) as W. rewrite List.Forall_forall in W.
    specialize (W _ Hin).
    destruct (submitTask_wf_grows _ _ _ _ _ Hwf Hs) as [_ Hg].
    rewrite (g_taskIdCounter _ _ Hg). exact W. }
  destruct (shared_run h (task_id task) _ acts s1 s2 Hwf1 Hle
              (or_intror (or_intror (conj Hjob Hex))) Hrun)
    as [Hwf2 [Hf | [Hgone | [Hjob2 Hex2]]]]; try contradiction.
  split; [|exact Hex2].
  unfold submitTask_id. destruct (tasks_by_id s2 (task_id task)) as [task2|] eqn:Ht;
    [|contradiction].
  apply find_some in Ht as [_ Ht]. apply Nat.eqb_eq in Ht.
  destruct (jobs_by_taskId s2 (task_id task2)) as [job|] eqn:Hj.
  - rewrite (submitTask_existing_job _ _ _ _ Hj). do 2 f_equal.
    apply find_some in Hj as [Hjin Hjt]. apply Nat.eqb_eq in Hjt.
    assert (E : job = mkJob h (task_id task)).
    { apply (NoDup_map_inj taskId (jobs s2)); auto.
      - apply (wf_job_task_unique _ Hwf2).
      - cbn. congruence. }
    rewrite E. reflexivity.
  - exfalso. unfold jobs_by_taskId in Hj.
    apply (proj1 (find_none_iff _ _) Hj) in Hjob2. cbn in Hjob2.
    rewrite Ht, Nat.eqb_refl in Hjob2. discriminate.
Qed.

Lemma submitTask_twice_witness :
  exists h s1 s2,
    submitTask 2 taskB two_tasks = Some (h, s1)
    /\ run [SubmitTask 1 1; Resume 1 5; CancelJob 2] s1 = Some s2
    /\ submitTask_id 1 2 s2 = Some (h, s2)
    /\ executions 2 (trace s2) = 1.
Proof.
  destruct submitTask_twice_shares_job as (_ & Htwice).
  destruct (submitTask 2 taskB two_tasks) as [[h s1]|] eqn:E1;
    [|vm_compute in E1; discriminate E1].
  destruct (run [SubmitTask 1 1; Resume 1 5; CancelJob 2] s1) as [s2|] eqn:E2;
    [|vm_compute in E1; injection E1 as <- <-; vm_compute in E2; discriminate E2].
  exists h, s1, s2. split; [reflexivity|]. split; [exact E2|].
  refine (Htwice two_tasks 2 taskB h s1 [SubmitTask 1 1; Resume 1 5; CancelJob 2] s2 0
            _ _ _ _ E1 E2 _ _).
  - constructor; cbn; repeat constructor; lia.
  - intros id Hid. exfalso. revert Hid. apply not_elem_of_empty.
  - right. left. reflexivity.
  - reflexivity.
  - vm_compute in E1. injection E1 as <- <-. vm_compute in E2. injection E2 as <-.
    cbn. intros [H|[H|[H|[H|[]]]]]; discriminate H.
  - vm_compute in E1. injection E1 as <- <-. vm_compute in E2. injection E2 as <-.
    discriminate.
Defined.

(** *** C2: a dependent is started before its dependency completes *)

Lemma submitTask_new fuel task s h s' :
  wf s -> jobs_by_taskId s (task_id task) = None ->
  submitTask fuel task s = Some (h, s') ->
  exists fuel' s0,
    fuel = S fuel'
    /\ fold_left (visit (submitTask fuel')) (dependencies s task) (Some s) = Some s0
    /\ wf s0 /\ grows s s0 /\ schedule task s0 = Some (h, s').
Proof.
  intros Hwf Hnone Hs.
  destruct fuel as [|fuel]; [discriminate|]. rewrite submitTask_S, Hnone in Hs.
  destruct (fold_left _ _ _) as [s0|] eqn:Hfold; [|discriminate].
  exists fuel, s0. split; [reflexivity|]. split; [exact Hfold|].
  assert (Hdeps : forall deps acc, fold_left (visit (submitTask fuel)) deps acc = Some s0 ->
            (forall x, acc = Some x -> wf x /\ grows s x) -> wf s0 /\ grows s s0).
  { clear Hfold Hs. induction deps as [|d deps IHd]; cbn [fold_left]; intros acc Hf Hacc.
    - apply Hacc, Hf.
    - apply (IHd _ Hf). intros x Hv. unfold visit in Hv.
      destruct acc as [x0|]; [|discriminate]. destruct (Hacc _ eq_refl) as [Hw Hg].
      destruct (lastCompleted d); [injection Hv as <-; auto|].
      destruct (jobs_by_taskId x0 (task_id d)); [injection Hv as <-; auto|].
      destruct (submitTask fuel d x0) as [[h0 x1]|] eqn:Hsub; [|discriminate].
      injection Hv as <-. destruct (submitTask_wf_grows _ _ _ _ _ Hw Hsub) as [Hw1 Hg1].
      split; [exact Hw1 | eapply grows_trans; eauto]. }
  destruct (Hdeps _ _ Hfold) as [Hwf0 Hg0];
    [intros x [= <-]; split; [exact Hwf | apply grows_refl]|].
  auto.
Qed.

Lemma submitTask_has_job fuel task s h s' :
  wf s -> submitTask fuel task s = Some (h, s') ->
  exists j, In j (jobs s') /\ taskId j = task_id task.
Proof.
  intros Hwf Hs. destruct (jobs_by_taskId s (task_id task)) as [job|] eqn:Hj.
  - destruct fuel as [|fuel]; [discriminate|]. rewrite submitTask_S, Hj in Hs.
    injection Hs as <- <-. apply find_some in Hj as [Hin Ht]. apply Nat.eqb_eq in Ht. eauto.
  - destruct (submitTask_new _ _ _ _ _ Hwf Hj Hs) as (f & s0 & _ & _ & Hwf0 & _ & Hsch).
    destruct (schedule_cases _ _ _ _ Hwf0 Hsch)
      as (_ & _ & _ & _ & _ & _ & _ & _ & _ & _ & Hjobs & _).
    exists (mkJob h (task_id task)). split; [|reflexivity].
    rewrite Hjobs. apply in_or_app. right. left. reflexivity.
Qed.

(** After the [forEach], every dependency that never completed has a job. *)
Lemma dependencies_scheduled fuel deps : forall x s0,
  wf x -> fold_left (visit (submitTask fuel)) deps (Some x) = Some s0 ->
  forall d, In d deps -> lastCompleted d = None ->
  exists j, In j (jobs s0) /\ taskId j = task_id d.
Proof.
  assert (Hkeep : forall ds x s0, wf x ->
            fold_left (visit (submitTask fuel)) ds (Some x) = Some s0 ->
            forall j, In j (jobs x) -> In j (jobs s0)).
  { clear deps. induction ds as [|d ds IHd]; cbn [fold_left]; intros x s0 Hwf Hf j Hj.
    - injection Hf as <-. exact Hj.
    - unfold visit at 2 in Hf.
      destruct (lastCompleted d); [eapply IHd; eauto|].
      destruct (jobs_by_taskId x (task_id d)); [eapply IHd; eauto|].
      destruct (submitTask fuel d x) as [[h0 x1]|] eqn:Hsub.
      + destruct (submitTask_wf_grows _ _ _ _ _ Hwf Hsub) as [Hw1 Hg1].
        apply (IHd x1 s0 Hw1 Hf). destruct (g_jobs _ _ Hg1) as (nj & -> & _).
        apply in_or_app. auto.
      + exfalso. clear -Hf. induction ds; cbn in Hf; [discriminate | auto]. }
  induction deps as [|d deps IHd]; cbn [fold_left]; intros x s0 Hwf Hf d' Hin Hlc;
    [contradiction|].
  unfold visit at 2 in Hf. destruct Hin as [->|Hin].
  - rewrite Hlc in Hf. destruct (jobs_by_taskId x (task_id d')) as [job|] eqn:Hj.
    + apply find_some in Hj as [Hjin Ht]. apply Nat.eqb_eq in Ht.
      exists job. split; [eapply Hkeep; eauto | exact Ht].
    + destruct (submitTask fuel d' x) as [[h0 x1]|] eqn:Hsub.
      * destruct (submitTask_wf_grows _ _ _ _ _ Hwf Hsub) as [Hw1 _].
        destruct (submitTask_has_job _ _ _ _ _ Hwf Hsub) as (j & Hjin & Ht).
        exists j. split; [eapply Hkeep; eauto | exact Ht].
      * exfalso. clear -Hf. induction deps; cbn in Hf; [discriminate | auto].
  - destruct (lastCompleted d); [eapply IHd; eauto|].
    destruct (jobs_by_taskId x (task_id d)); [eapply IHd; eauto|].
    destruct (submitTask fuel d x) as [[h0 x1]|] eqn:Hsub.
    + destruct (submitTask_wf_grows _ _ _ _ _ Hwf Hsub) as [Hw1 _]. eapply IHd; eauto.
    + exfalso. clear -Hf. induction deps; cbn in Hf; [discriminate | auto].
Qed.

(** C2, as far as the code goes, and where it stops.  When a stored task B
    lists a stored task A among its dependencies and neither has run or is
    scheduled, [submitTask(B)] gives A a job before it gives B one.  But the
    call also enters the unit of work of B before it returns: the events it
    adds are starts of executions only, the last of them the start of B,
    and the stored tasks are as before, so that [lastCompleted] of A is
    still undefined when the work of B begins. *)
Theorem dependent_starts_before_dependency_completes
    (s : State) (fuel : nat) (A B : Task) (h : nat) (s' : State) :
  wf s -> cancelled_past s ->
  In A (tasks s) -> In B (tasks s) ->
  In (task_id A) (dependencyIds B) ->
  lastCompleted A = None ->
  jobs_by_taskId s (task_id A) = None -> jobs_by_taskId s (task_id B) = None ->
  submitTask fuel B s = Some (h, s') ->
  (exists jA, In (mkJob jA (task_id A)) (jobs s') /\ jA < h)
  /\ (exists ev, trace s' = trace s ++ ev ++ [ExecStart h (task_id B)]
        /\ Forall (fun e => exists j t, e = ExecStart j t) ev)
  /\ tasks s' = tasks s /\ In A (tasks s') /\ lastCompleted A = None.
Proof.
  intros Hwf Hpast HA HB Hdep HlcA HnA HnB Hs.
  destruct (submitTask_new _ _ _ _ _ Hwf HnB Hs) as (f & s0 & -> & Hfold & Hwf0 & Hg0 & Hsch).
  destruct (submitTask_first _ _ _ _ _ Hwf Hpast HB HnB Hs)
    as (Hwf' & _ & _ & s0' & Hg0' & Hwf0' & Hsch' & Htr).
  destruct (schedule_cases _ _ _ _ Hwf0 Hsch)
    as (Hh & _ & _ & _ & Ht & _ & _ & _ & _ & _ & Hjobs & _).
  destruct (schedule_cases _ _ _ _ Hwf0' Hsch')
    as (Hh' & _ & _ & _ & _ & _ & _ & _ & _ & _ & _ & _).
  assert (HinA : In A (dependencies s B)).
  { unfold dependencies. apply filter_In. split; [exact HA|].
    unfold mem. apply existsb_exists. exists (task_id A). split; [exact Hdep|].
    apply Nat.eqb_refl. }
  destruct (dependencies_scheduled f _ s s0 Hwf Hfold A HinA HlcA) as ([jA tA] & HjA & HtA).
  cbn in HtA. subst tA.
  split; [|split; [|split; [|split]]].
  - exists jA. split; [rewrite Hjobs; apply in_or_app; auto|].
    pose proof (wf_job_ids _ Hwf0) as W. rewrite List.Forall_forall in W.
    specialize (W _ HjA). cbn in W. lia.
  - destruct (g_trace _ _ Hg0') as (ev & E & Fev). exists ev.
    split; [rewrite Htr, E, app_assoc; reflexivity|].
    revert Fev. apply List.Forall_impl. intros e (j & t & -> & _). eauto.
  - rewrite Ht. apply (g_tasks _ _ Hg0).
  - rewrite Ht, (g_tasks _ _ Hg0). exact HA.
  - exact HlcA.
Qed.

Lemma dependent_starts_before_dependency_completes_witness :
  exists h s',
    submitTask 2 taskB two_tasks = Some (h, s')
    /\ trace s' = [ExecStart 1 1; ExecStart 2 2]
    /\ tasks s' = [taskA; taskB]
    /\ suspended s' = [(1, 1); (2, 2)].
Proof.
  destruct (submitTask 2 taskB two_tasks) as [[h s']|] eqn:E;
    [|vm_compute in E; discriminate E].
  exists h, s'. split; [reflexivity|].
  assert (Hwf : wf two_tasks) by (constructor; cbn; repeat constructor; lia).
  assert (Hpast : cancelled_past two_tasks).
  { intros id Hid. exfalso. revert Hid. apply not_elem_of_empty. }
  destruct (dependent_starts_before_dependency_completes two_tasks 2 taskA taskB h s'
              Hwf Hpast (or_introl eq_refl) (or_intror (or_introl eq_refl))
              (or_introl eq_refl) eq_refl eq_refl eq_refl E)
    as (_ & _ & Htasks & _).
  split; [|split; [exact Htasks|]];
    vm_compute in E; injection E as <- <-; reflexivity.
Defined.

(** *** C8: closing a document *)

Lemma drops_jobs_subset s s' j : drops s s' -> In j (jobs s') -> In j (jobs s).
Proof. intros [(f & ->) _ _ _ _ _ _ _ _ _] H. apply filter_In in H as [H _]. exact H. Qed.

Lemma drops_tasks_subset s s' t : drops s s' -> In t (tasks s') -> In t (tasks s).
Proof. intros [_ (f & ->) _ _ _ _ _ _ _ _] H. apply filter_In in H as [H _]. exact H. Qed.

Lemma dropTask_removes s t :
  wf s ->
  (forall t', In t' (tasks (dropTask s t)) -> task_id t' <> task_id t)
  /\ (forall j, In j (jobs (dropTask s t)) -> taskId j <> task_id t).
Proof.
  intros Hwf. unfold dropTask, cancelJob. split.
  - fields. intros t' H. apply filter_In in H as [_ H].
    apply negb_true_iff, Nat.eqb_neq in H. exact H.
  - destruct (jobs_by_taskId s (task_id t)) as [job|] eqn:Hjob; fields.
    + intros j H Ht. apply filter_In in H as [Hin H].
      apply negb_true_iff, Nat.eqb_neq in H. apply H. f_equal.
      apply find_some in Hjob as [Hjin Hjt]. apply Nat.eqb_eq in Hjt.
      apply (NoDup_map_inj taskId (jobs s)); auto; [apply (wf_job_task_unique _ Hwf) | congruence].
    + intros j H Ht. unfold jobs_by_taskId in Hjob.
      apply (proj1 (find_none_iff _ _) Hjob) in H. apply Nat.eqb_neq in H. auto.
Qed.

Lemma fold_dropTask_removes ts : forall s,
  wf s ->
  forall t, In t ts ->
    (forall t', In t' (tasks (fold_left dropTask ts s)) -> task_id t' <> task_id t)
    /\ (forall j, In j (jobs (fold_left dropTask ts s)) -> taskId j <> task_id t).
Proof.
  induction ts as [|t0 ts IH]; intros s Hwf t Hin; [contradiction|]. cbn [fold_left].
  pose proof (dropTask_drops s t0 Hwf) as Hd0.
  pose proof (drops_wf _ _ Hwf Hd0) as Hwf0.
  destruct Hin as [->|Hin]; [|apply IH; assumption].
  pose proof (fold_drops dropTask ts (fun x y Hx => dropTask_drops x y Hx) _ Hwf0) as Hd.
  destruct (dropTask_removes s t Hwf) as [H1 H2]. split.
  - intros t' H. apply H1. eapply drops_tasks_subset; eauto.
  - intros j H. apply H2. eapply drops_jobs_subset; eauto.
Qed.

(** [dropDocument] takes the document, its tasks and their jobs out of the
    store. *)
Lemma dropDocument_removes d s :
  wf s ->
  (forall d', In d' (documents (dropDocument d s)) -> doc_id d' <> doc_id d)
  /\ (forall t, In t (tasks (dropDocument d s)) -> documentId t <> Some (doc_id d))
  /\ (forall j t, In j (jobs (dropDocument d s)) -> In t (tasks s) ->
        documentId t = Some (doc_id d) -> taskId j <> task_id t).
Proof.
  intros Hwf. unfold dropDocument. fields. split; [|split].
  - intros d' H. apply filter_In in H as [_ H].
    apply negb_true_iff, Nat.eqb_neq in H. exact H.
  - intros t H Hdoc.
    assert (Hin : In t (doc_tasks s d)).
    { unfold doc_tasks. apply filter_In. split.
      - eapply drops_tasks_subset; [|exact H].
        apply (fold_drops dropTask); [intros; apply dropTask_drops; assumption | exact Hwf].
      - unfold documentId_is. rewrite Hdoc. apply Nat.eqb_refl. }
    destruct (fold_dropTask_removes _ s Hwf t Hin) as [H1 _]. apply (H1 t H). reflexivity.
  - intros j t H Ht Hdoc.
    assert (Hin : In t (doc_tasks s d)).
    { unfold doc_tasks. apply filter_In. split; [exact Ht|].
      unfold documentId_is. rewrite Hdoc. apply Nat.eqb_refl. }
    destruct (fold_dropTask_removes _ s Hwf t Hin) as [_ H2]. apply (H2 j H).
Qed.

Lemma dropDocument_workspaces d s : workspaces (dropDocument d s) = workspaces s.
Proof.
  unfold dropDocument. fields. generalize (doc_tasks s d). intros ts. revert s.
  induction ts as [|t ts IH]; intros s; cbn [fold_left]; [reflexivity|].
  rewrite IH. unfold dropTask, cancelJob. destruct (jobs_by_taskId s (task_id t)); reflexivity.
Qed.

Lemma dropDocument_documents_subset d s d' :
  In d' (documents (dropDocument d s)) -> In d' (documents s).
Proof.
  unfold dropDocument. fields. intros H. apply filter_In in H as [H _]. revert H.
  generalize (doc_tasks s d). intros ts. revert s.
  induction ts as [|t ts IH]; intros s; cbn [fold_left]; [auto|].
  intros H. apply IH in H. revert H. unfold dropTask, cancelJob.
  destruct (jobs_by_taskId s (task_id t)); auto.
Qed.

Lemma fold_dropDocument_removes ds : forall s,
  wf s ->
  (workspaces (fold_left (fun acc d => dropDocument d acc) ds s) = workspaces s)
  /\ (forall d', In d' (documents (fold_left (fun acc d => dropDocument d acc) ds s)) ->
        In d' (documents s) /\ forall d, In d ds -> doc_id d' <> doc_id d)
  /\ (forall t, In t (tasks (fold_left (fun acc d => dropDocument d acc) ds s)) ->
        forall d, In d ds -> documentId t <> Some (doc_id d))
  /\ (forall j t d, In j (jobs (fold_left (fun acc d => dropDocument d acc) ds s)) ->
        In d ds -> In t (tasks s) -> documentId t = Some (doc_id d) ->
        taskId j <> task_id t).
Proof.
  induction ds as [|d0 ds IH]; intros s Hwf; cbn [fold_left].
  - split; [reflexivity|]. split; [intros; split; [assumption | intros ? []]|].
    split; [intros ? ? ? [] | intros ? ? ? ? []].
  - pose proof (dropDocument_drops d0 s Hwf) as Hd0.
    pose proof (drops_wf _ _ Hwf Hd0) as Hwf0.
    destruct (IH _ Hwf0) as (W & D & T & J).
    destruct (dropDocument_removes d0 s Hwf) as (D0 & T0 & J0).
    pose proof (fold_drops (fun acc d => dropDocument d acc) ds
                  (fun x y Hx => dropDocument_drops y x Hx) _ Hwf0) as Hd.
    split; [rewrite W; apply dropDocument_workspaces|]. split; [|split].
    + intros d' H. destruct (D d' H) as [Hin Hne]. split.
      * eapply dropDocument_documents_subset, Hin.
      * intros d [<-|Hd']; [apply D0, Hin | apply Hne, Hd'].
    + intros t H d [<-|Hd']; [|apply (T t H d Hd')].
      apply T0. eapply drops_tasks_subset; eauto.
    + intros j t d H [<-|Hd'] Ht Hdoc.
      * apply (J0 j t); auto. eapply drops_jobs_subset; eauto.
      * destruct (existsb (fun t0 => task_id t0 =? task_id t) (doc_tasks s d0)) eqn:Ex.
        -- apply existsb_exists in Ex as (t0 & Ht0 & E0). apply Nat.eqb_eq in E0.
           destruct (fold_dropTask_removes _ s Hwf t0 Ht0) as [_ Hrm].
           rewrite <- E0. apply Hrm.
           apply (drops_jobs_subset _ _ j Hd) in H. exact H.
        -- apply (J j t d H Hd'); [|exact Hdoc].
           unfold dropDocument. fields.
           assert (Hkeep : forall ts x, In t (tasks x) ->
                     existsb (fun t0 => task_id t0 =? task_id t) ts = false ->
                     In t (tasks (fold_left dropTask ts x))).
           { induction ts as [|t0 ts IHts]; intros x Hx Hne; cbn [fold_left]; [exact Hx|].
             cbn in Hne. apply orb_false_iff in Hne as [Hne0 Hne].
             apply IHts; [|exact Hne]. unfold dropTask, cancelJob.
             assert (Hf : In t (List.filter (fun t' => negb (task_id t' =? task_id t0))
                                  (tasks x))).
             { apply filter_In. split; [exact Hx|].
               rewrite Nat.eqb_sym, Hne0. reflexivity. }
             destruct (jobs_by_taskId x (task_id t0)); exact Hf. }
           apply Hkeep; assumption.
Qed.

(** [dropWorkspace] takes the workspace, its documents, their tasks and the
    jobs of these tasks out of the store. *)
Lemma dropWorkspace_cascade w s :
  wf s ->
  workspaces_by_id (dropWorkspace w s) (ws_id w) = None
  /\ ws_documents (dropWorkspace w s) w = []
  /\ (forall t d, In t (tasks (dropWorkspace w s)) -> In d (ws_documents s w) ->
        documentId t <> Some (doc_id d))
  /\ (forall j t d, In j (jobs (dropWorkspace w s)) -> In d (ws_documents s w) ->
        In t (tasks s) -> documentId t = Some (doc_id d) -> taskId j <> task_id t).
Proof.
  intros Hwf. destruct (fold_dropDocument_removes (ws_documents s w) s Hwf) as (W & D & T & J).
  unfold dropWorkspace. split; [|split; [|split]].
  - unfold workspaces_by_id. fields. apply find_none_iff. intros w' H.
    apply filter_In in H as [_ H]. apply negb_true_iff in H. exact H.
  - unfold ws_documents. fields. apply filter_none. intros d' H.
    destruct (D d' H) as [Hin Hne]. apply Nat.eqb_neq. intros E.
    apply (Hne d'); [|reflexivity]. unfold ws_documents. apply filter_In. split; [exact Hin|].
    apply Nat.eqb_eq, E.
  - fields. intros t d H Hd. apply (T t H d Hd).
  - fields. intros j t d H Hd. apply (J j t d H Hd).
Qed.

(** Closing the document of a single-file workspace drops the workspace. *)
Lemma close_single_file uri s doc ws w :
  documents_by_uri s uri = Some doc ->
  workspaces_by_id s (doc_workspaceId doc) = Some ws ->
  ws_type ws = single_file -> workspaces_by_uri s uri = Some w ->
  onDidCloseTextDocument uri s = Some (dropWorkspace w s).
Proof.
  intros Hd Hw Ht Hu. unfold onDidCloseTextDocument, dropWorkspace_uri.
  rewrite Hd, Hw, Ht, Hu. reflexivity.
Qed.

(** In a multi-file workspace the workspace is dropped when it holds no
    other document, or when the closed document is itself in state
    [indexing]. *)
Lemma close_multi_file_alone uri s doc ws :
  documents_by_uri s uri = Some doc ->
  workspaces_by_id s (doc_workspaceId doc) = Some ws ->
  ws_type ws = multi_file ->
  (doc_state doc = indexing
   \/ forall other, In other (ws_documents s ws) -> doc_uri other = uri) ->
  onDidCloseTextDocument uri s = Some (dropWorkspace ws s).
Proof.
  intros Hd Hw Ht Hcase. unfold onDidCloseTextDocument. rewrite Hd, Hw, Ht.
  replace (forallb _ (ws_documents s ws)) with true; [reflexivity|].
  symmetry. apply forallb_forall. intros idoc Hin. destruct Hcase as [-> | Hall].
  - apply orb_true_r.
  - rewrite (Hall idoc Hin), String.eqb_refl. reflexivity.
Qed.

(** C8, where the code leaves it.  When an open document of a multi-file
    workspace is closed and the workspace holds any other document, open or
    not, only the state of the closed document changes: the test under
    [every] reads the state of the closed document instead of the state of
    the document it ranges over.  So the workspace also stays when the
    closed document was the last one open. *)
Theorem close_keeps_workspace_with_other_document
    (uri : string) (s : State) (doc : Document) (ws : Workspace) (other : Document) :
  documents_by_uri s uri = Some doc ->
  workspaces_by_id s (doc_workspaceId doc) = Some ws ->
  ws_type ws = multi_file -> doc_state doc = editing ->
  In other (ws_documents s ws) -> doc_uri other <> uri ->
  onDidCloseTextDocument uri s
  = Some (documents_update
            (mkDocument (doc_id doc) (doc_uri doc) (doc_workspaceId doc) indexing) s).
Proof.
  intros Hd Hw Ht Hst Hin Hne. unfold onDidCloseTextDocument. rewrite Hd, Hw, Ht.
  replace (forallb _ (ws_documents s ws)) with false; [reflexivity|].
  symmetry. apply not_true_iff_false. intros Hall.
  rewrite forallb_forall in Hall. specialize (Hall other Hin). rewrite Hst in Hall.
  rewrite orb_false_r in Hall. apply String.eqb_eq in Hall. contradiction.
Qed.

Lemma close_keeps_workspace_witness :
  exists s', onDidCloseTextDocument "file:///w/b.rst" two_tasks = Some s'
    /\ workspaces s' = workspaces two_tasks
    /\ tasks s' = tasks two_tasks
    /\ map doc_state (documents s') = [indexing; indexing].
Proof.
  eexists. split; [|split; [|split]].
  - apply (close_keeps_workspace_with_other_document "file:///w/b.rst" two_tasks
             (mkDocument 2 "file:///w/b.rst" 1 editing) (mkWorkspace 1 "file:///w")
             (mkDocument 1 "file:///w/a.rst" 1 indexing));
      try reflexivity; [left; reflexivity | discriminate].
  - reflexivity.
  - reflexivity.
  - reflexivity.
Defined.

(** *** C7: one job per task, and the job a cancelled id leaves behind *)



End ServerTheory.

(* ===================================================================== *)
(** ** Properties of the caches                                           *)
(* ===================================================================== *)

Module CacheTheory.

Import TextDocument Cache.

Local Open Scope nat_scope.

Section WithQueries.

Variable rl : Tree -> list Captures.
Variable sm : nat -> Tree -> list Captures.
Variable Node : Type.
Variable reindex : list nat -> list Document -> Document -> list nat.

(** *** Documents *)

Lemma memoizer_miss {V} name (func : V) cache :
  cache !! name = None -> fst (memoizer name func cache) = func.
Proof. intros H. unfold memoizer. rewrite H. reflexivity. Qed.

Lemma memoizer_hit {V} name (func v : V) cache :
  cache !! name = Some v -> memoizer name func cache = (v, cache).
Proof. intros H. unfold memoizer. rewrite H. reflexivity. Qed.

(** [update] of a document leaves its cache empty, so that the next read of
    a fact list is computed from the tree the update has left. *)
Lemma doc_update_clears d version changes d' :
  doc_update d version changes = Some d' ->
  doc_cache d' = ∅
  /\ fst (referenceListings rl d') = referenceListings_fresh rl d'
  /\ fst (sections sm d') = sections_fresh sm d'
  /\ ts_update (tsDoc d) changes version = Some (tsDoc d')
  /\ doc_id d' = doc_id d /\ doc_uri d' = doc_uri d
  /\ doc_workspaceId d' = doc_workspaceId d.
Proof.
  unfold doc_update. destruct (ts_update (tsDoc d) changes version) as [t|]; [|discriminate].
  intros [= <-]. repeat (split; [reflexivity|]). reflexivity.
Qed.

(** [reparse] keeps the cache as it is. *)
Lemma doc_reparse_keeps_cache d : doc_cache (doc_reparse d) = doc_cache d.
Proof. reflexivity. Qed.

Lemma referenceListings_coherent d :
  doc_coherent rl sm d -> fst (referenceListings rl d) = referenceListings_fresh rl d.
Proof.
  intros [H _]. unfold referenceListings, memoizer.
  destruct (doc_cache d !! "referenceListings") as [v|] eqn:E; cbn; [apply H, eq_refl | reflexivity].
Qed.

Lemma sections_coherent d :
  doc_coherent rl sm d -> fst (sections sm d) = sections_fresh sm d.
Proof.
  intros [_ H]. unfold sections, memoizer.
  destruct (doc_cache d !! "sections") as [v|] eqn:E; cbn; [apply H, eq_refl | reflexivity].
Qed.

(** A read changes the cache of the document only: the document it leaves
    has the same id and tree, and its cache still agrees with the tree. *)
Lemma referenceListings_keeps d :
  doc_coherent rl sm d ->
  doc_coherent rl sm (snd (referenceListings rl d))
  /\ doc_id (snd (referenceListings rl d)) = doc_id d
  /\ referenceListings_fresh rl (snd (referenceListings rl d)) = referenceListings_fresh rl d.
Proof.
  intros [H1 H2]. unfold referenceListings, memoizer.
  destruct (doc_cache d !! "referenceListings") as [v|] eqn:E; cbn [snd].
  - split; [|split; reflexivity]. split; intros v0 Hv; cbn [doc_cache set_tsDoc_cache] in Hv.
    + refine (H1 v0 _). congruence.
    + exact (H2 v0 Hv).
  - split; [|split; reflexivity]. split; intros v0 Hv; cbn [doc_cache set_tsDoc_cache] in Hv.
    + rewrite lookup_insert_eq in Hv. injection Hv as <-. reflexivity.
    + rewrite lookup_insert_ne in Hv by discriminate. exact (H2 v0 Hv).
Qed.

Lemma sections_keeps d :
  doc_coherent rl sm d ->
  doc_coherent rl sm (snd (sections sm d))
  /\ doc_id (snd (sections sm d)) = doc_id d
  /\ sections_fresh sm (snd (sections sm d)) = sections_fresh sm d.
Proof.
  intros [H1 H2]. unfold sections, memoizer.
  destruct (doc_cache d !! "sections") as [v|] eqn:E; cbn [snd].
  - split; [|split; reflexivity]. split; intros v0 Hv; cbn [doc_cache set_tsDoc_cache] in Hv.
    + exact (H1 v0 Hv).
    + refine (H2 v0 _). congruence.
  - split; [|split; reflexivity]. split; intros v0 Hv; cbn [doc_cache set_tsDoc_cache] in Hv.
    + rewrite lookup_insert_ne in Hv by discriminate. exact (H1 v0 Hv).
    + rewrite lookup_insert_eq in Hv. injection Hv as <-. reflexivity.
Qed.

(** *** The store *)

Lemma find_map_key {A} (key : A -> nat) (g : A -> A) l k :
  (forall x, key (g x) = key x) ->
  List.find (fun x => key x =? k) (map g l)
  = option_map g (List.find (fun x => key x =? k) l).
Proof.
  intros Hg. induction l as [|x l IH]; [reflexivity|]. cbn. rewrite Hg.
  destruct (key x =? k); [reflexivity | exact IH].
Qed.

Lemma documents_by_id_put d' docs id :
  documents_by_id (documents_put d' docs) id
  = option_map (fun x => if doc_id x =? doc_id d' then d' else x)
      (documents_by_id docs id).
Proof.
  unfold documents_by_id, documents_put. apply find_map_key.
  intros x. destruct (Nat.eqb_spec (doc_id x) (doc_id d')); congruence.
Qed.

Lemma documents_by_id_some docs id d :
  documents_by_id docs id = Some d -> In d docs /\ doc_id d = id.
Proof.
  intros H. apply find_some in H as [Hin Hid]. apply Nat.eqb_eq in Hid. auto.
Qed.

(** Every document that [find] yields is the stored document of its id. *)
Lemma find_workspaceId_stored (s : State Node) wsId d :
  In d (find_workspaceId Node s wsId) ->
  documents_by_id (documents Node s) (doc_id d) = Some d
  /\ In d (documents Node s) /\ doc_workspaceId d = wsId.
Proof.
  unfold find_workspaceId. intros H. apply in_flat_map in H as (id & _ & H).
  destruct (documents_by_id (documents Node s) id) as [d0|] eqn:E; [|destruct H].
  destruct (Nat.eqb_spec (doc_workspaceId d0) wsId) as [Hw|]; [|destruct H].
  destruct H as [<-|[]]. destruct (documents_by_id_some _ _ _ E) as [Hin Hid].
  rewrite Hid. auto.
Qed.

(** *** Workspaces *)

Lemma contribution_put fresh d d' docs id :
  documents_by_id docs (doc_id d') = Some d -> fresh d' = fresh d ->
  contribution fresh (documents_put d' docs) id = contribution fresh docs id.
Proof.
  intros Hd Hf. unfold contribution. rewrite documents_by_id_put.
  destruct (documents_by_id docs id) as [x|] eqn:E; [|reflexivity]. cbn [option_map].
  destruct (Nat.eqb_spec (doc_id x) (doc_id d')) as [Hx|]; [|reflexivity].
  destruct (documents_by_id_some _ _ _ E) as [_ Hid].
  rewrite <- Hx, Hid, E in Hd. injection Hd as <-. exact Hf.
Qed.

(** A read over the documents found returns, document by document, what the
    getter computes from the tree, when no cache disagrees with its tree. *)
Lemma read_documents_coherent (getter : Document -> list Fact * Document)
    (fresh : Document -> list Fact) :
  (forall d, doc_coherent rl sm d -> fst (getter d) = fresh d) ->
  (forall d, doc_coherent rl sm d ->
     doc_coherent rl sm (snd (getter d)) /\ doc_id (snd (getter d)) = doc_id d
     /\ fresh (snd (getter d)) = fresh d) ->
  forall found docs,
    (forall d, In d docs -> doc_coherent rl sm d) ->
    fst (read_documents getter found docs)
    = concat (map (contribution fresh docs) found)
    /\ forall d, In d (snd (read_documents getter found docs)) -> doc_coherent rl sm d.
Proof.
  intros Hg Hs. induction found as [|id more IH]; intros docs HP; [split; [reflexivity|exact HP]|].
  cbn [read_documents map concat]. unfold contribution at 1.
  destruct (documents_by_id docs id) as [d|] eqn:E; [|apply IH, HP].
  destruct (documents_by_id_some _ _ _ E) as [Hin Hid].
  specialize (Hg d (HP d Hin)). destruct (Hs d (HP d Hin)) as (Hc' & Hid' & Hf').
  destruct (getter d) as [v d'] eqn:Eg. cbn [fst snd] in *.
  assert (HP' : forall x, In x (documents_put d' docs) -> doc_coherent rl sm x).
  { intros x Hx. unfold documents_put in Hx. apply in_map_iff in Hx as (x0 & <- & Hx0).
    destruct (doc_id x0 =? doc_id d'); [exact Hc' | apply HP, Hx0]. }
  destruct (IH (documents_put d' docs) HP') as [IH1 IH2].
  destruct (read_documents getter more (documents_put d' docs)) as [facts docs'] eqn:Er.
  cbn [fst snd] in *. split; [|exact IH2]. rewrite Hg, IH1. f_equal. f_equal.
  apply map_ext. intros id'. apply (contribution_put fresh d); [|exact Hf'].
  rewrite Hid', Hid. exact E.
Qed.

Lemma contribution_found fresh (s : State Node) wsId :
  map (contribution fresh (documents Node s)) (map doc_id (find_workspaceId Node s wsId))
  = map fresh (find_workspaceId Node s wsId).
Proof.
  rewrite map_map. apply map_ext_in. intros d Hd. unfold contribution.
  destruct (find_workspaceId_stored s wsId d Hd) as [-> _]. reflexivity.
Qed.

(** A read that finds no entry computes the value from the trees of the
    documents found, in the order found. *)
Lemma ws_memo_miss name (getter : Document -> list Fact * Document)
    (fresh : Document -> list Fact) (build : list Fact -> WsValue Node)
    (w : Workspace Node) (s : State Node) :
  (forall d, doc_coherent rl sm d -> fst (getter d) = fresh d) ->
  (forall d, doc_coherent rl sm d ->
     doc_coherent rl sm (snd (getter d)) /\ doc_id (snd (getter d)) = doc_id d
     /\ fresh (snd (getter d)) = fresh d) ->
  ws_cache Node w !! name = None ->
  (forall d, In d (documents Node s) -> doc_coherent rl sm d) ->
  fst (ws_memo Node name getter build w s)
  = build (concat (map fresh (ws_documents Node w s))).
Proof.
  intros Hg Hs Hmiss Hdocs. unfold ws_memo. rewrite Hmiss.
  destruct (read_documents_coherent getter fresh Hg Hs
              (map doc_id (ws_documents Node w s)) (documents Node s) Hdocs) as [H _].
  destruct (read_documents _ _ _) as [facts docs'] eqn:E. cbn [fst] in *. f_equal.
  rewrite H. unfold ws_documents. rewrite contribution_found. reflexivity.
Qed.

Lemma referencesByKey_miss (w : Workspace Node) (s : State Node) :
  ws_cache Node w !! "referencesByKey" = None ->
  (forall d, In d (documents Node s) -> doc_coherent rl sm d) ->
  Some (fst (referencesByKey rl Node w s))
  = fresh_table rl sm Node "referencesByKey" w s.
Proof.
  intros Hmiss Hdocs. unfold referencesByKey.
  rewrite (ws_memo_miss _ _ (referenceListings_fresh rl));
    auto using referenceListings_coherent, referenceListings_keeps.
Qed.

(** A read that finds an entry returns it, whatever the trees are now. *)
Lemma ws_memo_hit name getter build (w : Workspace Node) (s : State Node) v :
  ws_cache Node w !! name = Some v -> ws_memo Node name getter build w s = (v, s).
Proof. intros H. unfold ws_memo. rewrite H. reflexivity. Qed.

(** *** The two paths that call [update] *)

(** [onDidChangeTextDocument] empties the cache of the document and the
    cache of its workspace. *)
Lemma onDidChangeTextDocument_clears uri version changes (s s' : State Node) :
  onDidChangeTextDocument Node reindex uri version changes s = Some s' ->
  exists doc doc' ws,
    documents_by_uri Node s uri = Some doc
    /\ doc_update doc version changes = Some doc'
    /\ doc_cache doc' = ∅
    /\ workspaces_by_id Node s (doc_workspaceId doc) = Some ws
    /\ documents Node s' = documents_put doc' (documents Node s)
    /\ workspaces_by_id Node s' (doc_workspaceId doc) = Some (ws_clearCache Node ws)
    /\ ws_cache Node (ws_clearCache Node ws) = ∅.
Proof.
  unfold onDidChangeTextDocument.
  destruct (documents_by_uri Node s uri) as [doc|] eqn:Hd; [|discriminate].
  destruct (doc_update doc version changes) as [doc'|] eqn:Hu; [|discriminate].
  destruct (doc_update_clears _ _ _ _ Hu) as (Hc & _ & _ & _ & _ & _ & Hw).
  rewrite Hw.
  change (workspaces_by_id Node (documents_update Node reindex doc' s) (doc_workspaceId doc))
    with (workspaces_by_id Node s (doc_workspaceId doc)).
  destruct (workspaces_by_id Node s (doc_workspaceId doc)) as [ws|] eqn:Hws; [|discriminate].
  intros [= <-]. exists doc, doc', ws.
  repeat (split; [first [reflexivity | assumption]|]). split; [|reflexivity].
  unfold workspaces_by_id, workspaces_update. cbn [workspaces documents_update].
  pose proof (find_some _ _ Hws) as [_ Hid]. apply Nat.eqb_eq in Hid.
  change (ws_id Node (ws_clearCache Node ws)) with (ws_id Node ws).
  rewrite Hid. clear Hd. unfold workspaces_by_id in Hws. revert Hws.
  induction (workspaces Node s) as [|w ws' IH]; [discriminate|].
  cbn. destruct (ws_id Node w =? doc_workspaceId doc) eqn:E.
  - intros _. cbn. rewrite Hid, Nat.eqb_refl. reflexivity.
  - cbn. rewrite E. exact IH.
Qed.

(** The loop of [onRename] never touches a workspace. *)
Lemma onRename_targets_workspaces targets : forall (s : State Node) edits s',
  onRename_targets Node targets s = Some (edits, s') ->
  workspaces Node s' = workspaces Node s.
Proof.
  induction targets as [|[iuri changes] targets IH]; intros s edits s' H; cbn in H.
  - injection H as _ <-. reflexivity.
  - destruct (documents_by_uri Node s iuri) as [idoc|]; [|discriminate].
    destruct (doc_state idoc).
    + destruct (onRename_targets Node targets s) as [[ch s1]|] eqn:E; [|discriminate].
      injection H as _ <-. eapply IH, E.
    + destruct (doc_update idoc _ changes) as [idoc'|]; [|discriminate].
      apply IH in H. exact H.
Qed.

(** C4, where the code leaves it.  When [onRename] updates documents that
    are not open in the editor, the workspaces stay as they are, caches
    included: an entry of a workspace cache that was there before the rename
    is what the next read of that table returns, whatever the new texts
    are.  ([onDidChangeTextDocument], the other caller of [update], clears
    the cache of the workspace.) *)
Theorem onRename_keeps_workspace_cache
    (targets : list (string * list TextDocumentContentChangeEvent))
    (s : State Node) (edits : list TextDocumentEdit) (s' : State Node)
    (w : Workspace Node) (name : string)
    (getter : Document -> list Fact * Document) (build : list Fact -> WsValue Node)
    (v : WsValue Node) :
  onRename_targets Node targets s = Some (edits, s') ->
  In w (workspaces Node s) -> ws_cache Node w !! name = Some v ->
  In w (workspaces Node s') /\ fst (ws_memo Node name getter build w s') = v.
Proof.
  intros H Hin Hc. rewrite (onRename_targets_workspaces _ _ _ _ H).
  split; [exact Hin|]. rewrite (ws_memo_hit _ _ _ _ _ _ Hc). reflexivity.
Qed.

End WithQueries.

(** The scenario: the table of references is read, a rename rewrites the
    only document of the workspace from [old] to [new], and the table is read
    again.  The second read returns the table of the first, which still
    lists [old] and does not list [new]; the table of the trees as they are
    now lists [new] only. *)
Lemma onRename_keeps_workspace_cache_witness :
  exists v s1 w1 edits s2 fresh,
    referencesByKey whole_text (list string) rename_workspace rename_before = (v, s1)
    /\ workspaces_by_id (list string) s1 1 = Some w1
    /\ onRename_targets (list string) rename_targets s1 = Some (edits, s2)
    /\ (List.map (fun d => ts_text (tsDoc d)) (documents (list string) s2)
        = [ofString "new"])
    /\ In w1 (workspaces (list string) s2)
    /\ fst (referencesByKey whole_text (list string) w1 s2) = v
    /\ table_of v !! "old" <> None /\ table_of v !! "new" = None
    /\ fresh_table whole_text no_sections (list string) "referencesByKey" w1 s2
       = Some fresh
    /\ table_of fresh !! "old" = None
    /\ table_of fresh !! "new" <> None.
Proof.
  destruct (referencesByKey whole_text (list string) rename_workspace rename_before)
    as [v s1] eqn:E1.
  destruct (workspaces_by_id (list string) s1 1) as [w1|] eqn:E2;
    [|vm_compute in E1; injection E1 as <- <-; vm_compute in E2; discriminate E2].
  destruct (onRename_targets (list string) rename_targets s1) as [[edits s2]|] eqn:E3;
    [|vm_compute in E1; injection E1 as <- <-; vm_compute in E3; discriminate E3].
  destruct (fresh_table whole_text no_sections (list string) "referencesByKey" w1 s2)
    as [fresh|] eqn:E4; [|discriminate E4].
  assert (Hin : In w1 (workspaces (list string) s1)).
  { apply (find_some _ _ E2). }
  assert (Hc : ws_cache (list string) w1 !! "referencesByKey" = Some v).
  { vm_compute in E1. injection E1 as <- <-. vm_compute in E2. injection E2 as <-.
    vm_compute. reflexivity. }
  destruct (onRename_keeps_workspace_cache (list string) rename_targets s1 edits s2 w1
              "referencesByKey" (referenceListings whole_text)
              (fun fs => Table (list string) (table_by_key fs)) v E3 Hin Hc)
    as [Hin2 Hread].
  exists v, s1, w1, edits, s2, fresh.
  split; [reflexivity|]. split; [exact E2|]. split; [exact E3|].
  vm_compute in E1. injection E1 as <- <-. vm_compute in E2. injection E2 as <-.
  vm_compute in E3. injection E3 as <- <-. vm_compute in E4. injection E4 as <-.
  split; [reflexivity|]. split; [exact Hin2|]. split; [exact Hread|].
  split; [vm_compute; discriminate|]. split; [vm_compute; reflexivity|].
  split; [reflexivity|].
  split; [vm_compute; reflexivity|]. vm_compute; discriminate.
Defined.

End CacheTheory.

(* ===================================================================== *)
(** ** More on the text buffer: positions, slices and edits               *)
(* ===================================================================== *)

Module TextDocumentEdits.

Import TextDocument TextDocumentTheory.

Local Open Scope Z_scope.

(** *** Positions of offsets *)

Lemma positionAt_in_clamp content table o :
  positionAt_in content table o = positionAt_in content table (clamp content o).
Proof.
  unfold positionAt_in, clamp.
  replace (Z.max (Z.min (Z.max (Z.min o (len content)) 0) (len content)) 0)
    with (Z.max (Z.min o (len content)) 0) by (unfold len; lia).
  reflexivity.
Qed.

Lemma clamp_range content o : 0 <= clamp content o <= len content.
Proof. unfold clamp, len. lia. Qed.

Lemma clamp_id content o : 0 <= o <= len content -> clamp content o = o.
Proof. unfold clamp. lia. Qed.

(** What [positionAt] finds on a searchable table: the last line that
    starts at or before the offset, and the distance from its start. *)
Lemma positionAt_in_spec content table o :
  valid_table (len content) table ->
  0 <= o <= len content ->
  let p := positionAt_in content table o in
  0 <= line p < Z.of_nat (length table)
  /\ at_ table (line p) <= o
  /\ character p = o - at_ table (line p)
  /\ (forall k, 0 <= k <= line p -> at_ table k <= o)
  /\ (forall k, line p < k < Z.of_nat (length table) -> o < at_ table k).
Proof.
  intros Hv Ho p.
  destruct (positionAt_in_line content table Hv o Ho) as ((Hr & Hlo & Hhi) & Hr1 & Hch).
  fold p in Hr, Hlo, Hhi, Hr1, Hch.
  replace (line p + 1 - 1) with (line p) in Hch by lia.
  split; [lia|]. split; [apply Hlo; lia|]. split; [exact Hch|].
  split; intros k Hk; [apply Hlo | apply Hhi]; lia.
Qed.

Lemma offsetAt_positionAt_in content table o :
  valid_table (len content) table ->
  0 <= o <= len content ->
  offsetAt_in content table (positionAt_in content table o) = o.
Proof.
  intros Hv Ho.
  destruct (positionAt_in_spec content table o Hv Ho) as (Hl & Hle & Hch & _ & Hhi).
  set (p := positionAt_in content table o) in *.
  unfold offsetAt_in. rewrite Hch.
  destruct (Z.geb_spec (line p) (Z.of_nat (length table))); [lia|].
  destruct (Z.ltb_spec (line p) 0); [lia|].
  destruct (Z.ltb_spec (line p + 1) (Z.of_nat (length table))).
  - specialize (Hhi (line p + 1)). lia.
  - lia.
Qed.

(** X1.  [positionAt] is inverted by [offsetAt]: for every text and every
    offset, in range or not, the position of the offset is a position of the
    text (its line is one of the lines, its character is not negative and
    counts from the start of that line, and the next line starts after the
    offset), and [offsetAt] takes it back to the offset clamped to the
    text. *)
Theorem positionAt_offsetAt_inverse (version : Z) (content : text) (offset : Z) :
  let d := create version content in
  let p := positionAt d offset in
  offsetAt d p = clamp content offset
  /\ 0 <= line p < lineCount d
  /\ 0 <= character p
  /\ at_ (lineOffsetsOf d) (line p) + character p = clamp content offset
  /\ (line p + 1 < lineCount d ->
      clamp content offset < at_ (lineOffsetsOf d) (line p + 1)).
Proof.
  intros d p.
  pose proof (computeLineOffsets_valid content) as Hv.
  pose proof (clamp_range content offset) as Hc.
  unfold p, positionAt, offsetAt, lineCount, d, lineOffsetsOf. cbn [_lineOffsets _content create].
  rewrite positionAt_in_clamp.
  destruct (positionAt_in_spec content _ _ Hv Hc) as (Hl & Hle & Hch & _ & Hhi).
  split; [apply offsetAt_positionAt_in; assumption|].
  split; [exact Hl|]. split; [lia|]. split; [lia|].
  intros Hn. apply Hhi. lia.
Qed.

(** *** Offsets of positions *)

Lemma offsetAt_create_range version content p :
  0 <= offsetAt (create version content) p <= len content.
Proof.
  unfold offsetAt, lineOffsetsOf. cbn [_lineOffsets _content create].
  apply offsetAt_in_range, computeLineOffsets_valid.
Qed.

(** X2.  [offsetAt] never leaves the text nor the line it is asked about: the
    result lies between 0 and the length of the text; on a line of the text
    it lies between the start of that line and the start of the next one (the
    end of the text on the last line), and it grows with the character. *)
Theorem offsetAt_stays_on_line (version : Z) (content : text) (p q : Position) :
  let d := create version content in
  0 <= offsetAt d p <= len content
  /\ (0 <= line p < lineCount d ->
      at_ (lineOffsetsOf d) (line p) <= offsetAt d p
      /\ offsetAt d p
         <= (if line p + 1 <? lineCount d
             then at_ (lineOffsetsOf d) (line p + 1) else len content))
  /\ (line p = line q -> character p <= character q -> offsetAt d p <= offsetAt d q).
Proof.
  intros d.
  pose proof (computeLineOffsets_valid content) as Hv.
  unfold offsetAt, lineCount, d, lineOffsetsOf. cbn [_lineOffsets _content create].
  set (table := computeLineOffsets content true 0) in *.
  split; [apply offsetAt_in_range; exact Hv|]. split.
  - intros Hl. unfold offsetAt_in.
    destruct (Z.geb_spec (line p) (Z.of_nat (length table))); [lia|].
    destruct (Z.ltb_spec (line p) 0); [lia|].
    pose proof (valid_table_range content table Hv (line p) Hl) as Hr.
    destruct (Z.ltb_spec (line p + 1) (Z.of_nat (length table))) as [Hn|Hn].
    + pose proof (valid_table_mono content table Hv (line p) (line p + 1)). lia.
    + lia.
  - intros Hlq Hch. unfold offsetAt_in. rewrite <- Hlq.
    destruct (Z.geb_spec (line p) (Z.of_nat (length table))); [lia|].
    destruct (Z.ltb_spec (line p) 0); [lia|].
    destruct (Z.ltb_spec (line p + 1) (Z.of_nat (length table))); lia.
Qed.

(** X3.  [positionAt] keeps the order of offsets: a larger offset never has
    an earlier position. *)
Theorem positionAt_monotone (version : Z) (content : text) (o1 o2 : Z) :
  o1 <= o2 ->
  pos_le (positionAt (create version content) o1) (positionAt (create version content) o2).
Proof.
  intros Hle.
  pose proof (computeLineOffsets_valid content) as Hv.
  unfold positionAt, lineOffsetsOf. cbn [_lineOffsets _content create].
  set (table := computeLineOffsets content true 0) in *.
  rewrite (positionAt_in_clamp content table o1), (positionAt_in_clamp content table o2).
  pose proof (clamp_range content o1) as H1. pose proof (clamp_range content o2) as H2.
  assert (Hc : clamp content o1 <= clamp content o2) by (unfold clamp; lia).
  destruct (positionAt_in_spec content table _ Hv H1) as (Hl1 & Hle1 & Hch1 & _ & Hhi1).
  destruct (positionAt_in_spec content table _ Hv H2) as (Hl2 & Hle2 & Hch2 & _ & Hhi2).
  set (p1 := positionAt_in content table (clamp content o1)) in *.
  set (p2 := positionAt_in content table (clamp content o2)) in *.
  unfold pos_le.
  destruct (Z_lt_le_dec (line p1) (line p2)) as [Hlt|Hge]; [left; exact Hlt|].
  right. destruct (Z.eq_dec (line p1) (line p2)) as [He|Hne].
  - split; [exact He|]. rewrite Hch1, Hch2, He. lia.
  - specialize (Hhi2 (line p1)). lia.
Qed.

Lemma positionAt_monotone_witness :
  pos_le (positionAt (create 1 (ofString "ab" ++ LineFeed :: ofString "cd")) 1)
         (positionAt (create 1 (ofString "ab" ++ LineFeed :: ofString "cd")) 4).
Proof. apply (positionAt_monotone 1 (ofString "ab" ++ LineFeed :: ofString "cd") 1 4). lia. Defined.

(** *** Slices *)

Lemma substring_sym (s : text) a b : substring s a b = substring s b a.
Proof.
  unfold substring. cbv zeta.
  rewrite (Z.min_comm (Z.max 0 (Z.min a (len s)))), (Z.max_comm (Z.max 0 (Z.min a (len s)))).
  reflexivity.
Qed.

Lemma substring_ordered (s : text) a b :
  0 <= a <= b -> b <= len s ->
  substring s a b = firstn (Z.to_nat (b - a)) (skipn (Z.to_nat a) s).
Proof.
  intros Ha Hb. unfold substring. cbv zeta.
  replace (Z.max 0 (Z.min a (len s))) with a by lia.
  replace (Z.max 0 (Z.min b (len s))) with b by lia.
  replace (Z.min a b) with a by lia. replace (Z.max a b) with b by lia.
  reflexivity.
Qed.

Lemma substring_prefix (s : text) a :
  0 <= a <= len s -> substring s 0 a = firstn (Z.to_nat a) s.
Proof.
  intros Ha. rewrite substring_ordered by lia.
  cbn [Z.to_nat skipn]. f_equal. f_equal. lia.
Qed.

Lemma substring_suffix (s : text) a :
  0 <= a <= len s -> substring s a (len s) = skipn (Z.to_nat a) s.
Proof.
  intros Ha. rewrite substring_ordered by lia.
  apply firstn_all2. rewrite length_skipn. unfold len in *. lia.
Qed.

(** X4.  [getText] with a range returns the part of the text between the
    offsets of the two ends, whichever end comes first: the slice of a range
    and of the range with its ends exchanged are the same, the text is the
    part before the smaller offset, the slice and the part after the larger
    offset, and the slice is as long as the offsets are apart.  Without a
    range [getText] returns the text. *)
Theorem getText_between_offsets (version : Z) (content : text) (r : Range) :
  let d := create version content in
  let lo := Z.min (offsetAt d (start r)) (offsetAt d (end_ r)) in
  let hi := Z.max (offsetAt d (start r)) (offsetAt d (end_ r)) in
  getText d (Some r) = getText d (Some (swap r))
  /\ content = firstn (Z.to_nat lo) content ++ getText d (Some r)
               ++ skipn (Z.to_nat hi) content
  /\ len (getText d (Some r)) = hi - lo
  /\ getText d None = content.
Proof.
  intros d lo hi.
  pose proof (offsetAt_create_range version content (start r)) as Hs.
  pose proof (offsetAt_create_range version content (end_ r)) as He.
  fold d in Hs, He.
  change (getText d (Some r))
    with (substring content (offsetAt d (start r)) (offsetAt d (end_ r))).
  change (getText d (Some (swap r)))
    with (substring content (offsetAt d (end_ r)) (offsetAt d (start r))).
  set (a := offsetAt d (start r)) in *. set (b := offsetAt d (end_ r)) in *.
  assert (Hg : substring content a b
               = firstn (Z.to_nat (hi - lo)) (skipn (Z.to_nat lo) content)).
  { destruct (Z_le_gt_dec a b) as [Hle|Hgt].
    - rewrite substring_ordered by lia. unfold hi, lo.
      rewrite Z.min_l, Z.max_r by lia. reflexivity.
    - rewrite substring_sym, substring_ordered by lia. unfold hi, lo.
      rewrite Z.min_r, Z.max_l by lia. reflexivity. }
  split; [|split; [|split]].
  - apply substring_sym.
  - rewrite Hg.
    rewrite <- (firstn_skipn (Z.to_nat lo) content) at 1. f_equal.
    rewrite <- (firstn_skipn (Z.to_nat (hi - lo)) (skipn (Z.to_nat lo) content)) at 1.
    f_equal. rewrite skipn_skipn. f_equal. lia.
  - rewrite Hg. unfold len. rewrite length_firstn, length_skipn. unfold len in *. lia.
  - reflexivity.
Qed.

(** *** Whole-text changes and unknown changes *)

(** X5.  A change that carries the whole text, at the end of the list of
    changes, resets the document, whatever the changes before it did to the
    text and to the table of line offsets (holes included), unless one of
    them threw: [update] returns a document with that text, the new version
    and no table, so that its positions and offsets are those of the
    document [create] builds from the text.  Its tree is what the parser
    returns for the new text when it is handed the tree the earlier changes
    left: the whole-text change itself edits no tree. *)
Theorem update_full_resets_document
    (d : FullTextDocument) (changes : list TextDocumentContentChangeEvent)
    (t : text) (version : Z) :
  match returned (applyChanges d changes) with
  | Some before =>
      let d' := {| _version := version; _content := t;
                   _tree := parse_with t (ts_tree before); _lineOffsets := None |} in
      update d (changes ++ [Full t]) version = Ok d'
      /\ lineOffsetsOf d' = computeLineOffsets t true 0
      /\ (forall o, positionAt d' o = positionAt (create version t) o)
      /\ (forall p, offsetAt d' p = offsetAt (create version t) p)
  | None => exists m, update d (changes ++ [Full t]) version = Throws m
  end.
Proof.
  unfold update. rewrite applyChanges_app.
  destruct (applyChanges d changes) as [d1|m|h]; cbn [returned].
  - cbv zeta. repeat split; reflexivity.
  - exists m. reflexivity.
  - cbv zeta. repeat split; reflexivity.
Qed.

Lemma applyChange_throws d c m :
  applyChange d c = Throws m -> m = "Unknown change event received"%string.
Proof.
  destruct c as [r t|t|]; cbn [applyChange]; [|discriminate|intros [= <-]; reflexivity].
  unfold applyIncremental. destruct (if _ =? _ then _ else _); discriminate.
Qed.

Lemma applyChange_holed_throws h c m :
  applyChange_holed h c = Throws m -> m = "Unknown change event received"%string.
Proof.
  destruct c as [r t|t|]; cbn [applyChange_holed];
    [discriminate|discriminate|intros [= <-]; reflexivity].
Qed.

Lemma applyChanges_unrecognised changes :
  In Unrecognised changes ->
  (forall d, applyChanges d changes = Throws "Unknown change event received")
  /\ (forall h, applyChanges_holed h changes = Throws "Unknown change event received").
Proof.
  induction changes as [|c changes IH]; intros Hin; [destruct Hin|].
  destruct Hin as [->|Hin].
  - split; intros; reflexivity.
  - destruct (IH Hin) as [IHd IHh]. split.
    + intros d. cbn.
      destruct (applyChange d c) as [d1|m|h1] eqn:E; [apply IHd | | apply IHh].
      rewrite (applyChange_throws _ _ _ E). reflexivity.
    + intros h. cbn.
      destruct (applyChange_holed h c) as [d1|m|h1] eqn:E; [apply IHd | | apply IHh].
      rewrite (applyChange_holed_throws _ _ _ E). reflexivity.
Qed.

(** X6.  A change that is neither incremental nor whole-text makes [update]
    fail, wherever it stands in the list: the call does not return a
    document, with or without holes in its table; it throws the error of
    the unknown change event. *)
Theorem update_unrecognised_fails
    (d : FullTextDocument) (changes : list TextDocumentContentChangeEvent) (version : Z) :
  In Unrecognised changes ->
  (forall d', update d changes version <> Ok d')
  /\ update d changes version = Throws "Unknown change event received"
  /\ forall h, update_holed h changes version = Throws "Unknown change event received".
Proof.
  intros Hin. destruct (applyChanges_unrecognised changes Hin) as [Hd Hh].
  unfold update, update_holed. rewrite Hd. split; [discriminate|].
  split; [reflexivity|]. intros h. rewrite Hh. reflexivity.
Qed.

Lemma update_unrecognised_fails_witness :
  update (create 1 (ofString "abc")) [Full (ofString "x"); Unrecognised] 2
  = Throws "Unknown change event received".
Proof.
  apply (update_unrecognised_fails (create 1 (ofString "abc"))
           [Full (ofString "x"); Unrecognised] 2 (or_intror (or_introl eq_refl))).
Defined.

(** *** Incremental changes and the table of line offsets *)

Lemma line_starts_offset t : forall i off k,
  line_starts t i (off + k) = map (fun x => x + k) (line_starts t i off).
Proof.
  induction t as [|ch rest IH]; intros i off k; [reflexivity|].
  rewrite !line_starts_cons.
  destruct (Ascii.eqb ch LineFeed
            || (Ascii.eqb ch CarriageReturn && negb (next_is_LineFeed rest))).
  - cbn [map]. rewrite IH. f_equal. lia.
  - apply IH.
Qed.

Lemma overwrite_from_splice added : forall l n,
  (n + length added <= length l)%nat ->
  overwrite_from l n added = Some (firstn n l ++ added ++ skipn (n + length added) l).
Proof.
  induction added as [|v more IH]; intros l n Hn.
  - cbn. rewrite Nat.add_0_r, firstn_skipn. reflexivity.
  - cbn [overwrite_from length] in *. unfold array_set.
    destruct (Nat.ltb_spec n (length l)) as [Hlt|Hge]; [|lia].
    rewrite IH.
    + f_equal.
      assert (Hf : length (firstn n l) = n) by (rewrite length_firstn; lia).
      replace (firstn (S n) (firstn n l ++ v :: skipn (S n) l))
        with (firstn n l ++ [v]).
      2:{ rewrite firstn_app, Hf.
          rewrite (firstn_all2 (n:=S n) (firstn n l)) by lia.
          replace (S n - n)%nat with 1%nat by lia. reflexivity. }
      replace (skipn (S n + length more) (firstn n l ++ v :: skipn (S n) l))
        with (skipn (n + S (length more)) l).
      2:{ rewrite skipn_app, Hf.
          rewrite (skipn_all2 (firstn n l)) by lia.
          replace (S n + length more - n)%nat with (S (length more)) by lia.
          cbn [skipn app]. rewrite skipn_skipn. f_equal. lia. }
      rewrite <- app_assoc. reflexivity.
    + rewrite length_app, length_firstn. cbn [length]. rewrite length_skipn. lia.
Qed.

Lemma Forall_at (P : Z -> Prop) l k :
  Forall P l -> 0 <= k < Z.of_nat (length l) -> P (at_ l k).
Proof.
  intros H Hk. rewrite List.Forall_forall in H. apply H. unfold at_.
  apply nth_In. lia.
Qed.

(** The line [positionAt] reports when the table splits into the line
    starts up to the offset and those after it. *)
Lemma positionAt_in_split content (T1 T2 : list Z) o :
  valid_table (len content) (T1 ++ T2) ->
  T1 <> [] -> 0 <= o <= len content ->
  Forall (fun x => x <= o) T1 -> Forall (fun x => o < x) T2 ->
  line (positionAt_in content (T1 ++ T2) o) = Z.of_nat (length T1) - 1.
Proof.
  intros Hv Hne Ho H1 H2.
  destruct (positionAt_in_spec content _ o Hv Ho) as (Hl & Hle & _ & _ & Hhi).
  set (p := positionAt_in content (T1 ++ T2) o) in *.
  rewrite length_app, Nat2Z.inj_add in Hl, Hhi.
  assert (0 < Z.of_nat (length T1)) by (destruct T1; [congruence | cbn [length]; lia]).
  destruct (Z_lt_le_dec (line p) (Z.of_nat (length T1) - 1)) as [Hlt|Hge].
  - specialize (Hhi (Z.of_nat (length T1) - 1)).
    rewrite at_app_l in Hhi by lia.
    pose proof (Forall_at _ T1 (Z.of_nat (length T1) - 1) H1). cbv beta in *. lia.
  - destruct (Z_lt_le_dec (line p) (Z.of_nat (length T1))) as [Hlt|Hge2]; [lia|].
    replace (line p) with (Z.of_nat (length T1) + (line p - Z.of_nat (length T1))) in Hle by lia.
    rewrite at_app_r in Hle by lia.
    pose proof (Forall_at _ T2 (line p - Z.of_nat (length T1)) H2). cbv beta in *. lia.
Qed.

Lemma positionAt_in_monotone content table o1 o2 :
  valid_table (len content) table ->
  0 <= o1 <= o2 -> o2 <= len content ->
  pos_le (positionAt_in content table o1) (positionAt_in content table o2).
Proof.
  intros Hv H1 H2.
  destruct (positionAt_in_spec content table o1 Hv) as (Hl1 & Hle1 & Hch1 & _ & Hhi1); [lia|].
  destruct (positionAt_in_spec content table o2 Hv) as (Hl2 & Hle2 & Hch2 & _ & Hhi2); [lia|].
  set (p1 := positionAt_in content table o1) in *.
  set (p2 := positionAt_in content table o2) in *.
  unfold pos_le.
  destruct (Z_lt_le_dec (line p1) (line p2)) as [Hlt|Hge]; [left; exact Hlt|].
  right. destruct (Z.eq_dec (line p1) (line p2)) as [He|Hne].
  - split; [exact He|]. rewrite Hch1, Hch2, He. lia.
  - specialize (Hhi2 (line p1)). lia.
Qed.

Lemma getWellformedRange_ordered p q :
  pos_le p q -> getWellformedRange {| start := p; end_ := q |} = {| start := p; end_ := q |}.
Proof.
  intros H. unfold getWellformedRange. cbn [start end_].
  destruct H as [H|[H1 H2]].
  - destruct (Z.gtb_spec (line p) (line q)); [lia|].
    destruct (Z.eqb_spec (line p) (line q)); [lia|]. reflexivity.
  - destruct (Z.gtb_spec (line p) (line q)); [lia|].
    destruct (Z.gtb_spec (character p) (character q)); [lia|].
    rewrite Bool.andb_false_r. reflexivity.
Qed.

Lemma ascending_Forall l : forall lo, ascending lo l -> Forall (fun x => lo < x) l.
Proof.
  induction l as [|x l IH]; intros lo H; constructor.
  - apply H.
  - destruct H as [Hx Hl]. specialize (IH x Hl).
    eapply List.Forall_impl; [|exact IH]. cbv beta. intros; lia.
Qed.

Lemma Forall_le_trans (l : list Z) a b :
  a <= b -> Forall (fun x => x <= a) l -> Forall (fun x => x <= b) l.
Proof. intros Hab H. eapply List.Forall_impl; [|exact H]. cbv beta. intros; lia. Qed.

Lemma Forall_lt_trans (l : list Z) a b :
  a <= b -> Forall (fun x => b < x) l -> Forall (fun x => a < x) l.
Proof. intros Hab H. eapply List.Forall_impl; [|exact H]. cbv beta. intros; lia. Qed.

(** The table of a text in three parts, when neither cut falls inside a
    pair of carriage return and line feed. *)
Lemma table_three_parts (pre mid post : text) :
  ends_in_CarriageReturn pre && next_is_LineFeed (mid ++ post) = false ->
  ends_in_CarriageReturn mid && next_is_LineFeed post = false ->
  computeLineOffsets (pre ++ mid ++ post) true 0
  = (0 :: line_starts pre 0 0) ++ line_starts mid 0 (len pre)
      ++ line_starts post 0 (len pre + len mid)
  /\ Forall (fun x => x <= len pre) (0 :: line_starts pre 0 0)
  /\ Forall (fun x => len pre < x) (line_starts mid 0 (len pre))
  /\ Forall (fun x => x <= len pre + len mid) (line_starts mid 0 (len pre))
  /\ Forall (fun x => len pre + len mid < x) (line_starts post 0 (len pre + len mid)).
Proof.
  intros H1 H2.
  rewrite computeLineOffsets_line_starts.
  rewrite (line_starts_app pre (mid ++ post) 0 0 H1).
  rewrite (line_starts_app mid post (0 + len pre) 0 H2).
  rewrite (line_starts_shift mid (0 + len pre) 0).
  rewrite (line_starts_shift post (0 + len pre + len mid) 0).
  replace (0 + (0 + len pre)) with (len pre) by lia.
  replace (0 + (0 + len pre + len mid)) with (len pre + len mid) by lia.
  split; [reflexivity|].
  destruct (line_starts_bounds pre 0 0) as [Ha1 Ha2].
  destruct (line_starts_bounds mid 0 (len pre)) as [Hm1 Hm2].
  destruct (line_starts_bounds post 0 (len pre + len mid)) as [Hp1 Hp2].
  split; [|split; [|split]].
  - constructor; [unfold len; lia|].
    eapply Forall_le_trans; [|exact Ha2]. lia.
  - eapply Forall_lt_trans; [|exact (ascending_Forall _ _ Hm1)]. lia.
  - eapply Forall_le_trans; [|exact Hm2]. lia.
  - eapply Forall_lt_trans; [|exact (ascending_Forall _ _ Hp1)]. lia.
Qed.

(** X7.  An incremental change keeps the table of line offsets right.  When
    the table of a document is the table of its text, and a change replaces
    the part [mid] of the text [pre ++ mid ++ post] by [t], its range given
    by the positions of the two offsets, and no cut falls between a carriage
    return and the line feed after it (in the old text or in the new one),
    then the change is applied, the text becomes [pre ++ t ++ post], and the
    table the document holds afterwards is the table computed afresh from
    that text. *)
Theorem incremental_change_keeps_line_offsets
    (d : FullTextDocument) (pre mid post t : text) :
  _content d = pre ++ mid ++ post ->
  lineOffsetsOf d = computeLineOffsets (_content d) true 0 ->
  ends_in_CarriageReturn pre && next_is_LineFeed (mid ++ post) = false ->
  ends_in_CarriageReturn mid && next_is_LineFeed post = false ->
  ends_in_CarriageReturn pre && next_is_LineFeed (t ++ post) = false ->
  ends_in_CarriageReturn t && next_is_LineFeed post = false ->
  let r := {| start := positionAt d (len pre);
              end_ := positionAt d (len pre + len mid) |} in
  exists d',
    applyChange d (Incremental r t) = Ok d'
    /\ _content d' = pre ++ t ++ post
    /\ _lineOffsets d' = Some (computeLineOffsets (pre ++ t ++ post) true 0)
    /\ _version d' = _version d.
Proof.
  intros Hc Hlo H1 H2 H3 H4 r.
  destruct (table_three_parts pre mid post H1 H2) as (HT & FA & FM1 & FM2 & FP).
  destruct (table_three_parts pre t post H3 H4) as (HT' & _ & _ & _ & _).
  pose proof (computeLineOffsets_valid (pre ++ mid ++ post)) as Hv.
  set (A := 0 :: line_starts pre 0 0) in *.
  set (M := line_starts mid 0 (len pre)) in *.
  set (P := line_starts post 0 (len pre + len mid)) in *.
  set (N := line_starts t 0 (len pre)) in *.
  assert (Hlen : len (pre ++ mid ++ post) = len pre + len mid + len post).
  { rewrite !len_app. lia. }
  assert (Hs : 0 <= len pre <= len (pre ++ mid ++ post)) by (unfold len in *; lia).
  assert (He : 0 <= len pre + len mid <= len (pre ++ mid ++ post)) by (unfold len in *; lia).
  assert (HlA : 0 < Z.of_nat (length A)) by (unfold A; cbn [length]; lia).
  assert (Hls : line (positionAt d (len pre)) = Z.of_nat (length A) - 1).
  { unfold positionAt. rewrite Hlo, Hc, HT.
    apply positionAt_in_split; try assumption.
    - rewrite <- HT. exact Hv.
    - unfold A. discriminate.
    - apply Forall_app. split; [exact FM1|].
      eapply Forall_lt_trans; [|exact FP]. unfold len; lia. }
  assert (Hle : line (positionAt d (len pre + len mid))
                = Z.of_nat (length A) + Z.of_nat (length M) - 1).
  { unfold positionAt. rewrite Hlo, Hc, HT, (app_assoc A M P).
    replace (Z.of_nat (length A) + Z.of_nat (length M))
      with (Z.of_nat (length (A ++ M))) by (rewrite length_app; lia).
    apply positionAt_in_split; try assumption.
    - rewrite <- (app_assoc A M P), <- HT. exact Hv.
    - unfold A. discriminate.
    - apply Forall_app. split; [|exact FM2].
      eapply Forall_le_trans; [|exact FA]. unfold len; lia. }
  assert (Hso : offsetAt_in (_content d) (lineOffsetsOf d) (positionAt d (len pre)) = len pre).
  { unfold positionAt. rewrite Hlo, Hc. apply offsetAt_positionAt_in; assumption. }
  assert (Heo : offsetAt_in (_content d) (lineOffsetsOf d) (positionAt d (len pre + len mid))
                = len pre + len mid).
  { unfold positionAt. rewrite Hlo, Hc. apply offsetAt_positionAt_in; assumption. }
  assert (Hwf : getWellformedRange r = r).
  { apply getWellformedRange_ordered. unfold positionAt. rewrite Hlo, Hc.
    apply positionAt_in_monotone; [exact Hv | unfold len; lia | lia]. }
  subst r. unfold applyChange, applyIncremental. rewrite Hwf. cbv zeta.
  cbn [start end_]. rewrite !Hso, !Heo, !Hls, !Hle.
  assert (Hadd : computeLineOffsets t false (len pre) = N).
  { unfold computeLineOffsets. cbn [app]. apply loop_is_line_starts. }
  rewrite Hadd, Hlo, Hc, HT.
  replace (Z.max (Z.of_nat (length A) - 1) 0) with (Z.of_nat (length A) - 1) by lia.
  replace (Z.max (Z.of_nat (length A) + Z.of_nat (length M) - 1) 0)
    with (Z.of_nat (length A) + Z.of_nat (length M) - 1) by lia.
  replace (Z.of_nat (length A) - 1 + 1) with (Z.of_nat (length A)) by lia.
  replace (Z.of_nat (length A) + Z.of_nat (length M) - 1 - (Z.of_nat (length A) - 1))
    with (Z.of_nat (length M)) by lia.
  replace (Z.of_nat (length A) + Z.of_nat (length M) - 1 + 1)
    with (Z.of_nat (length (A ++ M))) by (rewrite length_app; lia).
  replace (Z.of_nat (length A) + Z.of_nat (length N))
    with (Z.of_nat (length (A ++ N))) by (rewrite length_app; lia).
  rewrite !Nat2Z.id.
  assert (HfA : firstn (length A) (A ++ M ++ P) = A).
  { rewrite firstn_app, Nat.sub_diag, firstn_all. cbn [firstn]. apply app_nil_r. }
  assert (HsP : skipn (length (A ++ M)) (A ++ M ++ P) = P).
  { rewrite (app_assoc A M P), skipn_app, Nat.sub_diag, skipn_all. reflexivity. }
  assert (Hspl :
    (if Z.of_nat (length M) =? Z.of_nat (length N)
     then overwrite_from (A ++ M ++ P) (length A) N
     else if Z.of_nat (length N) <? 10000
          then Some (firstn (length A) (A ++ M ++ P) ++ N
                       ++ skipn (length A + length M) (A ++ M ++ P))
          else Some (firstn (length A) (A ++ M ++ P) ++ N
                       ++ skipn (length (A ++ M)) (A ++ M ++ P)))
    = Some (A ++ N ++ P)).
  { rewrite <- (length_app A M), HfA, HsP.
    destruct (Z.eqb_spec (Z.of_nat (length M)) (Z.of_nat (length N))) as [Heq|Hne].
    - rewrite overwrite_from_splice by (rewrite !length_app; lia).
      rewrite HfA. replace (length A + length N)%nat with (length (A ++ M))
        by (rewrite length_app; lia).
      rewrite HsP. reflexivity.
    - destruct (Z.of_nat (length N) <? 10000); reflexivity. }
  rewrite Hspl. eexists. split; [reflexivity|].
  cbn [_content _lineOffsets _version].
  split; [|split; [|reflexivity]].
  - rewrite substring_prefix, substring_suffix by lia.
    replace (Z.to_nat (len pre)) with (length pre) by (unfold len; lia).
    replace (Z.to_nat (len pre + len mid)) with (length pre + length mid)%nat
      by (unfold len; lia).
    rewrite firstn_app, Nat.sub_diag, firstn_all. cbn [firstn]. rewrite app_nil_r.
    rewrite (app_assoc pre mid post), <- (length_app pre mid).
    rewrite skipn_app, Nat.sub_diag, skipn_all. reflexivity.
  - f_equal. rewrite HT'.
    destruct (Z.eqb_spec (len t - (len pre + len mid - len pre)) 0) as [Hd|Hd].
    + replace (len pre + len t) with (len pre + len mid) by lia. reflexivity.
    + unfold shift_from.
      assert (firstn (length (A ++ N)) (A ++ N ++ P) = A ++ N) as ->.
      { rewrite (app_assoc A N P), firstn_app, Nat.sub_diag, firstn_all.
        cbn [firstn]. apply app_nil_r. }
      assert (skipn (length (A ++ N)) (A ++ N ++ P) = P) as ->.
      { rewrite (app_assoc A N P), skipn_app, Nat.sub_diag, skipn_all. reflexivity. }
      rewrite <- app_assoc. f_equal. f_equal. unfold P.
      rewrite <- line_starts_offset. f_equal. lia.
Qed.

Lemma incremental_change_keeps_line_offsets_witness :
  let d := create 1 (ofString "one" ++ LineFeed :: ofString "two" ++ LineFeed :: ofString "three") in
  exists d',
    applyChange d
      (Incremental {| start := positionAt d 2; end_ := positionAt d 9 |}
         (ofString "X" ++ LineFeed :: ofString "Y" ++ LineFeed :: ofString "Z")) = Ok d'
    /\ _content d' = ofString "onX" ++ LineFeed :: ofString "Y" ++ LineFeed :: ofString "Zhree"
    /\ _lineOffsets d' = Some [0; 4; 6].
Proof.
  destruct (incremental_change_keeps_line_offsets
              (create 1 (ofString "one" ++ LineFeed :: ofString "two" ++ LineFeed :: ofString "three"))
              (ofString "on") (ofString "e" ++ LineFeed :: ofString "two" ++ LineFeed :: ofString "t")
              (ofString "hree")
              (ofString "X" ++ LineFeed :: ofString "Y" ++ LineFeed :: ofString "Z")
              eq_refl eq_refl eq_refl eq_refl eq_refl eq_refl)
    as (d' & Happ & Hcont & Htab & _).
  exists d'. split; [exact Happ|]. split; [exact Hcont|]. exact Htab.
Defined.

(** *** Tables with holes *)

(** The loop of [positionAt] ends within [high - low] turns, whatever the
    cells hold. *)
Lemma positionAt_search_holed_fuel l x : forall fuel fuel' low high,
  high - low <= Z.of_nat fuel -> high - low <= Z.of_nat fuel' ->
  positionAt_search_holed fuel l x low high
  = positionAt_search_holed fuel' l x low high.
Proof.
  induction fuel as [|fuel IH]; intros fuel' low high H H'.
  - destruct fuel'; cbn; [reflexivity|].
    destruct (Z.ltb_spec low high); [lia | reflexivity].
  - destruct fuel' as [|fuel'].
    + cbn. destruct (Z.ltb_spec low high); [lia | reflexivity].
    + cbn [positionAt_search_holed].
      destruct (Z.ltb_spec low high) as [Hlt|]; [|reflexivity].
      cbv zeta. set (mid := (low + high) / 2).
      assert (Hmid : low <= mid < high) by (unfold mid; split;
        [apply Z.div_le_lower_bound | apply Z.div_lt_upper_bound]; lia).
      destruct (js_gt _ _); apply IH; lia.
Qed.

Lemma length_holed_table l : length (holed_table l) = length l.
Proof. apply length_map. Qed.

Lemma cell_at_holed_table l k :
  0 <= k < Z.of_nat (length l) -> cell_at (holed_table l) k = Some (Fin (at_ l k)).
Proof.
  intros H. unfold cell_at, holed_table, at_. destruct (Z.ltb_spec k 0); [lia|].
  rewrite (nth_indep _ None (Some (Fin 0))) by (rewrite length_map; lia).
  apply (map_nth (fun z => Some (Fin z))).
Qed.

(** On a table without holes the functions on cells compute what the
    functions on numbers do. *)
Lemma offsetAt_holed_table content l p :
  offsetAt_holed content (holed_table l) p = Fin (offsetAt_in content l p).
Proof.
  unfold offsetAt_holed, offsetAt_in. rewrite length_holed_table, Z.geb_leb.
  destruct (Z.leb_spec (Z.of_nat (length l)) (line p)); [reflexivity|].
  destruct (Z.ltb_spec (line p) 0); [reflexivity|].
  rewrite cell_at_holed_table by lia. cbn [to_number].
  destruct (Z.ltb_spec (line p + 1) (Z.of_nat (length l))); [|reflexivity].
  rewrite cell_at_holed_table by lia. reflexivity.
Qed.

Lemma positionAt_search_holed_table l x : forall fuel low high,
  0 <= low -> high <= Z.of_nat (length l) ->
  positionAt_search_holed fuel (holed_table l) (Fin x) low high
  = positionAt_search fuel l x low high.
Proof.
  induction fuel as [|fuel IH]; intros low high Hlow Hhigh; [reflexivity|].
  cbn [positionAt_search_holed positionAt_search].
  destruct (Z.ltb_spec low high) as [Hlt|]; [|reflexivity].
  cbv zeta. set (mid := (low + high) / 2).
  assert (Hmid : low <= mid < high) by (unfold mid; split;
    [apply Z.div_le_lower_bound | apply Z.div_lt_upper_bound]; lia).
  rewrite cell_at_holed_table by lia. cbn [to_number js_gt].
  destruct (at_ l mid >? x); apply IH; lia.
Qed.

Lemma positionAt_search_bounds l x : forall fuel low high,
  low <= high -> low <= positionAt_search fuel l x low high <= high.
Proof.
  induction fuel as [|fuel IH]; intros low high Hlh; cbn [positionAt_search]; [lia|].
  destruct (Z.ltb_spec low high) as [Hlt|]; [|lia].
  cbv zeta. set (mid := (low + high) / 2).
  assert (Hmid : low <= mid < high) by (unfold mid; split;
    [apply Z.div_le_lower_bound | apply Z.div_lt_upper_bound]; lia).
  destruct (at_ l mid >? x).
  - specialize (IH low mid). lia.
  - specialize (IH (mid + 1) high). lia.
Qed.

Lemma positionAt_search_first l x :
  at_ l 0 <= x -> forall fuel low high,
  0 <= low < high -> high - low <= Z.of_nat fuel ->
  1 <= positionAt_search fuel l x low high.
Proof.
  intros H0. induction fuel as [|fuel IH]; intros low high Hlh Hfuel; [lia|].
  cbn [positionAt_search]. destruct (Z.ltb_spec low high) as [Hlt|]; [|lia].
  cbv zeta. set (mid := (low + high) / 2).
  assert (Hmid : low <= mid < high) by (unfold mid; split;
    [apply Z.div_le_lower_bound | apply Z.div_lt_upper_bound]; lia).
  destruct (Z.gtb_spec (at_ l mid) x) as [Hgt|Hle].
  - destruct (Z.eq_dec low mid) as [E|E].
    + destruct (Z.eq_dec low 0) as [E0|E0]; [rewrite <- E, E0 in Hgt; lia|].
      pose proof (positionAt_search_bounds l x fuel low mid). lia.
    + apply IH; lia.
  - pose proof (positionAt_search_bounds l x fuel (mid + 1) high). lia.
Qed.

Lemma positionAt_holed_table content l x :
  at_ l 0 <= 0 ->
  positionAt_holed content (holed_table l) (Fin x)
  = (line (positionAt_in content l x), Fin (character (positionAt_in content l x))).
Proof.
  intros H0. unfold positionAt_holed, positionAt_in. rewrite length_holed_table.
  cbn [js_min js_max]. destruct (Z.eqb_spec (Z.of_nat (length l)) 0); [reflexivity|].
  set (io := Z.max (Z.min x (len content)) 0).
  rewrite positionAt_search_holed_table by lia. cbn [line character].
  pose proof (positionAt_search_bounds l io (length l) 0 (Z.of_nat (length l))).
  pose proof (positionAt_search_first l io ltac:(unfold io; lia) (length l) 0
                (Z.of_nat (length l))).
  rewrite cell_at_holed_table by lia. reflexivity.
Qed.

Lemma computeLineOffsets_holed_table t o :
  computeLineOffsets_holed t (Fin o) = holed_table (computeLineOffsets t false o).
Proof.
  unfold computeLineOffsets_holed, computeLineOffsets, holed_table. cbn [app].
  rewrite !loop_is_line_starts.
  change o with (0 + o) at 2. rewrite line_starts_offset, !map_map.
  apply map_ext. intros z. cbn. f_equal. f_equal. lia.
Qed.

Lemma holed_table_app a b : holed_table (a ++ b) = holed_table a ++ holed_table b.
Proof. apply map_app. Qed.

Lemma holed_table_firstn n l : holed_table (firstn n l) = firstn n (holed_table l).
Proof. symmetry. apply firstn_map. Qed.

Lemma holed_table_skipn n l : holed_table (skipn n l) = skipn n (holed_table l).
Proof. symmetry. apply skipn_map. Qed.

Lemma array_set_holed_table l i v l1 :
  array_set l i v = Some l1 ->
  array_set_holed (holed_table l) i (Some (Fin v)) = holed_table l1.
Proof.
  unfold array_set, array_set_holed. rewrite length_holed_table.
  destruct (Nat.ltb_spec i (length l)).
  - intros [= <-]. rewrite holed_table_app, holed_table_firstn. cbn [holed_table map].
    f_equal. f_equal. apply (skipn_map (fun z => Some (Fin z))).
  - destruct (Nat.eqb_spec i (length l)) as [->|]; [|discriminate].
    intros [= <-]. rewrite Nat.sub_diag, holed_table_app. reflexivity.
Qed.

Lemma overwrite_from_holed_table added : forall l n l1,
  overwrite_from l n added = Some l1 ->
  overwrite_from_holed (holed_table l) n (holed_table added) = holed_table l1.
Proof.
  induction added as [|v more IH]; intros l n l1; cbn.
  - intros [= <-]. reflexivity.
  - destruct (array_set l n v) as [l'|] eqn:E; [|discriminate].
    intros H. rewrite (array_set_holed_table _ _ _ _ E). apply IH, H.
Qed.

Lemma shift_from_holed_table l from diff :
  shift_from_holed (holed_table l) from (Fin diff) = holed_table (shift_from l from diff).
Proof.
  unfold shift_from_holed, shift_from.
  rewrite holed_table_app, holed_table_firstn. f_equal.
  rewrite <- holed_table_skipn. unfold holed_table. rewrite !map_map. reflexivity.
Qed.


(** The first cell of the table is never written: every write of an
    incremental change is at an index from [startLine + 1] on. *)
Lemma array_set_head a rest n v l1 :
  (1 <= n)%nat -> array_set (a :: rest) n v = Some l1 -> exists rest1, l1 = a :: rest1.
Proof.
  intros Hn. unfold array_set. destruct n as [|n]; [lia|].
  destruct (_ <? _)%nat; [intros [= <-]; cbn; eauto|].
  destruct (_ =? _)%nat; [intros [= <-]; cbn; eauto | discriminate].
Qed.

Lemma overwrite_from_head added : forall a rest n l1,
  (1 <= n)%nat -> overwrite_from (a :: rest) n added = Some l1 ->
  exists rest1, l1 = a :: rest1.
Proof.
  induction added as [|v more IH]; intros a rest n l1 Hn; cbn [overwrite_from].
  - intros [= <-]. eauto.
  - destruct (array_set (a :: rest) n v) as [l'|] eqn:E; [|discriminate].
    destruct (array_set_head _ _ _ _ _ Hn E) as [rest' ->].
    apply IH. lia.
Qed.

(** An incremental change that leaves no hole is the same change on the
    table seen as an array of cells. *)
Lemma applyIncremental_holed_agrees d r t d' rest :
  lineOffsetsOf d = 0 :: rest ->
  applyIncremental d r t = Ok d' ->
  applyIncremental_holed (holed_of (_version d) (_content d) (_tree d) (lineOffsetsOf d)) r t
  = holed_of (_version d') (_content d') (_tree d') (lineOffsetsOf d')
  /\ exists rest', lineOffsetsOf d' = 0 :: rest'.
Proof.
  intros Hhead. unfold applyIncremental, applyIncremental_holed, holed_of.
  cbn [h_version h_content h_tree h_lineOffsets]. cbv zeta.
  rewrite !offsetAt_holed_table. cbn [to_integer js_add js_sub].
  rewrite computeLineOffsets_holed_table, length_holed_table.
  set (range := getWellformedRange r).
  set (lo0 := lineOffsetsOf d) in *.
  set (so := offsetAt_in (_content d) lo0 (start range)).
  set (eo := offsetAt_in (_content d) lo0 (end_ range)).
  set (content' := substring (_content d) 0 so ++ t
                     ++ substring (_content d) eo (len (_content d))).
  set (sl := Z.max (line (start range)) 0).
  set (el := Z.max (line (end_ range)) 0).
  set (added := computeLineOffsets t false so).
  set (n1 := Z.to_nat (sl + 1)).
  assert (Hn1 : (1 <= n1)%nat) by (unfold n1, sl; lia).
  set (spliced := if el - sl =? Z.of_nat (length added) then _ else _).
  set (spliced_holed := if el - sl =? Z.of_nat (length added) then _ else _).
  assert (Hsp : forall lo1, spliced = Some lo1 ->
            spliced_holed = holed_table lo1 /\ exists rest1, lo1 = 0 :: rest1).
  { intros lo1. unfold spliced, spliced_holed.
    destruct (el - sl =? Z.of_nat (length added)).
    - intros H. split; [apply overwrite_from_holed_table, H|].
      rewrite Hhead in H. exact (overwrite_from_head _ _ _ _ _ Hn1 H).
    - destruct (Z.of_nat (length added) <? 10000); intros [= <-].
      + split; [rewrite !holed_table_app, holed_table_firstn, holed_table_skipn;
                reflexivity|].
        rewrite Hhead. destruct n1; [lia|]. cbn. eauto.
      + split; [rewrite !holed_table_app, holed_table_firstn, holed_table_skipn;
                reflexivity|].
        rewrite Hhead. destruct n1; [lia|]. cbn. eauto. }
  destruct spliced as [lo1|]; [|discriminate].
  destruct (Hsp lo1 eq_refl) as [-> [rest1 Hlo1]]. clear Hsp.
  set (diff := len t - (eo - so)).
  set (from := Z.to_nat (sl + 1 + Z.of_nat (length added))).
  assert (Hfrom : (1 <= from)%nat) by (unfold from, sl; lia).
  set (lo2 := if diff =? 0 then lo1 else shift_from lo1 from diff).
  assert (Hlo2 : match diff with
                 | 0 => holed_table lo1
                 | _ => shift_from_holed (holed_table lo1) from (Fin diff)
                 end = holed_table lo2).
  { unfold lo2. destruct diff; cbn [Z.eqb]; [reflexivity|apply shift_from_holed_table..]. }
  assert (Hh2 : exists rest2, lo2 = 0 :: rest2).
  { unfold lo2. destruct (diff =? 0); [eauto|].
    rewrite Hlo1. unfold shift_from. destruct from; [lia|]. cbn. eauto. }
  rewrite Hlo2. destruct Hh2 as [rest2 Hh2].
  assert (H0 : at_ lo2 0 <= 0) by (rewrite Hh2; unfold at_; rewrite Z2Nat.inj_0; cbn; lia).
  rewrite (positionAt_holed_table content' lo2 _ H0).
  intros [= <-]. cbn [_version _content _tree lineOffsetsOf _lineOffsets].
  split; [reflexivity | eauto].
Qed.


End TextDocumentEdits.

(* ===================================================================== *)
(** ** Properties of the helpers                                          *)
(* ===================================================================== *)

Module UtilTheory.

Import TextDocument Util.

Local Open Scope Z_scope.

(** Case analysis on every comparison of the goal. *)
Ltac compare_all :=
  repeat match goal with
         | |- context [?a <? ?b] => destruct (Z.ltb_spec a b)
         | |- context [?a <=? ?b] => destruct (Z.leb_spec a b)
         | |- context [?a >? ?b] => destruct (Z.gtb_spec a b)
         | |- context [?a =? ?b] => destruct (Z.eqb_spec a b)
         end.

(** *** Points and ranges *)

(** X8.  [tsPointCompare] is the comparison of a total order on points: it
    returns -1, 0 or 1; 0 exactly for equal points; exchanging the
    arguments negates the result; and "not greater" is transitive. *)
Theorem tsPointCompare_total_order (p q r : Point) :
  (tsPointCompare p q = -1 \/ tsPointCompare p q = 0 \/ tsPointCompare p q = 1)
  /\ (tsPointCompare p q = 0 <-> p = q)
  /\ tsPointCompare q p = - tsPointCompare p q
  /\ (tsPointCompare p q <= 0 -> tsPointCompare q r <= 0 -> tsPointCompare p r <= 0).
Proof.
  destruct p as [pr pc], q as [qr qc], r as [rr rc].
  unfold tsPointCompare. cbn [row column].
  repeat split; compare_all; try lia; try (intros; congruence);
    intros [= -> ->]; lia.
Qed.

(** X9.  [getWellformedRange] sorts the two ends of a range by
    [tsPointCompare]: the ends are exchanged exactly when the start compares
    greater than the end, the result never has its start greater than its
    end, and normalising twice is normalising once. *)
Theorem getWellformedRange_sorts_ends (r : Range) :
  let cmp := tsPointCompare (lspPositionToTsPoint (start r)) (lspPositionToTsPoint (end_ r)) in
  let r' := getWellformedRange r in
  (cmp = 1 -> r' = swap r)
  /\ (cmp <= 0 -> r' = r)
  /\ tsPointCompare (lspPositionToTsPoint (start r')) (lspPositionToTsPoint (end_ r')) <= 0
  /\ getWellformedRange r' = r'.
Proof.
  destruct r as [[sl sc] [el ec]].
  unfold getWellformedRange, tsPointCompare, lspPositionToTsPoint, swap.
  cbn [start end_ line character row column].
  destruct (Z.gtb_spec sl el), (Z.eqb_spec sl el), (Z.gtb_spec sc ec);
    cbn [orb andb start end_ line character]; try lia;
    (repeat split;
     [ compare_all; intros; first [reflexivity | lia] ..
     | compare_all; cbn [orb andb]; first [reflexivity | lia] ]).
Qed.

(** X10.  For two ranges that start on different lines and have their start
    before their end, [rangeIntersection] is the intersection: the order of
    the arguments does not matter, the result is null exactly when the
    ranges do not overlap, and otherwise it runs from the later start to the
    earlier end. *)
Theorem rangeIntersection_different_lines (a b : Range) :
  line (start a) <> line (start b) ->
  pos_le (start a) (end_ a) -> pos_le (start b) (end_ b) ->
  rangeIntersection a b = rangeIntersection b a
  /\ (rangeIntersection a b = None <-> ~ overlap a b)
  /\ (forall r, rangeIntersection a b = Some r ->
        start r = pos_max (start a) (start b) /\ end_ r = pos_min (end_ a) (end_ b)).
Proof.
  destruct a as [[asl asc] [ael aec]], b as [[bsl bsc] [bel bec]].
  unfold rangeIntersection, overlap, pos_le, pos_max, pos_min, pos_leb.
  cbn [start end_ line character]. intros Hne Ha Hb.
  destruct (Z.gtb_spec (asl - bsl) 0), (Z.gtb_spec (bsl - asl) 0); try lia;
    cbn [start end_ line character];
    (split; [reflexivity|]); (split; [split|]);
    compare_all; cbn [orb andb]; intros; try discriminate; try lia;
    try match goal with H : Some _ = Some _ |- _ => injection H as <- end;
    cbn [start end_]; try (split; first [reflexivity | f_equal; lia]);
    try (exfalso; lia); try tauto.
Qed.

Lemma rangeIntersection_different_lines_witness :
  rangeIntersection (mkRange (mkPosition 0 5) (mkPosition 2 1))
                    (mkRange (mkPosition 1 0) (mkPosition 3 4))
  = Some (mkRange (mkPosition 1 0) (mkPosition 2 1))
  /\ rangeIntersection (mkRange (mkPosition 1 0) (mkPosition 3 4))
                       (mkRange (mkPosition 0 5) (mkPosition 2 1))
     = Some (mkRange (mkPosition 1 0) (mkPosition 2 1)).
Proof.
  destruct (rangeIntersection_different_lines
              (mkRange (mkPosition 0 5) (mkPosition 2 1))
              (mkRange (mkPosition 1 0) (mkPosition 3 4))) as (Hcomm & _ & _).
  - cbn. lia.
  - left. cbn. lia.
  - left. cbn. lia.
  - split; [reflexivity|]. rewrite <- Hcomm. reflexivity.
Defined.

(** X11.  For two ranges that start on the same line the result depends on
    the order of the arguments: its start is the start of the second
    argument, wherever the first one starts.  A second range that ends
    before the first one starts is returned as the intersection, although
    the two share nothing; with the arguments exchanged the result is
    null. *)
Theorem rangeIntersection_same_line (a b : Range) :
  line (start a) = line (start b) ->
  pos_le (start a) (end_ a) -> pos_le (start b) (end_ b) ->
  (forall r, rangeIntersection a b = Some r -> start r = start b)
  /\ (pos_lt (end_ b) (start a) ->
      rangeIntersection a b = Some b /\ rangeIntersection b a = None /\ ~ overlap a b).
Proof.
  destruct a as [[asl asc] [ael aec]], b as [[bsl bsc] [bel bec]].
  unfold rangeIntersection, overlap, pos_le, pos_lt.
  cbn [start end_ line character]. intros He Ha Hb. subst bsl.
  replace (asl - asl) with 0 by lia. cbn [Z.gtb Z.compare start end_ line character].
  split.
  - intros r. compare_all; cbn [orb andb]; intros Hr; try discriminate;
      injection Hr as <-; reflexivity.
  - intros Hlt. repeat split.
    + compare_all; cbn [orb andb]; try lia; reflexivity.
    + compare_all; cbn [orb andb]; try lia; reflexivity.
    + lia.
Qed.

Lemma rangeIntersection_same_line_witness :
  rangeIntersection (mkRange (mkPosition 0 5) (mkPosition 0 10))
                    (mkRange (mkPosition 0 0) (mkPosition 0 2))
  = Some (mkRange (mkPosition 0 0) (mkPosition 0 2))
  /\ rangeIntersection (mkRange (mkPosition 0 0) (mkPosition 0 2))
                       (mkRange (mkPosition 0 5) (mkPosition 0 10))
     = None.
Proof.
  destruct (rangeIntersection_same_line
              (mkRange (mkPosition 0 5) (mkPosition 0 10))
              (mkRange (mkPosition 0 0) (mkPosition 0 2))) as (_ & H).
  - reflexivity.
  - right. cbn. lia.
  - right. cbn. lia.
  - destruct H as (H1 & H2 & _); [right; cbn; lia|]. split; [exact H1 | exact H2].
Defined.


(** *** Maps and grouping *)

Section MapFacts.

Context {K V : Type} `{EqDecision K}.

Lemma map_get_set_eq (m : jsmap K V) k v : map_get (map_set m k v) k = Some v.
Proof.
  induction m as [|[k' v'] m IH]; cbn.
  - destruct (decide (k = k)); [reflexivity | congruence].
  - destruct (decide (k' = k)) as [->|Hne]; cbn.
    + destruct (decide (k = k)); [reflexivity | congruence].
    + destruct (decide (k' = k)); [congruence | exact IH].
Qed.

Lemma map_get_set_ne (m : jsmap K V) k k' v :
  k <> k' -> map_get (map_set m k v) k' = map_get m k'.
Proof.
  intros Hne. induction m as [|[k0 v0] m IH]; cbn.
  - destruct (decide (k = k')); [congruence | reflexivity].
  - destruct (decide (k0 = k)) as [->|Hne0]; cbn.
    + destruct (decide (k = k')); [congruence | reflexivity].
    + destruct (decide (k0 = k')); [reflexivity | exact IH].
Qed.

Lemma map_get_None (m : jsmap K V) k :
  map_get m k = None <-> ~ In k (map fst m).
Proof.
  induction m as [|[k0 v0] m IH]; cbn; [tauto|].
  destruct (decide (k0 = k)) as [->|Hne].
  - split; [discriminate | intros Hn; destruct Hn; left; reflexivity].
  - rewrite IH. tauto.
Qed.

Lemma map_set_keys (m : jsmap K V) k v :
  map fst (map_set m k v)
  = if map_has m k then map fst m else map fst m ++ [k].
Proof.
  unfold map_has. induction m as [|[k0 v0] m IH]; cbn; [reflexivity|].
  destruct (decide (k0 = k)) as [->|Hne]; cbn; [reflexivity|].
  rewrite IH. destruct (map_get m k); reflexivity.
Qed.

Lemma map_get_In (m : jsmap K V) k v :
  List.NoDup (map fst m) -> In (k, v) m -> map_get m k = Some v.
Proof.
  induction m as [|[k0 v0] m IH]; cbn; intros Hnd Hin; [destruct Hin|].
  inversion Hnd as [|? ? Hnotin Hnd']; subst.
  destruct Hin as [[= -> ->]|Hin].
  - destruct (decide (k = k)); [reflexivity | congruence].
  - destruct (decide (k0 = k)) as [->|Hne]; [|exact (IH Hnd' Hin)].
    destruct Hnotin. change k with (fst (k, v)). apply in_map, Hin.
Qed.

End MapFacts.

(** The group of a key: the elements with that key, in the order of the
    array, or nothing when there is none. *)
Lemma groupBy_invariant {T U : Type} `{EqDecision U} (f : T -> U) (ary : list T) :
  List.NoDup (map fst (groupBy ary f))
  /\ forall k, map_get (groupBy ary f) k
               = match List.filter (fun x => bool_decide (f x = k)) ary with
                 | [] => None
                 | g => Some g
                 end.
Proof.
  unfold groupBy. induction ary as [|x l IH] using rev_ind.
  - split; [constructor | reflexivity].
  - rewrite fold_left_app. cbn [fold_left].
    destruct IH as [Hnd Hget].
    match type of Hnd with List.NoDup (map fst ?t) => set (m := t) in * end.
    assert (Hfx : forall k, List.filter (fun y => bool_decide (f y = k)) (l ++ [x])
                  = List.filter (fun y => bool_decide (f y = k)) l
                    ++ (if bool_decide (f x = k) then [x] else [])).
    { intros k. rewrite List.filter_app. cbn. destruct (bool_decide (f x = k)); reflexivity. }
    unfold map_has. pose proof (Hget (f x)) as Hk.
    destruct (map_get m (f x)) as [g|] eqn:Eg.
    + assert (Hg : List.filter (fun y => bool_decide (f y = f x)) l = g).
      { destruct (List.filter _ l); [discriminate | congruence]. }
      split.
      * rewrite map_set_keys. unfold map_has. rewrite Eg. exact Hnd.
      * intros k. rewrite Hfx. destruct (decide (f x = k)) as [<-|Hne].
        -- rewrite map_get_set_eq, Hg, bool_decide_true by reflexivity.
           destruct g; reflexivity.
        -- rewrite map_get_set_ne by exact Hne.
           rewrite bool_decide_false by exact Hne. rewrite app_nil_r. apply Hget.
    + assert (Hg : List.filter (fun y => bool_decide (f y = f x)) l = []).
      { destruct (List.filter _ l); [reflexivity | discriminate]. }
      split.
      * rewrite map_set_keys. unfold map_has. rewrite Eg.
        apply NoDup_ListNoDup, NoDup_app. repeat split.
        -- apply NoDup_ListNoDup, Hnd.
        -- intros k Hin Hin'. apply list_elem_of_singleton in Hin'. subst k.
           apply map_get_None in Eg. apply Eg. apply list_elem_of_In, Hin.
        -- apply NoDup_singleton.
      * intros k. rewrite Hfx. destruct (decide (f x = k)) as [<-|Hne].
        -- rewrite map_get_set_eq, Hg, bool_decide_true by reflexivity. reflexivity.
        -- rewrite map_get_set_ne by exact Hne.
           rewrite bool_decide_false by exact Hne. rewrite app_nil_r. apply Hget.
Qed.

(** X12.  [groupBy] puts every element of the array into the group of its
    key and nowhere else: the keys of the result are pairwise different, the
    group stored under a key holds exactly the elements with that key, in
    the order of the array, and no stored group is empty. *)
Theorem groupBy_groups {T U : Type} `{EqDecision U} (ary : list T) (mapFunc : T -> U) :
  List.NoDup (map fst (groupBy ary mapFunc))
  /\ (forall k, map_get (groupBy ary mapFunc) k
                = match List.filter (fun x => bool_decide (mapFunc x = k)) ary with
                  | [] => None
                  | g => Some g
                  end)
  /\ (forall k g, In (k, g) (groupBy ary mapFunc) ->
        g <> [] /\ g = List.filter (fun x => bool_decide (mapFunc x = k)) ary).
Proof.
  destruct (groupBy_invariant mapFunc ary) as [Hnd Hget].
  split; [exact Hnd|]. split; [exact Hget|].
  intros k g Hin. pose proof (map_get_In _ k g Hnd Hin) as Hk.
  rewrite Hget in Hk.
  destruct (List.filter _ ary) as [|y ys]; [discriminate|].
  injection Hk as <-. split; [discriminate | reflexivity].
Qed.


(** *** Paths and uris *)

(** X13.  [uriToPath] undoes [pathToUri] for every path.  The other way
    round, [pathToUri] restores a uri exactly when the uri starts with
    "file://": [uriToPath] drops the first seven code units whatever they
    are. *)
Theorem uriToPath_pathToUri (p u scheme : text) :
  uriToPath (pathToUri p) = p
  /\ (pathToUri (uriToPath u) = u <-> firstn 7 u = ofString "file://")
  /\ (length scheme = 7%nat -> uriToPath (scheme ++ p) = p).
Proof.
  unfold uriToPath, pathToUri. split; [reflexivity|]. split.
  - split; intros H.
    + rewrite <- H. reflexivity.
    + transitivity (firstn 7 u ++ skipn 7 u); [rewrite H; reflexivity | apply firstn_skipn].
  - intros Hlen. rewrite skipn_app, Hlen, Nat.sub_diag.
    rewrite skipn_all2 by lia. reflexivity.
Qed.

(** X14.  [docUriToRelativePath] undoes [relativePathToDocUri] of the same
    workspace.  It throws exactly when the uri of the workspace is not a
    prefix of the uri; the code unit after the prefix is dropped without
    being looked at, so that a uri in a directory whose name only starts
    with the name of the workspace directory is accepted as well. *)
Theorem docUriToRelativePath_inverse (wsUri relPath uri rest : text) (c : ascii) :
  docUriToRelativePath wsUri (relativePathToDocUri wsUri relPath) = Some relPath
  /\ (docUriToRelativePath wsUri uri = None <-> forall tail, uri <> wsUri ++ tail)
  /\ docUriToRelativePath wsUri (wsUri ++ c :: rest) = Some rest.
Proof.
  assert (Hpre : forall tail, firstn (length wsUri) (wsUri ++ tail) = wsUri).
  { intros tail. rewrite firstn_app, Nat.sub_diag, firstn_all. cbn. apply app_nil_r. }
  assert (Hdrop : forall ch tail, skipn (length wsUri + 1) (wsUri ++ ch :: tail) = tail).
  { intros ch tail. rewrite skipn_app, skipn_all2 by lia.
    replace (length wsUri + 1 - length wsUri)%nat with 1%nat by lia. reflexivity. }
  unfold docUriToRelativePath, relativePathToDocUri. split; [|split].
  - rewrite Hpre, bool_decide_false by (intros H; apply H; reflexivity).
    rewrite Hdrop. reflexivity.
  - split.
    + intros H tail ->. rewrite Hpre in H.
      rewrite bool_decide_false in H by (intros Hn; apply Hn; reflexivity). discriminate.
    + intros H. rewrite bool_decide_true; [reflexivity|].
      intros Heq. apply (H (skipn (length wsUri) uri)).
      symmetry. transitivity (firstn (length wsUri) uri ++ skipn (length wsUri) uri);
        [rewrite <- Heq; reflexivity | apply firstn_skipn].
  - rewrite Hpre, bool_decide_false by (intros H; apply H; reflexivity).
    rewrite Hdrop. reflexivity.
Qed.

(** *** Leading slashes *)

(** X15.  [ensureLeadingSlash] gives a name that starts with a slash and
    leaves such a name alone; [removeLeadingSlash] takes one slash off, so
    that it undoes [ensureLeadingSlash] on a name without a leading slash,
    and its result still starts with a slash exactly when the name started
    with two.  [adjustSymbolNewName] gives the new name of a media file path
    a leading slash when the renamed node has one, takes one off when the
    node has none, and returns the new name of any other symbol as it
    is. *)
Theorem leading_slash_adjustment (x nodeText newName targetType : text) :
  starts_with_slash (ensureLeadingSlash x) = true
  /\ ensureLeadingSlash (ensureLeadingSlash x) = ensureLeadingSlash x
  /\ (starts_with_slash x = false -> removeLeadingSlash (ensureLeadingSlash x) = x)
  /\ (starts_with_slash (removeLeadingSlash x) = true
      <-> exists rest, x = "/"%char :: "/"%char :: rest)
  /\ adjustSymbolNewName (ofString "media-file-path") nodeText newName
     = (if starts_with_slash nodeText then ensureLeadingSlash newName
        else removeLeadingSlash newName)
  /\ (targetType <> ofString "media-file-path" ->
      adjustSymbolNewName targetType nodeText newName = newName).
Proof.
  assert (Hs : forall y, starts_with_slash y = true <-> exists r, y = "/"%char :: r).
  { intros [|ch y]; cbn; split.
    - discriminate.
    - intros [r Hr]. discriminate.
    - intros H. apply Ascii.eqb_eq in H. subst. eexists. reflexivity.
    - intros [r [= -> _]]. reflexivity. }
  repeat split.
  - unfold ensureLeadingSlash. destruct (starts_with_slash x) eqn:E; [exact E | reflexivity].
  - unfold ensureLeadingSlash. destruct (starts_with_slash x) eqn:E; [rewrite E|]; reflexivity.
  - intros E. unfold ensureLeadingSlash. rewrite E. reflexivity.
  - unfold removeLeadingSlash. destruct (starts_with_slash x) eqn:E.
    + apply Hs in E. destruct E as [r ->]. cbn [skipn]. intros H.
      change (skipn 0 r) with r in H.
      apply Hs in H. destruct H as [r' ->]. eexists. reflexivity.
    + intros H. congruence.
  - intros [rest ->]. reflexivity.
  - unfold adjustSymbolNewName. rewrite bool_decide_true by reflexivity.
    destruct (starts_with_slash nodeText); reflexivity.
  - intros Hne. unfold adjustSymbolNewName. rewrite bool_decide_false by exact Hne.
    reflexivity.
Qed.

(** *** Time-cached values *)

(** X16.  A [TimeCachedValue] computes when it is stale and then answers
    from its store until more than [lifespan] has passed since the value was
    stamped: within that time the getter returns what was computed then and
    changes nothing, whatever the compute function would return now; an
    undefined result is kept in the same way, so that the getter goes on
    throwing without computing again.  After that time it computes
    again. *)
Theorem value_cached_for_lifespan {T : Type}
    (c : TimeCachedValue T) (now stamp : Z) (computed : option T) :
  isStale now c = true ->
  let c1 := fst (value now stamp computed c) in
  snd (value now stamp computed c) = computed
  /\ (forall now' stamp' computed',
        now' - stamp <= lifespan c -> value now' stamp' computed' c1 = (c1, computed))
  /\ (forall now' stamp' computed',
        lifespan c < now' - stamp -> snd (value now' stamp' computed' c1) = computed').
Proof.
  intros Hstale c1. unfold c1, value. rewrite Hstale. cbn [fst snd storedValue].
  split; [reflexivity|]. unfold isStale. cbn [timeLastComputed lifespan].
  split; intros now' stamp' computed' H.
  - destruct (Z.gtb_spec (now' - stamp) (lifespan c)); [lia|]. reflexivity.
  - destruct (Z.gtb_spec (now' - stamp) (lifespan c)); [|lia]. reflexivity.
Qed.

Lemma value_cached_for_lifespan_witness :
  let c := mkTimeCachedValue (@None nat) None 10000 in
  let c1 := fst (value 5 6 (Some 1%nat) c) in
  snd (value 5 6 (Some 1%nat) c) = Some 1%nat
  /\ value 10006 10007 (Some 2%nat) c1 = (c1, Some 1%nat)
  /\ snd (value 10007 10008 (Some 2%nat) c1) = Some 2%nat.
Proof.
  destruct (value_cached_for_lifespan (mkTimeCachedValue (@None nat) None 10000) 5 6
              (Some 1%nat) eq_refl) as (H1 & H2 & H3).
  split; [exact H1|]. split.
  - apply H2. cbn. lia.
  - apply H3. cbn. lia.
Defined.


End UtilTheory.

(* ===================================================================== *)
(** ** More on the scheduler and the handlers                             *)
(* ===================================================================== *)

Module SchedulerTheory.

Import Server ServerTheory.

Local Open Scope nat_scope.

(** *** The loop over the dependencies *)

Lemma visit_failed (rec : Task -> State -> option (nat * State)) deps :
  fold_left (visit rec) deps None = None.
Proof. induction deps as [|d deps IH]; [reflexivity | exact IH]. Qed.

Lemma visit_skips (rec : Task -> State -> option (nat * State)) deps s :
  Forall (fun d => lastCompleted d <> None \/ jobs_by_taskId s (task_id d) <> None) deps ->
  fold_left (visit rec) deps (Some s) = Some s.
Proof.
  induction deps as [|d deps IH]; intros H; [reflexivity|].
  inversion H as [|? ? Hd Hrest]; subst. cbn [fold_left].
  replace (visit rec (Some s) d) with (Some s); [exact (IH Hrest)|].
  unfold visit. destruct (lastCompleted d), (jobs_by_taskId s (task_id d));
    try reflexivity. destruct Hd as [Hd|Hd]; destruct Hd; reflexivity.
Qed.

(** X17.  A task that lists itself among its dependencies cannot be
    submitted: when the task has not run and has no job, and the stored
    dependencies before it in the loop are completed or scheduled,
    [submitTask] calls itself with the same task in the same state, and no
    depth of calls lets it return. *)
Theorem submitTask_self_dependency (s : State) (t : Task) (before after : list Task) :
  dependencies s t = before ++ t :: after ->
  Forall (fun d => lastCompleted d <> None \/ jobs_by_taskId s (task_id d) <> None) before ->
  lastCompleted t = None -> jobs_by_taskId s (task_id t) = None ->
  forall fuel, submitTask fuel t s = None.
Proof.
  intros Hdeps Hbefore Hlc Hjob fuel.
  induction fuel as [|fuel IH]; [reflexivity|].
  rewrite submitTask_S, Hjob, Hdeps, fold_left_app.
  rewrite (visit_skips _ before s Hbefore). cbn [fold_left].
  unfold visit at 2. rewrite Hlc, Hjob, IH. rewrite visit_failed. reflexivity.
Qed.

Lemma submitTask_self_dependency_witness :
  let t := mkTask 1 audit (Some 1) None [1] None in
  let s := mkState [mkDocument 1 "file:///n.rst" 1 editing] [mkWorkspace 1 "file:///n.rst"]
             [t] [] 1 1 1 0 [] ∅ [] [] in
  submitTask 5 t s = None /\ submitTask_id 1000 1 s = None.
Proof.
  pose proof (submitTask_self_dependency
                (mkState [mkDocument 1 "file:///n.rst" 1 editing]
                   [mkWorkspace 1 "file:///n.rst"]
                   [mkTask 1 audit (Some 1) None [1] None] [] 1 1 1 0 [] ∅ [] [])
                (mkTask 1 audit (Some 1) None [1] None) [] []
                eq_refl (List.Forall_nil _) eq_refl eq_refl) as H.
  split; [exact (H 5) | exact (H 1000)].
Defined.

(** *** Scheduling one job *)

Lemma find_In {A} (f : A -> bool) l x : In x l -> f x = true -> List.find f l <> None.
Proof.
  intros Hin Hf H. rewrite find_none_iff in H. rewrite (H x Hin) in Hf. discriminate.
Qed.

(** From a drained queue, [schedule] creates the job with the next id and
    starts its work at once. *)
Lemma schedule_runs task s :
  wf s -> cancelled_past s -> In task (tasks s) ->
  jobs_by_taskId s (task_id task) = None ->
  exists s',
    schedule task s = Some (S (jobIdCounter s), s')
    /\ jobs s' = jobs s ++ [mkJob (S (jobIdCounter s)) (task_id task)]
    /\ trace s' = trace s ++ [ExecStart (S (jobIdCounter s)) (task_id task)]
    /\ suspended s' = suspended s ++ [(S (jobIdCounter s), task_id task)]
    /\ tasks s' = tasks s /\ cancelled s' = cancelled s /\ priorityQueue s' = [].
Proof.
  intros Hwf Hpast Hin Hjob.
  assert (Hins : exists s2,
            jobs_insert (mkJob (S (jobIdCounter s)) (task_id task))
              (set_jobIdCounter (S (jobIdCounter s)) s) = Some s2).
  { unfold jobs_insert. fields.
    destruct (existsb _ (jobs s)) eqn:E; [|eexists; reflexivity].
    apply existsb_exists in E. destruct E as (j & Hj & Hor).
    apply Bool.orb_true_iff in Hor. destruct Hor as [Hid|Htid].
    - apply Nat.eqb_eq in Hid. cbn in Hid.
      pose proof (wf_job_ids _ Hwf) as W. rewrite List.Forall_forall in W.
      specialize (W j Hj). cbv beta in W. lia.
    - unfold jobs_by_taskId in Hjob. rewrite find_none_iff in Hjob.
      specialize (Hjob j Hj). cbn in Htid. congruence. }
  destruct Hins as [s2 Hins].
  destruct (schedule task s) as [[h s']|] eqn:E.
  2:{ unfold schedule in E. rewrite Hins in E. discriminate E. }
  destruct (schedule_cases task s h s' Hwf E)
    as (-> & _ & _ & _ & Ht & _ & _ & _ & _ & Hq & Hj & Hcases).
  exists s'. split; [reflexivity|]. split; [exact Hj|].
  destruct Hcases as [(Hc & _)|(Hn & Hcan & [(Hnone & _)|(_ & Hsu & Htr)])].
  - apply Hpast in Hc. lia.
  - exfalso. revert Hnone. apply find_In with (x := task); [exact Hin | apply Nat.eqb_refl].
  - repeat split; assumption.
Qed.

(** X18.  A dependency that has completed is never run again on behalf of
    its dependent.  When every stored dependency of a stored task has
    completed before (however long ago) or has a job, [submitTask] of the
    task returns, with the fuel of one call, the handle of a new job for the
    task alone: one job is added, the work of the task is entered, and
    nothing else is scheduled or started. *)
Theorem submitTask_skips_completed_dependencies (s : State) (task : Task) (fuel : nat) :
  wf s -> cancelled_past s -> In task (tasks s) ->
  jobs_by_taskId s (task_id task) = None ->
  Forall (fun d => lastCompleted d <> None \/ jobs_by_taskId s (task_id d) <> None)
    (dependencies s task) ->
  exists s',
    submitTask (S fuel) task s = Some (S (jobIdCounter s), s')
    /\ jobs s' = jobs s ++ [mkJob (S (jobIdCounter s)) (task_id task)]
    /\ trace s' = trace s ++ [ExecStart (S (jobIdCounter s)) (task_id task)]
    /\ tasks s' = tasks s.
Proof.
  intros Hwf Hpast Hin Hjob Hdeps.
  destruct (schedule_runs task s Hwf Hpast Hin Hjob) as (s' & Hs & Hj & Htr & _ & Ht & _).
  exists s'. rewrite submitTask_S, Hjob, (visit_skips _ _ s Hdeps).
  repeat split; assumption.
Qed.

Lemma submitTask_skips_completed_dependencies_witness :
  let A := mkTask 1 audit (Some 1) None [] (Some 7) in
  let B := mkTask 2 audit (Some 2) None [1] None in
  let s := mkState [mkDocument 1 "file:///w/a.rst" 1 indexing;
                    mkDocument 2 "file:///w/b.rst" 1 editing]
             [mkWorkspace 1 "file:///w"] [A; B] [] 1 2 2 1 [] ∅ [] [] in
  exists s', submitTask 1 B s = Some (2, s')
    /\ jobs s' = [mkJob 2 2] /\ trace s' = [ExecStart 2 2].
Proof.
  destruct (submitTask_skips_completed_dependencies
              (mkState [mkDocument 1 "file:///w/a.rst" 1 indexing;
                        mkDocument 2 "file:///w/b.rst" 1 editing]
                 [mkWorkspace 1 "file:///w"]
                 [mkTask 1 audit (Some 1) None [] (Some 7);
                  mkTask 2 audit (Some 2) None [1] None] [] 1 2 2 1 [] ∅ [] [])
              (mkTask 2 audit (Some 2) None [1] None) 0)
    as (s' & H1 & H2 & H3 & _).
  - constructor; cbn; repeat constructor; lia.
  - intros id Hid. cbn in Hid. apply elem_of_empty in Hid. destruct Hid.
  - right. left. reflexivity.
  - reflexivity.
  - cbn. constructor; [left; discriminate | constructor].
  - exists s'. split; [exact H1|]. split; [exact H2 | exact H3].
Defined.


(** *** Marks and invariants over runs *)

(** X19.  A mark on the id of a job that has already been created is never
    cleared: [processJob] clears a mark only at the pop of that id, and an
    id is popped once, in the call that creates the job.  So [cancelJob] on
    a stored job (as [dropDocument] calls it) leaves the id in the set of
    cancelled ids through every later action. *)
Theorem cancel_mark_after_pop_stays (s : State) (id : nat) (acts : list action) (s' : State) :
  wf s -> id <= jobIdCounter s -> run acts (cancelJob id s) = Some s' ->
  id ∈ cancelled s'.
Proof.
  intros Hwf Hid Hrun.
  assert (Hgen : forall acts s1 s2, wf s1 -> id ∈ cancelled s1 -> id <= jobIdCounter s1 ->
                   run acts s1 = Some s2 -> id ∈ cancelled s2).
  { clear. induction acts as [|a acts IH]; intros s1 s2 Hwf Hc Hid Hrun; cbn in Hrun.
    - injection Hrun as <-. exact Hc.
    - destruct (step a s1) as [s1'|] eqn:E; [|discriminate].
      destruct (step_wf_effect a s1 s1' Hwf E) as (Hwf' & He & _).
      apply (IH s1' s2 Hwf'); [|pose proof (e_counter _ _ He); lia | exact Hrun].
      apply (e_cancelled_kept _ _ He); [exact Hc | left; exact Hid]. }
  apply (Hgen acts (cancelJob id s) s').
  - apply cancelJob_wf, Hwf.
  - unfold cancelJob. fields. set_solver.
  - unfold cancelJob. fields. exact Hid.
  - exact Hrun.
Qed.

Lemma cancel_mark_after_pop_stays_witness :
  exists s1 s', submitTask 1 taskA two_tasks = Some (1, s1)
    /\ run [Resume 1 9; SubmitTask 1 1; Resume 2 12] (cancelJob 1 s1) = Some s'
    /\ 1 ∈ cancelled s' /\ jobs s' = [].
Proof.
  destruct (submitTask 1 taskA two_tasks) as [[h s1]|] eqn:E1;
    [|vm_compute in E1; discriminate E1].
  destruct (run [Resume 1 9; SubmitTask 1 1; Resume 2 12] (cancelJob 1 s1)) as [s'|] eqn:E2;
    [|vm_compute in E1; injection E1 as <- <-; vm_compute in E2; discriminate E2].
  assert (Hwf : wf s1 /\ h = 1 /\ 1 <= jobIdCounter s1).
  { vm_compute in E1. injection E1 as <- <-. split; [|split; [reflexivity | cbn; lia]].
    constructor; cbn; repeat constructor; cbn; try lia; intros Hin; cbn in Hin; tauto. }
  destruct Hwf as (Hwf & -> & Hid).
  pose proof (cancel_mark_after_pop_stays s1 1 _ s' Hwf Hid E2) as Hmark.
  exists s1, s'. split; [reflexivity|]. split; [exact E2|]. split; [exact Hmark|].
  vm_compute in E1. injection E1 as <-. vm_compute in E2. injection E2 as <-. reflexivity.
Defined.

(** X20.  Between two actions no job waits in the queue: every push is
    popped inside the same [submitTask].  In every state reached from one in
    which nothing was scheduled, the queue is empty, the stored jobs have
    pairwise different ids, all handed out by the counter, and no job has
    two activations waiting on its work. *)
Theorem reachable_state_is_drained (s0 : State) (acts : list action) (s : State) :
  idle s0 -> run acts s0 = Some s ->
  priorityQueue s = []
  /\ List.NoDup (map job_id (jobs s))
  /\ Forall (fun j => 1 <= job_id j <= jobIdCounter s) (jobs s)
  /\ List.NoDup (map fst (suspended s)).
Proof.
  intros Hidle Hrun.
  assert (Hpos : forall acts s1 s2,
            wf s1 -> Forall (fun j => 1 <= job_id j) (jobs s1) ->
            run acts s1 = Some s2 -> Forall (fun j => 1 <= job_id j) (jobs s2)).
  { clear. induction acts as [|a acts IH]; intros s1 s2 Hwf Hp Hrun; cbn in Hrun.
    - injection Hrun as <-. exact Hp.
    - destruct (step a s1) as [s1'|] eqn:E; [|discriminate].
      destruct (step_wf_effect a s1 s1' Hwf E) as (Hwf' & He & _).
      apply (IH s1' s2 Hwf'); [|exact Hrun].
      rewrite List.Forall_forall in *. intros j Hj.
      destruct (e_jobs_new _ _ He j Hj) as [Hold|Hnew]; [apply Hp, Hold | lia]. }
  pose proof (idle_wf _ Hidle) as Hwf0.
  pose proof (run_wf acts s0 s Hwf0 Hrun) as Hwf.
  split; [apply (wf_queue _ Hwf)|]. split; [apply (wf_job_id_unique _ Hwf)|].
  split; [|apply (wf_suspended_unique _ Hwf)].
  assert (H1 : Forall (fun j => 1 <= job_id j) (jobs s)).
  { apply (Hpos acts s0 s Hwf0); [|exact Hrun].
    destruct Hidle as (-> & _). constructor. }
  pose proof (wf_job_ids _ Hwf) as H2.
  rewrite List.Forall_forall in *. intros j Hj. split; [apply H1, Hj | apply H2, Hj].
Qed.

Lemma reachable_state_is_drained_witness :
  exists s, run [SubmitTask 2 2] two_tasks = Some s
    /\ priorityQueue s = [] /\ map job_id (jobs s) = [1; 2].
Proof.
  destruct (run [SubmitTask 2 2] two_tasks) as [s|] eqn:E;
    [|vm_compute in E; discriminate E].
  destruct (reachable_state_is_drained two_tasks [SubmitTask 2 2] s) as (Hq & _).
  - repeat split; repeat constructor; cbn; lia.
  - exact E.
  - exists s. split; [reflexivity|]. split; [exact Hq|].
    vm_compute in E. injection E as <-. reflexivity.
Defined.

(** *** Closing the document of a single-file workspace *)

(** X21.  Closing a document whose workspace is single-file drops the
    workspace stored under the uri of the document: that workspace, its
    documents, their tasks and the jobs of those tasks are gone from the
    store afterwards.  When no workspace is stored under that uri the
    handler throws. *)
Theorem close_single_file_cascade
    (uri : string) (s : State) (doc : Document) (ws : Workspace) :
  documents_by_uri s uri = Some doc ->
  workspaces_by_id s (doc_workspaceId doc) = Some ws ->
  ws_type ws = single_file ->
  (workspaces_by_uri s uri = None -> onDidCloseTextDocument uri s = None)
  /\ (forall w, wf s -> workspaces_by_uri s uri = Some w ->
        exists s', onDidCloseTextDocument uri s = Some s'
          /\ workspaces_by_id s' (ws_id w) = None
          /\ ws_documents s' w = []
          /\ (forall t d, In t (tasks s') -> In d (ws_documents s w) ->
                documentId t <> Some (doc_id d))
          /\ (forall j t d, In j (jobs s') -> In d (ws_documents s w) ->
                In t (tasks s) -> documentId t = Some (doc_id d) -> taskId j <> task_id t)).
Proof.
  intros Hd Hws Hty. split.
  - intros Hnone. unfold onDidCloseTextDocument, dropWorkspace_uri.
    rewrite Hd, Hws, Hty, Hnone. reflexivity.
  - intros w Hwf Hw. exists (dropWorkspace w s).
    split; [exact (close_single_file uri s doc ws w Hd Hws Hty Hw)|].
    exact (dropWorkspace_cascade w s Hwf).
Qed.

Lemma close_single_file_cascade_witness :
  exists s1 s', run [AddWorkspace "file:///notes.rst" []; Audit 1 "file:///notes.rst"] empty
                = Some s1
    /\ onDidCloseTextDocument "file:///notes.rst" s1 = Some s'
    /\ workspaces s' = [] /\ documents s' = [] /\ tasks s' = [] /\ jobs s' = [].
Proof.
  destruct (run [AddWorkspace "file:///notes.rst" []; Audit 1 "file:///notes.rst"] empty)
    as [s1|] eqn:E; [|vm_compute in E; discriminate E].
  assert (Hw : wf s1).
  { eapply run_wf; [|exact E]. apply idle_wf. repeat split; constructor. }
  destruct (close_single_file_cascade "file:///notes.rst" s1
              (mkDocument 1 "file:///notes.rst" 1 editing)
              (mkWorkspace 1 "file:///notes.rst")) as (_ & H).
  - vm_compute in E. injection E as <-. reflexivity.
  - vm_compute in E. injection E as <-. reflexivity.
  - reflexivity.
  - destruct (H (mkWorkspace 1 "file:///notes.rst") Hw) as (s' & Hc & _).
    + vm_compute in E. injection E as <-. reflexivity.
    + exists s1, s'. split; [reflexivity|]. split; [exact Hc|].
      vm_compute in E. injection E as <-. vm_compute in Hc. injection Hc as <-.
      repeat split; reflexivity.
Defined.


(** *** The comparator of the queue *)

(** X22.  [jobCompare] orders two stored, uncancelled jobs consistently
    unless their tasks depend on each other: exchanging the arguments
    negates the result.  On cancelled ids it is not the comparison of an
    order: an id that is cancelled compares greater than any other, so two
    cancelled ids each compare greater than the other; and it throws when
    neither id is cancelled and one of them has no stored job. *)
Theorem jobCompare_antisymmetry (s : State) (a b : nat) :
  (a ∈ cancelled s -> b ∈ cancelled s ->
     jobCompare s a b = Some 1%Z /\ jobCompare s b a = Some 1%Z)
  /\ (a ∉ cancelled s -> b ∉ cancelled s ->
      jobs_by_id s a = None \/ jobs_by_id s b = None ->
      jobCompare s a b = None /\ jobCompare s b a = None)
  /\ (forall ja jb ta tb,
        a ∉ cancelled s -> b ∉ cancelled s ->
        jobs_by_id s a = Some ja -> jobs_by_id s b = Some jb ->
        tasks_by_id s (taskId ja) = Some ta -> tasks_by_id s (taskId jb) = Some tb ->
        mem (task_id tb) (dependencyIds ta) && mem (task_id ta) (dependencyIds tb) = false ->
        exists c, jobCompare s a b = Some c /\ jobCompare s b a = Some (- c)%Z).
Proof.
  unfold jobCompare. split; [|split].
  - intros Ha Hb. rewrite !bool_decide_true by assumption. split; reflexivity.
  - intros Ha Hb Hnone. rewrite !bool_decide_false by assumption.
    destruct (jobs_by_id s a), (jobs_by_id s b);
      try (split; reflexivity); destruct Hnone; discriminate.
  - intros ja jb ta tb Ha Hb Hja Hjb Hta Htb Hmut.
    rewrite !bool_decide_false by assumption. rewrite Hja, Hjb, Hta, Htb.
    destruct (mem (task_id tb) (dependencyIds ta)), (mem (task_id ta) (dependencyIds tb));
      try discriminate Hmut; eexists; split; reflexivity.
Qed.

(** *** Adding a workspace *)

Lemma fold_addDocument_documents wsUri wsId paths : forall s s',
  fold_left (addDocument wsUri wsId) paths (Some s) = Some s' ->
  exists newDocs,
    documents s' = documents s ++ newDocs
    /\ map doc_uri newDocs = paths
    /\ Forall (fun d => doc_workspaceId d = wsId
                        /\ doc_state d = (if String.eqb wsUri (doc_uri d)
                                          then editing else indexing)
                        /\ documentIdCounter s < doc_id d <= documentIdCounter s') newDocs
    /\ documentIdCounter s <= documentIdCounter s'
    /\ workspaces s' = workspaces s /\ tasks s' = tasks s /\ jobs s' = jobs s
    /\ taskIdCounter s' = taskIdCounter s /\ workspaceIdCounter s' = workspaceIdCounter s.
Proof.
  induction paths as [|p paths IH]; intros s s' H; cbn [fold_left] in H.
  - injection H as <-. exists []. rewrite app_nil_r. repeat split; constructor.
  - unfold addDocument at 2 in H. fields.
    destruct (documents_by_uri (set_documentIdCounter (S (documentIdCounter s)) s) p) eqn:E.
    { clear -H. exfalso. induction paths as [|q paths IHp]; [discriminate|]. exact (IHp H). }
    destruct (IH _ _ H) as (nd & Hd & Hu & Hf & Hc & Hw & Ht & Hj & Htc & Hwc).
    fields.
    exists (mkDocument (S (documentIdCounter s)) p wsId
              (if String.eqb wsUri p then editing else indexing) :: nd).
    split; [rewrite Hd, <- app_assoc; reflexivity|].
    split; [cbn [map doc_uri]; rewrite Hu; reflexivity|].
    split; [|repeat split; try assumption; lia].
    constructor.
    + cbn [doc_workspaceId doc_state doc_uri doc_id]. repeat split; lia.
    + eapply List.Forall_impl; [|exact Hf]. cbv beta. intros d (H1 & H2 & H3).
      repeat split; try assumption; lia.
Qed.

Lemma fold_addTask_tasks ids : forall s,
  let s' := fold_left addTask ids s in
  exists newTasks,
    tasks s' = tasks s ++ newTasks
    /\ map (fun t => (operation t, documentId t, dependencyIds t, lastCompleted t)) newTasks
       = map (fun id => (audit, Some id, [], None)) ids
    /\ documents s' = documents s /\ workspaces s' = workspaces s /\ jobs s' = jobs s.
Proof.
  induction ids as [|id ids IH]; intros s; cbn [fold_left].
  - exists []. rewrite app_nil_r. repeat split.
  - destruct (IH (addTask s id)) as (nt & Ht & Hm & Hd & Hw & Hj).
    change (tasks (addTask s id))
      with (tasks s ++ [mkTask (S (taskIdCounter s)) audit (Some id) None [] None]) in Ht.
    change (documents (addTask s id)) with (documents s) in Hd.
    change (workspaces (addTask s id)) with (workspaces s) in Hw.
    change (jobs (addTask s id)) with (jobs s) in Hj.
    exists (mkTask (S (taskIdCounter s)) audit (Some id) None [] None :: nt).
    split; [rewrite Ht, <- app_assoc; reflexivity|].
    split; [cbn [map operation documentId dependencyIds lastCompleted]; rewrite Hm; reflexivity|].
    repeat split; assumption.
Qed.

(** X23.  [addWorkspace] stores the workspace under the next id, one
    document for its own uri when the uri ends in ".rst" and one for each
    uri found on disk otherwise, and one audit task per new document, with
    no dependencies and not yet completed; a document is in state editing
    exactly when its uri is the uri of the workspace; no job is created.  A
    uri that is already the uri of a stored workspace makes the call
    throw. *)
Theorem addWorkspace_creates (uri : string) (docUris : list string) (s : State) :
  (workspaces_by_uri s uri <> None -> addWorkspace uri docUris s = None)
  /\ (forall s', addWorkspace uri docUris s = Some s' ->
        workspaces s' = workspaces s ++ [mkWorkspace (S (workspaceIdCounter s)) uri]
        /\ jobs s' = jobs s
        /\ exists newDocs newTasks,
             documents s' = documents s ++ newDocs
             /\ tasks s' = tasks s ++ newTasks
             /\ map doc_uri newDocs = (if ends_with_rst uri then [uri] else docUris)
             /\ Forall (fun d => doc_workspaceId d = S (workspaceIdCounter s)
                                 /\ doc_state d = (if String.eqb uri (doc_uri d)
                                                   then editing else indexing)) newDocs
             /\ map (fun t => (operation t, documentId t, dependencyIds t, lastCompleted t))
                  newTasks
                = map (fun d => (audit, Some (doc_id d), [], None)) newDocs).
Proof.
  unfold addWorkspace. cbv zeta. cbn [ws_id ws_uri].
  assert (Hsame : workspaces_by_uri (set_workspaceIdCounter (S (workspaceIdCounter s)) s) uri
                  = workspaces_by_uri s uri) by reflexivity.
  rewrite Hsame. split.
  - intros Hw. destruct (workspaces_by_uri s uri); [reflexivity | congruence].
  - intros s' H.
    destruct (workspaces_by_uri s uri); [discriminate|].
    unfold ws_type in H. cbn [ws_uri ws_id] in H.
    set (paths := if ends_with_rst uri then [uri] else docUris).
    replace (match (if ends_with_rst uri then single_file else multi_file) with
             | single_file => [uri] | multi_file => docUris end) with paths in H
      by (unfold paths; destruct (ends_with_rst uri); reflexivity).
    destruct (fold_left _ paths _) as [s3|] eqn:E; [|discriminate].
    injection H as <-.
    destruct (fold_addDocument_documents _ _ _ _ _ E)
      as (nd & Hd & Hu & Hf & _ & Hw & Ht & Hj & _ & _). fields.
    rewrite Hd, skipn_app, Nat.sub_diag, skipn_all. cbn [app].
    change (skipn 0 nd) with nd.
    destruct (fold_addTask_tasks (map doc_id nd) s3) as (nt & Ht' & Hm & Hd' & Hw' & Hj').
    split; [rewrite Hw', Hw; reflexivity|]. split; [rewrite Hj', Hj; reflexivity|].
    exists nd, nt. split; [rewrite Hd', Hd; reflexivity|].
    split; [rewrite Ht', Ht; reflexivity|]. split; [exact Hu|]. split.
    + eapply List.Forall_impl; [|exact Hf]. cbv beta. intros d (H1 & H2 & _). split; assumption.
    + rewrite Hm, map_map. reflexivity.
Qed.


End SchedulerTheory.

(* ===================================================================== *)
(** ** More on the caches: what a read returns                            *)
(* ===================================================================== *)

Module CacheReads.

Import TextDocument Cache CacheTheory.

Local Open Scope nat_scope.

(** *** The memoiser *)

(** X24.  A memoised getter computes once per cache entry: the call after a
    first one returns the value of the first and leaves the cache as it is,
    whatever the function would compute by then; the first call computes
    only when the name has no entry, returns the entry otherwise, and
    touches no entry under another name. *)
Theorem memoizer_computes_once {V : Type} (name : string) (func later : V)
    (cache : gmap string V) :
  let v := fst (memoizer name func cache) in
  let cache1 := snd (memoizer name func cache) in
  memoizer name later cache1 = (v, cache1)
  /\ (cache !! name = None -> v = func)
  /\ (forall v0, cache !! name = Some v0 -> v = v0 /\ cache1 = cache)
  /\ (forall other, other <> name -> cache1 !! other = cache !! other).
Proof.
  unfold memoizer. destruct (cache !! name) as [v0|] eqn:E; cbn [fst snd].
  - rewrite E. repeat split; try congruence; intros; congruence.
  - rewrite lookup_insert_eq. repeat split; try congruence.
    intros other Hne. apply lookup_insert_ne. congruence.
Qed.

(** *** Tables *)

Lemma table_by_key_snoc facts f :
  table_by_key (facts ++ [f]) = <[fact_key f := f]> (table_by_key facts).
Proof. unfold table_by_key. rewrite fold_left_app. reflexivity. Qed.

Lemma table_by_citekey_snoc facts f :
  table_by_citekey (facts ++ [f])
  = match fact_citekey f with
    | Some c => if String.eqb c EmptyString then table_by_citekey facts
                else <[c := f]> (table_by_citekey facts)
    | None => table_by_citekey facts
    end.
Proof. unfold table_by_citekey. rewrite fold_left_app. reflexivity. Qed.

(** X25.  In the tables a workspace builds, a later entry replaces an
    earlier one with the same key: the reference found under a key is the
    last listing with that key, in the order of the documents and of the
    listings in them; the table by citekey holds the last listing with that
    citekey and nothing for a listing whose citekey is missing or empty. *)
Theorem table_holds_last_listing (facts : list Fact) (k : string) :
  table_by_key facts !! k
  = List.find (fun f => String.eqb (fact_key f) k) (rev facts)
  /\ table_by_citekey facts !! k
     = (if String.eqb k EmptyString then None
        else List.find (fun f => match fact_citekey f with
                                 | Some c => String.eqb c k
                                 | None => false
                                 end) (rev facts)).
Proof.
  induction facts as [|f facts [IH1 IH2]] using rev_ind.
  - cbn. split; [apply lookup_empty|].
    destruct (String.eqb k EmptyString); [reflexivity | apply lookup_empty].
  - rewrite rev_app_distr. cbn [rev app List.find]. split.
    + rewrite table_by_key_snoc. destruct (String.eqb_spec (fact_key f) k) as [<-|Hne].
      * apply lookup_insert_eq.
      * rewrite lookup_insert_ne by exact Hne. exact IH1.
    + rewrite table_by_citekey_snoc. destruct (fact_citekey f) as [c|]; [|exact IH2].
      destruct (String.eqb_spec c EmptyString) as [->|Hc].
      * rewrite IH2. destruct (String.eqb_spec k EmptyString) as [->|Hk]; [reflexivity|].
        destruct (String.eqb_spec EmptyString k); [congruence | reflexivity].
      * destruct (String.eqb_spec c k) as [<-|Hne].
        -- rewrite lookup_insert_eq.
           destruct (String.eqb_spec c EmptyString); [congruence | reflexivity].
        -- rewrite lookup_insert_ne by exact Hne. exact IH2.
Qed.

(** *** Reads after a change *)

Section WithQueries.

Variable rl : Tree -> list Captures.
Variable sm : nat -> Tree -> list Captures.
Variable Node : Type.
Variable reindex : list nat -> list Document -> Document -> list nat.
Variable builder : Document -> State Node -> option Node.

(** X26.  After [update] the facts of a document are read from the tree the
    update has left.  The call empties the cache of the document, so that
    the next read of the reference listings and of the sections returns what
    the queries match in the tree the document holds then, whatever the
    cache held before; that tree was parsed from the new text with the tree
    of the text document as the changes left it handed to the parser.
    [reparse] parses from scratch and leaves the cache as it is: a list that
    was read before it is what a read after it returns. *)
Theorem update_then_read_is_fresh
    (d : Document) (version : Z) (changes : list TextDocumentContentChangeEvent)
    (d' : Document) :
  doc_update d version changes = Some d' ->
  doc_cache d' = ∅
  /\ ts_update (tsDoc d) changes version = Some (tsDoc d')
  /\ fst (referenceListings rl d')
     = map (wrap (doc_uri d)) (rl (ts_tree (tsDoc d')))
  /\ fst (sections sm d')
     = map (wrap (doc_uri d))
         (sm 1 (ts_tree (tsDoc d')) ++ sm 2 (ts_tree (tsDoc d'))
          ++ sm 3 (ts_tree (tsDoc d')) ++ sm 4 (ts_tree (tsDoc d'))
          ++ sm 5 (ts_tree (tsDoc d')))
  /\ tree_text (ts_tree (tsDoc d')) = ts_text (tsDoc d')
  /\ tree_edits (ts_tree (tsDoc d')) = []
  /\ tree_previous (ts_tree (tsDoc d')) <> None
  /\ ts_tree (tsDoc (doc_reparse d)) = parse (ts_text (tsDoc d))
  /\ (forall v, doc_cache d !! "referenceListings" = Some v ->
        fst (referenceListings rl (doc_reparse d)) = v).
Proof.
  intros H. destruct (doc_update_clears rl sm d version changes d' H)
    as (Hc & Hr & Hs & Hu & _ & Huri & _).
  split; [exact Hc|]. split; [exact Hu|].
  split; [rewrite Hr; unfold referenceListings_fresh, doc_tree; rewrite Huri; reflexivity|].
  split; [rewrite Hs; unfold sections_fresh, doc_tree; rewrite Huri; reflexivity|].
  assert (Ht : exists old, ts_tree (tsDoc d') = parse_with (ts_text (tsDoc d')) old).
  { revert Hu. generalize (tsDoc d'). intros t' Hu. unfold ts_update in Hu.
    destruct (tsDoc d) as [d0|h0]; unfold update, update_holed in Hu;
      [destruct (applyChanges d0 changes) as [d1|m|h1]
      |destruct (applyChanges_holed h0 changes) as [d1|m|h1]];
      cbn in Hu; try discriminate; injection Hu as <-; eexists; reflexivity. }
  destruct Ht as [old Ht]. rewrite Ht.
  split; [reflexivity|]. split; [reflexivity|]. split; [discriminate|].
  split; [destruct (tsDoc d) eqn:E; unfold doc_reparse; cbn; rewrite E; reflexivity|].
  intros v Hv. unfold referenceListings.
  rewrite (memoizer_hit _ _ v); [reflexivity | exact Hv].
Qed.

(** X27.  After [onDidChangeTextDocument] the tables of the workspace are
    computed again.  When no document of the store holds a fact list that
    disagrees with its tree, the handler leaves the workspace of the changed
    document with an empty cache, and the next read of each of its three
    tables of references and sections returns the table built from the
    trees that the documents of the workspace hold then, taken in the order
    in which the store finds them.  The next read of the section tree runs
    the builder again, from the document [index.rst] of the workspace, and
    throws when there is none. *)
Theorem change_then_read_is_fresh
    (uri : string) (version : Z) (changes : list TextDocumentContentChangeEvent)
    (s s' : State Node) :
  onDidChangeTextDocument Node reindex uri version changes s = Some s' ->
  (forall d, In d (documents Node s) -> doc_coherent rl sm d) ->
  exists doc w',
    documents_by_uri Node s uri = Some doc
    /\ workspaces_by_id Node s' (doc_workspaceId doc) = Some w'
    /\ ws_cache Node w' = ∅
    /\ fst (referencesByKey rl Node w' s')
       = Table Node (table_by_key
           (concat (map (referenceListings_fresh rl) (ws_documents Node w' s'))))
    /\ fst (referencesByCitekey rl Node w' s')
       = Table Node (table_by_citekey
           (concat (map (referenceListings_fresh rl) (ws_documents Node w' s'))))
    /\ fst (sectionsByCitekey sm Node w' s')
       = Table Node (table_by_citekey
           (concat (map (sections_fresh sm) (ws_documents Node w' s'))))
    /\ option_map fst (sectionTree Node builder w' s')
       = match ws_index Node w' s' with
         | Some index => option_map (Outline Node) (builder index s')
         | None => None
         end.
Proof.
  intros H Hco.
  destruct (onDidChangeTextDocument_clears rl sm Node reindex uri version changes s s' H)
    as (doc & doc' & ws & Hd & Hu & Hc & Hws & Hdocs & Hws' & Hempty).
  exists doc, (ws_clearCache Node ws).
  split; [exact Hd|]. split; [exact Hws'|]. split; [exact Hempty|].
  assert (Hco' : forall d, In d (documents Node s') -> doc_coherent rl sm d).
  { intros d Hin. rewrite Hdocs in Hin. unfold documents_put in Hin.
    apply in_map_iff in Hin. destruct Hin as (d0 & <- & Hin0).
    destruct (doc_id d0 =? doc_id doc'); [|exact (Hco d0 Hin0)].
    split; intros v Hv; rewrite Hc, lookup_empty in Hv; discriminate. }
  assert (Hmiss : forall name, ws_cache Node (ws_clearCache Node ws) !! name = None).
  { intros name. rewrite Hempty. apply lookup_empty. }
  split; [|split; [|split]].
  - unfold referencesByKey.
    apply (ws_memo_miss rl sm Node _ _ (referenceListings_fresh rl));
      [exact (referenceListings_coherent rl sm) | exact (referenceListings_keeps rl sm)
      | apply Hmiss | exact Hco'].
  - unfold referencesByCitekey.
    apply (ws_memo_miss rl sm Node _ _ (referenceListings_fresh rl));
      [exact (referenceListings_coherent rl sm) | exact (referenceListings_keeps rl sm)
      | apply Hmiss | exact Hco'].
  - unfold sectionsByCitekey.
    apply (ws_memo_miss rl sm Node _ _ (sections_fresh sm));
      [exact (sections_coherent rl sm) | exact (sections_keeps rl sm)
      | apply Hmiss | exact Hco'].
  - unfold sectionTree. rewrite Hmiss.
    destruct (ws_index Node (ws_clearCache Node ws) s') as [index|]; [|reflexivity].
    destruct (builder index s'); reflexivity.
Qed.

End WithQueries.

Lemma update_then_read_is_fresh_witness :
  exists d',
    doc_update (mkDocument 1 "file:///w/a.rst" 1 editing (Clean (create 1 (ofString "old")))
                  {["referenceListings" := [mkFact "file:///w/a.rst" "old" None]]})
      2 [Incremental (mkRange (mkPosition 0 0) (mkPosition 0 3)) (ofString "new")]
    = Some d'
    /\ doc_cache d' = ∅
    /\ fst (referenceListings whole_text d') = [mkFact "file:///w/a.rst" "new" None].
Proof.
  destruct (doc_update (mkDocument 1 "file:///w/a.rst" 1 editing
                          (Clean (create 1 (ofString "old")))
                  {["referenceListings" := [mkFact "file:///w/a.rst" "old" None]]})
      2 [Incremental (mkRange (mkPosition 0 0) (mkPosition 0 3)) (ofString "new")])
    as [d'|] eqn:E; [|vm_compute in E; discriminate E].
  destruct (update_then_read_is_fresh whole_text no_sections _ _ _ d' E) as (Hc & _ & H & _).
  exists d'. split; [reflexivity|]. split; [exact Hc|]. rewrite H.
  vm_compute in E. injection E as <-. reflexivity.
Defined.

(** The index lists the second document of [two_documents] first.  When the
    first document is changed to the text of the second, the two list the
    same key, and the table holds the listing of the document found last,
    which is the first document of the collection. *)
Lemma change_then_read_is_fresh_witness :
  exists s' w',
    onDidChangeTextDocument (list string) keep_index "file:///w/a.rst" 2
      [Incremental (mkRange (mkPosition 0 0) (mkPosition 0 1)) (ofString "y")]
      two_documents = Some s'
    /\ workspaces_by_id (list string) s' 1 = Some w'
    /\ map doc_uri (ws_documents (list string) w' s')
       = ["file:///w/b.rst"; "file:///w/a.rst"]
    /\ table_of (fst (referencesByKey whole_text (list string) w' s')) !! "y"
       = Some (mkFact "file:///w/a.rst" "y" None).
Proof.
  destruct (onDidChangeTextDocument (list string) keep_index "file:///w/a.rst" 2
              [Incremental (mkRange (mkPosition 0 0) (mkPosition 0 1)) (ofString "y")]
              two_documents) as [s'|] eqn:E; [|vm_compute in E; discriminate E].
  destruct (change_then_read_is_fresh whole_text no_sections (list string) keep_index
              (fun _ _ => None) _ _ _ _ s' E) as (doc & w' & Hd & Hw & _ & Hread & _).
  - intros d [<-|[<-|[]]]; split; intros v Hv; vm_compute in Hv; discriminate Hv.
  - vm_compute in Hd. injection Hd as <-. cbn [doc_workspaceId] in Hw.
    exists s', w'. split; [reflexivity|]. split; [exact Hw|].
    rewrite Hread. vm_compute in E. injection E as <-.
    vm_compute in Hw. injection Hw as <-. split; vm_compute; reflexivity.
Defined.

End CacheReads.
